(** * merge_dshield_logs.py: the idempotent merge engine

  A shallow embedding of [src/merge_dshield_logs.py]: the merge state
  store ([load_state], [save_state], the signature comparison of
  [process]), the chunked output writer ([ChunkWriter]) and the merge
  driver ([process]).

  Python integers are [Z]; text is a list of Unicode code points and
  encoded data a list of bytes (both [N]); file names are [string]s;
  dictionaries and directories are [gmap]s.  The driver runs in a state
  and exception monad over a [world] that holds the three groups of files
  the script touches and the trace of the effects it performs. *)

From Stdlib Require Import ZArith Lia Ascii.
From stdpp Require Import gmap strings list sorting.

Local Open Scope Z_scope.

(** ** Python exceptions *)

(** The exception classes that the calls of the script can raise.  Only the
    subclass relation to [OSError] matters to the handlers of the script. *)
Inductive exn : Set :=
| FileNotFoundError   (* OSError subclass *)
| PermissionError     (* OSError subclass *)
| BadGzipFile         (* gzip.BadGzipFile, OSError subclass *)
| EOFError            (* truncated gzip stream; not an OSError *)
| ZlibError           (* zlib.error, corrupt deflate data; not an OSError *)
| UnicodeDecodeError  (* ValueError subclass *)
| JSONDecodeError     (* json.JSONDecodeError, ValueError subclass *)
| AttributeError.

Definition is_OSError (e : exn) : bool :=
  match e with
  | FileNotFoundError | PermissionError | BadGzipFile => true
  | _ => false
  end.

(** ** Text and bytes *)

Module Text.

(** A Python [str] of line content: its code points. *)
Definition NL : N := 10.
Definition CR : N := 13.

(** [line.endswith("\n")] *)
Definition endswith_nl (line : list N) : bool :=
  match last line with
  | Some c => (c =? NL)%N
  | None => false
  end.

(** Lines 164-165 of [process]: ensure a single newline in the output. *)
Definition normalize (line : list N) : list N :=
  if endswith_nl line then line else line ++ [NL].

(** One code point of [str.encode("utf-8", errors="replace")]: a lone
    surrogate cannot be encoded and is replaced by [b"?"]. *)
Definition utf8_char (c : N) : list N :=
  (if c <? 0x80 then [c]
   else if c <? 0x800 then [0xC0 + c / 64; 0x80 + c mod 64]
   else if (0xD800 <=? c) && (c <=? 0xDFFF) then [63]
   else if c <? 0x10000 then
     [0xE0 + c / 4096; 0x80 + (c / 64) mod 64; 0x80 + c mod 64]
   else
     [0xF0 + c / 262144; 0x80 + (c / 4096) mod 64;
      0x80 + (c / 64) mod 64; 0x80 + c mod 64])%N.

Definition encode (s : list N) : list N := s ≫= utf8_char.

(** The text layer of [gzip.open(path, "rt")] reads with universal
    newlines: ["\r\n"] and a lone ["\r"] arrive as ["\n"]. *)
Fixpoint universal_newlines (t : list N) : list N :=
  match t with
  | [] => []
  | c :: t' =>
      if (c =? CR)%N then
        match t' with
        | d :: t'' =>
            if (d =? NL)%N then NL :: universal_newlines t''
            else NL :: universal_newlines t'
        | [] => [NL]
        end
      else c :: universal_newlines t'
  end.

(** Iterating over the text file yields the lines with their terminator;
    only the last line can lack one. *)
Fixpoint split_lines (t : list N) : list (list N) :=
  match t with
  | [] => []
  | c :: t' =>
      if (c =? NL)%N then [c] :: split_lines t'
      else match split_lines t' with
           | [] => [[c]]
           | l :: ls => (c :: l) :: ls
           end
  end.

Definition readlines (t : list N) : list (list N) :=
  split_lines (universal_newlines t).

(** The text that the text layer has handed on when the stream raises: a
    carriage return at the end of what was read is held back until the
    character after it is known, and never arrives. *)
Definition held_back (t : list N) : list N :=
  match last t with
  | Some c => if (c =? CR)%N then removelast t else t
  | None => t
  end.

End Text.

(** ** File names of the output chunks *)

Module Name.

Definition digit_char (d : Z) : ascii := Ascii.ascii_of_N (48 + Z.to_N d).

Fixpoint dec_go (fuel : nat) (n : Z) (acc : string) : string :=
  match fuel with
  | O => acc
  | S fuel' =>
      let acc' := String (digit_char (n mod 10)) acc in
      if n / 10 =? 0 then acc' else dec_go fuel' (n / 10) acc'
  end.

(** The decimal digits of a natural number [n]. *)
Definition dec (n : Z) : string :=
  dec_go (S (Z.to_nat (Z.log2 n))) n "".

Fixpoint zeros (k : nat) : string :=
  match k with
  | O => ""
  | S k' => String "0" (zeros k')
  end.

Definition zfill (width : nat) (s : string) : string :=
  zeros (width - String.length s) +:+ s.

(** [f"{idx:05d}"]: sign-aware zero padding to a minimal width of 5. *)
Definition fmt_05d (idx : Z) : string :=
  if idx <? 0 then String "-" (zfill 4 (dec (- idx))) else zfill 5 (dec idx).

(** The base name of [ChunkWriter._path]. *)
Definition chunk_name (prefix : string) (idx : Z) : string :=
  prefix +:+ fmt_05d idx +:+ ".log".

Fixpoint drop (n : nat) (s : string) : string :=
  match n, s with
  | S n', String _ s' => drop n' s'
  | _, _ => s
  end.

(** [s.partition(sep)] at the first occurrence of a non-empty [sep]. *)
Fixpoint find_sub (sep s : string) : option (string * string) :=
  if String.prefix sep s then Some ("", drop (String.length sep) s)
  else match s with
       | "" => None
       | String c s' =>
           match find_sub sep s' with
           | Some (b, a) => Some (String c b, a)
           | None => None
           end
       end.

(** [s.split(sep, 1)] *)
Definition split1 (sep s : string) : list string :=
  match find_sub sep s with
  | Some (b, a) => [b; a]
  | None => [s]
  end.

Definition is_digit (c : ascii) : bool :=
  let n := Ascii.N_of_ascii c in ((48 <=? n) && (n <=? 57))%N.

Definition digit_val (c : ascii) : Z := Z.of_N (Ascii.N_of_ascii c) - 48.

(** The characters [int] strips from an ASCII string: tab, line feed,
    vertical tab, form feed, carriage return and space. *)
Definition is_space (c : ascii) : bool :=
  let n := Ascii.N_of_ascii c in
  (((9 <=? n) && (n <=? 13)) || (n =? 32))%N.

Fixpoint lstrip (s : string) : string :=
  match s with
  | String c s' => if is_space c then lstrip s' else s
  | "" => ""
  end.

Definition strip (s : string) : string :=
  String.rev (lstrip (String.rev (lstrip s))).

(** Digits with single underscores between them. *)
Fixpoint int_digits (s : string) (acc : Z) (after_digit : bool) : option Z :=
  match s with
  | "" => if after_digit then Some acc else None
  | String c s' =>
      if is_digit c then int_digits s' (10 * acc + digit_val c) true
      else if Ascii.eqb c "_"%char && after_digit then int_digits s' acc false
      else None
  end.

(** [int(s)] for a string [s] of ASCII characters: [None] stands for
    [ValueError].  On other strings [int] also takes the decimal digits and
    the white space of Unicode, which are outside this model. *)
Definition py_int (s : string) : option Z :=
  match strip s with
  | String c s' =>
      if Ascii.eqb c "-"%char then Z.opp <$> int_digits s' 0 false
      else if Ascii.eqb c "+"%char then int_digits s' 0 false
      else int_digits (String c s') 0 false
  | "" => None
  end.

Definition endswith (suffix s : string) : bool :=
  String.prefix (String.rev suffix) (String.rev s).

(** [fnmatch] of a base name against [f"{prefix}*.log"], for a prefix
    without wildcard characters. *)
Definition glob_match (prefix name : string) : bool :=
  String.prefix prefix name && endswith ".log" (drop (String.length prefix) name).

End Name.

(** ** Configuration (lines 19-28) *)

Definition OUTPUT_DIR : string := "/var/log/dshield_merged".
Definition OUTPUT_PREFIX : string := "dshield-merged-".
Definition CHUNK_BYTES : Z := 50 * 1024 * 1024.
Definition STATE_FILE : string := "/var/lib/dshield_merge/state.json".

(** ** The files the script works on *)

(** A chunk file holds the data of the writes made to it, in order; its
    bytes are their concatenation. *)
Definition chunk_size (c : list (list N)) : Z := Z.of_nat (length (concat c)).

Definition data_len (data : list N) : Z := Z.of_nat (length data).

(** A rotated log: the fields of [os.stat] that [file_signature] reads, and
    what reading it through [gzip.open(path, "rt", errors="replace")]
    delivers: the decoded text, and the exception that ends the stream when
    the file cannot be opened or decompressed to its end. *)
Record input_file := InputFile {
  st_ino : Z;
  st_size : Z;
  st_mtime : Z;             (* int(st.st_mtime) *)
  gz_text : list N;
  gz_error : option exn
}.

(** The lines the iteration yields before it ends or raises: when it
    raises, the complete lines of the text handed on so far; a line cut
    short by the exception is never yielded. *)
Definition gz_lines (f : input_file) : list (list N) :=
  match gz_error f with
  | None => Text.readlines (gz_text f)
  | Some _ =>
      filter (λ l, Text.endswith_nl l = true)
        (Text.readlines (Text.held_back (gz_text f)))
  end.

(** The state document: the two keys the script reads and writes.  An entry
    of [processed] is the JSON object [{"ino": _, "size": _, "mtime": _}].
    The values are of the types the script writes; a document with values of
    other types (null, a string, a list), on which lines 133-134 or 153-154
    raise, is outside the model. *)
Record state := State {
  processed : option (gmap string (gmap string Z));
  last_processed_mtime : option Z
}.

(** A file at the state path, by what [open] and [json.load] make of it. *)
Inductive state_file :=
| Unreadable                 (* open raises PermissionError *)
| NotUtf8                    (* reading raises UnicodeDecodeError *)
| NotJson                    (* json.load raises JSONDecodeError *)
| JsonOther                  (* valid JSON, not an object *)
| JsonObject (d : state).

Inductive message :=
| MsgNoInputs
| MsgMerged (path : string)
| MsgDone (count : Z).

(** The effects of the script, in the order it performs them. *)
Inductive event :=
| EvMkdir (dir : string)
| EvOpen (path : string) (mode : string)
| EvDump (path : string) (d : state)
| EvFlush (path : string)
| EvFsync (path : string)
| EvClose (path : string)
| EvRename (src dst : string)
| EvReplace (src dst : string)
| EvPrint (m : message)
| EvWarn (path : string) (e : exn).

Record world := World {
  w_inputs : list string;                 (* the result of discover_inputs() *)
  w_logs : gmap string input_file;        (* the rotated logs still present *)
  w_out : gmap string (list (list N));    (* OUTPUT_DIR, by base name *)
  w_state : gmap string state_file;       (* the state file and its siblings *)
  w_rename_ok : bool;                     (* whether os.rename succeeds *)
  w_trace : list event
}.

Definition set_out (f : gmap string (list (list N)) → gmap string (list (list N)))
    (w : world) : world :=
  World (w_inputs w) (w_logs w) (f (w_out w)) (w_state w) (w_rename_ok w) (w_trace w).

Definition set_state (f : gmap string state_file → gmap string state_file)
    (w : world) : world :=
  World (w_inputs w) (w_logs w) (w_out w) (f (w_state w)) (w_rename_ok w) (w_trace w).

Definition add_event (e : event) (w : world) : world :=
  World (w_inputs w) (w_logs w) (w_out w) (w_state w) (w_rename_ok w) (w_trace w ++ [e]).

(** ** The monad of the script: state and exceptions *)

Inductive result (A : Type) :=
| Ok (a : A)
| Raise (e : exn).
Arguments Ok {A} a.
Arguments Raise {A} e.

Definition M (A : Type) : Type := world → result A * world.

Global Instance M_ret : MRet M := λ A a w, (Ok a, w).

Definition bind {A B} (m : M A) (f : A → M B) : M B := λ w,
  match m w with
  | (Ok a, w') => f a w'
  | (Raise e, w') => (Raise e, w')
  end.

Global Instance M_bind : MBind M := λ A B f m, bind m f.

Notation "'let*' x := m 'in' k" := (bind m (λ x, k))
  (at level 10, x pattern, m at level 100, k at level 200,
   format "'[v' 'let*'  x  :=  m  'in' '/' k ']'").

Definition raise {A} (e : exn) : M A := λ w, (Raise e, w).
Definition gets {A} (f : world → A) : M A := λ w, (Ok (f w), w).
Definition modify (f : world → world) : M () := λ w, (Ok (), f w).
Definition emit (e : event) : M () := modify (add_event e).

(** [try: body except <classes matched by catches>: handler] *)
Definition try_except {A} (body : M A) (catches : exn → bool) (handler : exn → M A) : M A :=
  λ w, match body w with
       | (Raise e, w') => if catches e then handler e w' else (Raise e, w')
       | r => r
       end.

(** ** The merge state store (lines 30-61) *)

(** [ensure_dir]: mkdir -p and chmod. *)
Definition ensure_dir (path : string) : M () := emit (EvMkdir path).

Inductive json :=
| JObject (d : state)
| JOther.

Definition empty_state : state := State (Some ∅) (Some 0).

(** [with open(STATE_FILE, "r", encoding="utf-8") as f: return json.load(f)] *)
Definition read_state_file : M json := λ w,
  match w_state w !! STATE_FILE with
  | None => (Raise FileNotFoundError, w)
  | Some Unreadable => (Raise PermissionError, w)
  | Some NotUtf8 => (Raise UnicodeDecodeError, w)
  | Some NotJson => (Raise JSONDecodeError, w)
  | Some JsonOther => (Ok JOther, w)
  | Some (JsonObject d) => (Ok (JObject d), w)
  end.

(** [os.rename(src, dst)] on the state directory; it fails with an
    [OSError] when the world says so. *)
Definition os_rename (src dst : string) : M () := λ w,
  if w_rename_ok w then
    (Ok (), add_event (EvRename src dst)
              (set_state (λ m, match m !! src with
                               | Some f => <[dst := f]> (delete src m)
                               | None => m
                               end) w))
  else (Raise PermissionError, w).

Definition load_state : M json :=
  try_except read_state_file
    (λ e, match e with FileNotFoundError | JSONDecodeError => true | _ => false end)
    (λ e, match e with
          | FileNotFoundError => mret (JObject empty_state)
          | _ =>
              (* Corrupted state: start fresh but keep a backup *)
              let backup := STATE_FILE +:+ ".bak" in
              try_except (os_rename STATE_FILE backup) is_OSError (λ _, mret ());;
              mret (JObject empty_state)
          end).

(** [posixpath.dirname] *)
Fixpoint after_slash (r : string) : string :=
  match r with
  | String c r' => if Ascii.eqb c "/"%char then r else after_slash r'
  | "" => ""
  end.

Fixpoint lstrip_slash (r : string) : string :=
  match r with
  | String c r' => if Ascii.eqb c "/"%char then lstrip_slash r' else r
  | "" => ""
  end.

Definition dirname (p : string) : string :=
  let head := after_slash (String.rev p) in
  match lstrip_slash head with
  | "" => String.rev head
  | stripped => String.rev stripped
  end.

Definition save_state (st : state) : M () :=
  ensure_dir (match dirname STATE_FILE with "" => "/" | d => d end);;
  let tmp := STATE_FILE +:+ ".tmp" in
  emit (EvOpen tmp "w");;
  modify (set_state (<[tmp := NotJson]>));;
  emit (EvDump tmp st);;
  emit (EvFlush tmp);;
  modify (set_state (<[tmp := JsonObject st]>));;
  emit (EvFsync tmp);;
  emit (EvClose tmp);;
  emit (EvReplace tmp STATE_FILE);;
  modify (set_state (λ m, match m !! tmp with
                          | Some f => <[STATE_FILE := f]> (delete tmp m)
                          | None => m
                          end)).

(** [file_signature]: [os.stat] raises when the path is gone. *)
Definition file_signature (path : string) : M (Z * Z * Z) := λ w,
  match w_logs w !! path with
  | Some f => (Ok (st_ino f, st_size f, st_mtime f), w)
  | None => (Raise FileNotFoundError, w)
  end.

(** [discover_inputs], as the driver sees it: the glob over the log
    directories and the sort by modification time are the world's, which
    holds the resulting list ([discover_inputs_in] below is the function
    itself).  A world is one in which the discovery returned: when [os.stat]
    raises in the sort key, the script ends there, before the loop. *)
Definition discover_inputs : M (list string) := gets w_inputs.

(** ** The starting index (lines 72-85) *)

(** The [try] block of [next_output_index] on the last name; [None] when it
    raises.  The names of the directory are base names already. *)
Definition parse_index (last : string) : option Z :=
  rest ← Name.split1 OUTPUT_PREFIX last !! 1%nat;
  digits ← Name.split1 ".log" rest !! 0%nat;
  idx ← Name.py_int digits;
  Some (Z.max 1 idx).

Definition existing_chunks (dir : gmap string (list (list N))) : list string :=
  merge_sort String.le
    (filter (λ n, Name.glob_match OUTPUT_PREFIX n = true) (elements (dom dir))).

Definition index_of_dir (dir : gmap string (list (list N))) : Z :=
  match last (existing_chunks dir) with
  | None => 1
  | Some last =>
      match parse_index last with
      | Some idx => idx
      | None => 1          (* Fallback if names are unexpected *)
      end
  end.

Definition next_output_index : M Z :=
  ensure_dir OUTPUT_DIR;;
  gets (λ w, index_of_dir (w_out w)).

(** ** The chunk writer (lines 87-128) *)

(** An open binary file object: the name it was opened on and the data
    written to it that has not reached the file yet.  The model keeps data
    in the buffer until [flush]; the library may hand it over earlier, which
    the size of the file together with the buffer does not depend on. *)
Record handle := Handle {
  h_name : string;
  h_buf : list (list N)
}.

Definition out_path (name : string) : string := OUTPUT_DIR +:+ "/" +:+ name.

(** [open(path, mode)] for the modes ["ab"] and ["wb"]. *)
Definition fh_open (name : string) (truncate : bool) : M handle :=
  emit (EvOpen (out_path name) (if truncate then "wb" else "ab"));;
  modify (set_out (λ dir, if truncate then <[name := []]> dir
                          else match dir !! name with
                               | Some _ => dir
                               | None => <[name := []]> dir
                               end));;
  mret (Handle name []).

Definition fh_write (data : list N) (h : handle) : handle :=
  Handle (h_name h) (h_buf h ++ [data]).

Definition fh_flush (h : handle) : M handle :=
  emit (EvFlush (out_path (h_name h)));;
  modify (set_out (λ dir, <[h_name h := default [] (dir !! h_name h) ++ h_buf h]> dir));;
  mret (Handle (h_name h) []).

Definition os_fsync (h : handle) : M () := emit (EvFsync (out_path (h_name h))).

Definition fh_close (h : handle) : M () := emit (EvClose (out_path (h_name h))).

Definition path_exists (name : string) : M bool :=
  gets (λ w, bool_decide (is_Some (w_out w !! name))).

Definition getsize (name : string) : M Z :=
  gets (λ w, chunk_size (default [] (w_out w !! name))).

Module ChunkWriter.

Record t := Make {
  prefix : string;
  chunk_bytes : Z;
  index : Z;
  fh : option handle;
  bytes_in_chunk : Z
}.

Definition _path (self : t) (idx : Z) : string :=
  Name.chunk_name (prefix self) idx.

(** Open the current chunk file, continuing if it exists. *)
Definition _open_existing_or_new (self : t) : M t :=
  ensure_dir OUTPUT_DIR;;
  let path := _path self (index self) in
  let* ex := path_exists path in
  let* h := fh_open path (negb ex) in
  let* ex' := path_exists path in
  let* size := (if ex' then getsize path else mret 0) in
  mret (Make (prefix self) (chunk_bytes self) (index self) (Some h) size).

Definition init (prefix : string) (start_index chunk_bytes : Z) : M t :=
  _open_existing_or_new (Make prefix chunk_bytes start_index None 0).

Definition rotate (self : t) : M t :=
  match fh self with
  | Some h =>
      let* h' := fh_flush h in
      os_fsync h';;
      fh_close h';;
      let index' := index self + 1 in
      let* h'' := fh_open (_path self index') true in
      mret (Make (prefix self) (chunk_bytes self) index' (Some h'') 0)
  | None => raise AttributeError
  end.

(** [write_line] on the encoded line. *)
Definition write_data (data : list N) (self : t) : M t :=
  let* self := (if (chunk_bytes self <? bytes_in_chunk self + data_len data)
                   && (0 <? bytes_in_chunk self)
                then rotate self else mret self) in
  match fh self with
  | Some h =>
      mret (Make (prefix self) (chunk_bytes self) (index self)
              (Some (fh_write data h)) (bytes_in_chunk self + data_len data))
  | None => raise AttributeError
  end.

Definition write_line (line : list N) (self : t) : M t :=
  write_data (Text.encode line) self.

(** A sequence of [write_line] calls. *)
Fixpoint write_all (lines : list (list N)) (self : t) : M t :=
  match lines with
  | [] => mret self
  | line :: rest => let* self' := write_line line self in write_all rest self'
  end.

Definition close (self : t) : M t :=
  match fh self with
  | Some h =>
      let* h' := fh_flush h in
      os_fsync h';;
      fh_close h';;
      mret (Make (prefix self) (chunk_bytes self) (index self) None
              (bytes_in_chunk self))
  | None => mret self
  end.

End ChunkWriter.

(** ** The merge driver (lines 130-185) *)

(** The signature as stored: [{"ino": ino, "size": size, "mtime": mtime}]. *)
Definition sig_entry (ino size mtime : Z) : gmap string Z :=
  <["ino" := ino]> (<["size" := size]> (<["mtime" := mtime]> ∅)).

(** Lines 153-154: the test that skips a file merged before. *)
Definition is_duplicate (processed : gmap string (gmap string Z)) (path : string)
    (ino size mtime : Z) : bool :=
  match processed !! path with
  | Some prev =>
      bool_decide (prev ≠ ∅)
      && bool_decide (prev !! "ino" = Some ino)
      && bool_decide (prev !! "size" = Some size)
      && bool_decide (prev !! "mtime" = Some mtime)
  | None => false
  end.

(** The local variables of [process] that the loop updates. *)
Record locals := Locals {
  l_processed : gmap string (gmap string Z);
  last_mtime_seen : Z;
  processed_count : Z;
  writer : ChunkWriter.t
}.

(** [for line in gz: ... writer.write_line(line)] over the lines yielded. *)
Fixpoint write_lines (lines : list (list N)) (wr : ChunkWriter.t) : M ChunkWriter.t :=
  match lines with
  | [] => mret wr
  | line :: rest =>
      (* ensure each line ends with a single newline in output *)
      let* wr' := ChunkWriter.write_line (Text.normalize line) wr in
      write_lines rest wr'
  end.

(** Lines 161-166: the writer object keeps what was written to it when the
    stream raises, so the body returns it together with the exception. *)
Definition read_and_append (path : string) (wr : ChunkWriter.t)
    : M (ChunkWriter.t * option exn) := λ w,
  match w_logs w !! path with
  | Some f =>
      match write_lines (gz_lines f) wr w with
      | (Ok wr', w') => (Ok (wr', gz_error f), w')
      | (Raise e, w') => (Raise e, w')
      end
  | None => (Ok (wr, Some FileNotFoundError), w)
  end.

(** Lines 146-149: [None] when the file was rotated between scan and stat. *)
Definition try_signature (path : string) : M (option (Z * Z * Z)) :=
  try_except (let* sig := file_signature path in mret (Some sig))
    (λ e, match e with FileNotFoundError => true | _ => false end)
    (λ _, mret None).

(** The body of the loop over the inputs. *)
Definition process_one (path : string) (l : locals) : M locals :=
  let* sig := try_signature path in
  match sig with
  | None => mret l
  | Some (ino, size, mtime) =>
      if is_duplicate (l_processed l) path ino size mtime then
        (* Already merged this file in a previous run *)
        mret (Locals (l_processed l) (Z.max (last_mtime_seen l) mtime)
                (processed_count l) (writer l))
      else
        (* Read & append *)
        let* (wr, err) := read_and_append path (writer l) in
        match err with
        | Some e =>
            if is_OSError e then
              emit (EvWarn path e);;
              mret (Locals (l_processed l) (last_mtime_seen l) (processed_count l) wr)
            else raise e
        | None =>
            (* Mark processed *)
            emit (EvPrint (MsgMerged path));;
            mret (Locals (<[path := sig_entry ino size mtime]> (l_processed l))
                    (Z.max (last_mtime_seen l) mtime)
                    (processed_count l + 1) wr)
        end
  end.

Fixpoint process_inputs (inputs : list string) (l : locals) : M locals :=
  match inputs with
  | [] => mret l
  | path :: rest => let* l' := process_one path l in process_inputs rest l'
  end.

(** [process], with the chunk size bound of the configuration as a
    parameter; the script runs it at [CHUNK_BYTES]. *)
Definition process_with (chunk_bytes : Z) : M Z :=
  ensure_dir OUTPUT_DIR;;
  let* st := load_state in
  match st with
  | JOther => raise AttributeError
  | JObject d =>
      let processed0 := default ∅ (processed d) in
      let last0 := default 0 (last_processed_mtime d) in
      let* inputs := discover_inputs in
      match inputs with
      | [] => emit (EvPrint MsgNoInputs);; mret 0
      | _ =>
          let* out_index := next_output_index in
          let* wr := ChunkWriter.init OUTPUT_PREFIX out_index chunk_bytes in
          let* l := process_inputs inputs (Locals processed0 last0 0 wr) in
          ChunkWriter.close (writer l);;
          (* Persist state *)
          save_state (State (Some (l_processed l)) (Some (last_mtime_seen l)));;
          emit (EvPrint (MsgDone (processed_count l)));;
          mret 0
      end
  end.

Definition process : M Z := process_with CHUNK_BYTES.

(** ** Discovering the inputs (lines 63-70) *)

Definition LOG_DIRS : list string := ["/var/log"].

(** [fnmatch] of a base name against ["dshield.log.[1-9].gz"], a pattern
    with one character class and no other wildcard. *)
Definition input_match (name : string) : bool :=
  String.prefix "dshield.log." name &&
  match Name.drop 12 name with
  | String c rest =>
      let n := Ascii.N_of_ascii c in
      (49 <=? n)%N && (n <=? 57)%N && String.eqb rest ".gz"
  | "" => false
  end.

Definition INPUT_PATTERNS : list (string → bool) := [input_match].

(** An entry of a log directory: its name, and the [st_mtime] that
    [os.stat] reports for it, [None] when [os.stat] raises
    [FileNotFoundError] (a dangling link, a file removed since the
    listing).  The time is a float; floats are compared as numbers and every
    float is an integer multiple of 2^-1074, so it is given as that
    integer. *)
Record dir_entry := DirEntry {
  e_name : string;
  e_mtime : option Z
}.

(** [glob.glob(os.path.join(d, pat))]: the entries of [d] whose name matches,
    as paths, in the order of the listing; each with what [os.stat] will
    say of it. *)
Definition glob_dir (d : string) (pat : string → bool) (entries : list dir_entry)
    : list (string * option Z) :=
  (λ e, (d +:+ "/" +:+ e_name e, e_mtime e)) <$> filter (λ e, pat (e_name e) = true) entries.

(** The keys of [files.sort(key=...)]: the key function is called on every
    element before anything is moved, and its exception ends the sort. *)
Fixpoint sort_keys (files : list (string * option Z)) : result (list (Z * string)) :=
  match files with
  | [] => Ok []
  | (p, Some t) :: rest =>
      match sort_keys rest with
      | Ok keyed => Ok ((t, p) :: keyed)
      | Raise e => Raise e
      end
  | (p, None) :: _ => Raise FileNotFoundError
  end.

(** [list.sort] is stable: an element stays before the later elements of
    the same key. *)
Fixpoint insert_by_key (x : Z * string) (l : list (Z * string)) : list (Z * string) :=
  match l with
  | [] => [x]
  | y :: l' => if x.1 <=? y.1 then x :: y :: l' else y :: insert_by_key x l'
  end.

Definition sort_by_key (l : list (Z * string)) : list (Z * string) :=
  foldr insert_by_key [] l.

(** [discover_inputs] on the listings [scan] of the directories: the list
    that the driver receives. *)
Definition discover_inputs_in (scan : string → list dir_entry) : result (list string) :=
  let files := d ← LOG_DIRS; pat ← INPUT_PATTERNS; glob_dir d pat (scan d) in
  (* Sort by mtime ascending to keep chronological order *)
  match sort_keys files with
  | Ok keyed => Ok (snd <$> sort_by_key keyed)
  | Raise e => Raise e
  end.

(** * Notions used in the statements

    The logical content of the output directory (files together with the
    data still buffered in the writer's handle), the writer seen as a
    function on it, the invariants of the chunks, and the worlds of the
    examples. *)

Import ChunkWriter.

(** The name of the chunk the writer is on. *)
Definition current (wr : ChunkWriter.t) : string := _path wr (index wr).

(** The directory once the data held by the writer's handle reaches its
    file: what [flush] produces. *)
Definition logical (wr : ChunkWriter.t) (dir : gmap string (list (list N)))
    : gmap string (list (list N)) :=
  match fh wr with
  | Some h => <[h_name h := default [] (dir !! h_name h) ++ h_buf h]> dir
  | None => dir
  end.

(** The number of bytes waiting in the writer's handle. *)
Definition buffered (wr : ChunkWriter.t) : Z :=
  match fh wr with
  | Some h => chunk_size (h_buf h)
  | None => 0
  end.

(** The size of the current chunk file as [os.path.getsize] reports it. *)
Definition on_disk_size (wr : ChunkWriter.t) (w : world) : Z :=
  chunk_size (default [] (w_out w !! current wr)).

(** The writer is open on its current chunk, which exists, and counts the
    bytes of the file together with those of the buffer. *)
Record wf (wr : ChunkWriter.t) (w : world) : Prop := {
  wf_open : ∃ buf, fh wr = Some (Handle (current wr) buf);
  wf_exists : is_Some (w_out w !! current wr);
  wf_count : bytes_in_chunk wr = on_disk_size wr w + buffered wr
}.

(** A world that differs in the output directory and by further events. *)
Definition with_out (w : world) (dir : gmap string (list (list N))) (evs : list event)
    : world :=
  World (w_inputs w) (w_logs w) dir (w_state w) (w_rename_ok w) (w_trace w ++ evs).

(** The test of [write_line] that decides a rotation. *)
Definition must_rotate (B n : Z) (data : list N) : bool :=
  (B <? n + data_len data) && (0 <? n).

(** The index and the counter of the writer, the directory as it is on
    disk, and the directory as it is once the handle is flushed. *)
Record astate := AState {
  a_index : Z;
  a_bytes : Z;
  a_disk : gmap string (list (list N));
  a_dir : gmap string (list (list N))
}.

Definition abstract (wr : ChunkWriter.t) (w : world) : astate :=
  AState (index wr) (bytes_in_chunk wr) (w_out w) (logical wr (w_out w)).

Definition awrite (p : string) (B : Z) (a : astate) (data : list N) : astate :=
  if must_rotate B (a_bytes a) data then
    let new := Name.chunk_name p (a_index a + 1) in
    AState (a_index a + 1) (data_len data)
      (<[new := []]> (a_dir a)) (<[new := [data]]> (a_dir a))
  else
    let name := Name.chunk_name p (a_index a) in
    AState (a_index a) (a_bytes a + data_len data) (a_disk a)
      (<[name := default [] (a_dir a !! name) ++ [data]]> (a_dir a)).

(** The events of the chunk writer. *)
Definition writer_event (e : event) : Prop :=
  match e with
  | EvFlush p | EvFsync p | EvClose p => ∃ name, p = out_path name
  | EvOpen p _ => ∃ name, p = out_path name
  | EvMkdir d => d = OUTPUT_DIR
  | _ => False
  end.

Fixpoint all_digits (s : string) : bool :=
  match s with
  | "" => true
  | String c s' => Name.is_digit c && all_digits s'
  end.

Fixpoint val (s : string) : Z :=
  match s with
  | "" => 0
  | String c s' => Name.digit_val c * 10 ^ Z.of_nat (String.length s') + val s'
  end.

(** A string of ASCII characters. *)
Fixpoint is_ascii (s : string) : bool :=
  match s with
  | "" => true
  | String c s' => (Ascii.N_of_ascii c <? 128)%N && is_ascii s'
  end.

(** A file name made of ASCII characters, at most 255 of them as the file
    system has it: the names on which [Name.py_int] is [int]. *)
Definition plain_name (s : string) : Prop :=
  is_ascii s = true ∧ (String.length s ≤ 255)%nat.

(** The names of the directory that the glob of [next_output_index] finds. *)
Definition is_chunk (dir : gmap string (list (list N))) (n : string) : Prop :=
  is_Some (dir !! n) ∧ Name.glob_match OUTPUT_PREFIX n = true.

(** Every chunk of the directory carries a five-digit index. *)
Definition five_digit_names (dir : gmap string (list (list N))) : Prop :=
  ∀ n, is_chunk dir n → ∃ i, 1 ≤ i ≤ 99999 ∧ n = Name.chunk_name OUTPUT_PREFIX i.

(** The data [process] hands to the writer for one input. *)
Definition input_data (f : input_file) : list (list N) :=
  Text.encode <$> (Text.normalize <$> gz_lines f).

(** The events of the loop: those of the writer, and the reports. *)
Definition loop_event (e : event) : Prop :=
  match e with
  | EvWarn _ _ | EvPrint (MsgMerged _) => True
  | _ => writer_event e
  end.

(** What one iteration does, by the state of the input. *)
Inductive iteration (path : string) (l : locals) (w : world)
    : result locals → ChunkWriter.t → list (list N) → list event → Prop :=
| it_vanished :
    w_logs w !! path = None →
    iteration path l w (Ok l) (writer l) [] []
| it_duplicate f :
    w_logs w !! path = Some f →
    is_duplicate (l_processed l) path (st_ino f) (st_size f) (st_mtime f) = true →
    iteration path l w
      (Ok (Locals (l_processed l) (Z.max (last_mtime_seen l) (st_mtime f))
             (processed_count l) (writer l)))
      (writer l) [] []
| it_merged f wr' evs :
    w_logs w !! path = Some f →
    is_duplicate (l_processed l) path (st_ino f) (st_size f) (st_mtime f) = false →
    gz_error f = None →
    iteration path l w
      (Ok (Locals (<[path := sig_entry (st_ino f) (st_size f) (st_mtime f)]> (l_processed l))
             (Z.max (last_mtime_seen l) (st_mtime f))
             (processed_count l + 1) wr'))
      wr' (input_data f) (evs ++ [EvPrint (MsgMerged path)])
| it_warned f e wr' evs :
    w_logs w !! path = Some f →
    is_duplicate (l_processed l) path (st_ino f) (st_size f) (st_mtime f) = false →
    gz_error f = Some e → is_OSError e = true →
    Forall writer_event evs →
    iteration path l w
      (Ok (Locals (l_processed l) (last_mtime_seen l) (processed_count l) wr'))
      wr' (input_data f) (evs ++ [EvWarn path e])
| it_aborted f e wr' evs :
    w_logs w !! path = Some f →
    is_duplicate (l_processed l) path (st_ino f) (st_size f) (st_mtime f) = false →
    gz_error f = Some e → is_OSError e = false →
    Forall writer_event evs →
    iteration path l w (Raise e) wr' (input_data f) evs.

(** Data that comes from some rotated log of the world. *)
Definition is_input_data (w : world) (d : list N) : Prop :=
  ∃ p f, w_logs w !! p = Some f ∧ d ∈ input_data f.

(** An input that is present is recorded under its present signature. *)
Definition marked (w : world) (P : gmap string (gmap string Z)) (p : string) : Prop :=
  ∀ f, w_logs w !! p = Some f →
       is_duplicate P p (st_ino f) (st_size f) (st_mtime f) = true.


Definition state_events (evs : list event) : Prop :=
  evs = [] ∨ evs = [EvRename STATE_FILE (STATE_FILE +:+ ".bak")].

(** The effects of [save_state], in order. *)
Definition save_events (st : state) : list event :=
  let tmp := STATE_FILE +:+ ".tmp" in
  [EvMkdir (dirname STATE_FILE); EvOpen tmp "w"; EvDump tmp st; EvFlush tmp;
   EvFsync tmp; EvClose tmp; EvReplace tmp STATE_FILE].

Definition saved (st : state) (w : world) : world :=
  World (w_inputs w) (w_logs w) (w_out w)
    (<[STATE_FILE := JsonObject st]> (delete (STATE_FILE +:+ ".tmp") (w_state w)))
    (w_rename_ok w) (w_trace w ++ save_events st).

(** A piece of data that ends with exactly one line terminator. *)
Definition terminated (d : list N) : Prop :=
  ∃ body, d = body ++ [10%N] ∧ (10%N ∉ body).

Definition session (p : string) (start B : Z) (lines : list (list N)) : M ChunkWriter.t :=
  let* wr := init p start B in
  let* wr := write_all lines wr in
  close wr.

(** The directory after [_open_existing_or_new] on [name]. *)
Definition opened (name : string) (dir : gmap string (list (list N)))
    : gmap string (list (list N)) :=
  match dir !! name with
  | Some _ => dir
  | None => <[name := []]> dir
  end.

Definition astart (p : string) (start : Z) (dir : gmap string (list (list N))) : astate :=
  let name := Name.chunk_name p start in
  AState start (chunk_size (default [] (dir !! name))) (opened name dir) (opened name dir).

(** A chunk is larger than the bound only when it holds a piece of data
    that is larger than the bound by itself. *)
Definition bounded (B : Z) (dir : gmap string (list (list N))) : Prop :=
  ∀ name c, dir !! name = Some c → B < chunk_size c →
            ∃ d, d ∈ c ∧ B < data_len d.

(** The reading of the bound under which only the last-written chunk may
    exceed it. *)
Definition only_last_exceeds (B : Z) (wr : ChunkWriter.t) (w : world) : Prop :=
  ∀ name c, w_out w !! name = Some c → name ≠ current wr → chunk_size c ≤ B.

(** The writer is on an existing chunk whose size is its counter. *)
Definition a_ok (p : string) (a : astate) : Prop :=
  is_Some (a_dir a !! Name.chunk_name p (a_index a)) ∧
  a_bytes a = chunk_size (default [] (a_dir a !! Name.chunk_name p (a_index a))).

Definition empty_world : world := World [] ∅ ∅ ∅ true [].

(** A writer freshly opened on the first chunk of an empty directory. *)
Definition fresh_writer (B : Z) : ChunkWriter.t :=
  Make OUTPUT_PREFIX B 1 (Some (Handle "dshield-merged-00001.log" [])) 0.

Definition fresh_world : world :=
  World [] ∅ {["dshield-merged-00001.log" := []]} ∅ true [].

(** ["aaaaaaaa\n"] and ["b\n"] *)
Definition long_line : list N := [97; 97; 97; 97; 97; 97; 97; 97; 10]%N.
Definition short_line : list N := [98; 10]%N.

(** Every chunk of [dir] is a chunk of [dir0], or an empty file, followed by
    pieces that each end with exactly one line terminator. *)
Definition appended_lines (dir0 dir : gmap string (list (list N))) : Prop :=
  ∀ name c, dir !! name = Some c →
    ∃ old new, c = old ++ new ∧ (old = [] ∨ dir0 !! name = Some old) ∧
               Forall terminated new.




(** From the start index [idx0] on [dir0], the writer keeps the files of
    [dir0] and adds chunks of the indices from [idx0] to its own. *)
Definition dom_inv (p : string) (idx0 : Z) (dir0 : gmap string (list (list N)))
    (a : astate) : Prop :=
  idx0 ≤ a_index a ∧
  (∀ n, is_Some (dir0 !! n) → is_Some (a_dir a !! n)) ∧
  (∀ j, idx0 ≤ j ≤ a_index a → is_Some (a_dir a !! Name.chunk_name p j)) ∧
  (∀ n, is_Some (a_dir a !! n) →
        is_Some (dir0 !! n) ∨ ∃ j, idx0 ≤ j ≤ a_index a ∧ n = Name.chunk_name p j).

(** Two states of the writer that agree but for the files on disk. *)
Definition aeq (a a' : astate) : Prop :=
  a_index a = a_index a' ∧ a_bytes a = a_bytes a' ∧ a_dir a = a_dir a'.

(** A directory left by an earlier run: one chunk holding a line. *)
Definition resumed_world : world :=
  World [] ∅ {["dshield-merged-00001.log" := [[97; 10]%N]]} ∅ true [].

(** A directory with two chunks and a file of an unexpected name. *)
Definition stray_dir : gmap string (list (list N)) :=
  {[ "dshield-merged-00001.log" := [[97; 10]%N];
     "dshield-merged-00002.log" := [[98; 10]%N];
     "dshield-merged-old.log" := [[99; 10]%N] ]}.

(** Chunk 99999 is full (8 bytes under a bound of 8) and chunk 100000 holds
    a line. *)
Definition overflow_dir : gmap string (list (list N)) :=
  {[ "dshield-merged-99999.log" := [[97; 97; 97; 97; 97; 97; 97; 10]%N];
     "dshield-merged-100000.log" := [[120; 10]%N] ]}.

Definition overflow_world : world :=
  World ["/var/log/dshield.log.1.gz"]
    {["/var/log/dshield.log.1.gz" := InputFile 11 40 1000 [98; 10]%N None]}
    overflow_dir ∅ true [].

(** A log whose gzip stream is cut short, and one that reads well. *)
Definition truncated_world : world :=
  World ["/var/log/dshield.log.2.gz"; "/var/log/dshield.log.1.gz"]
    {[ "/var/log/dshield.log.2.gz" := InputFile 11 40 1000 [97; 10; 98]%N (Some EOFError);
       "/var/log/dshield.log.1.gz" := InputFile 12 40 1001 [99; 10]%N None ]}
    ∅ ∅ true [].

(** A state file that is not valid UTF-8, and one that cannot be opened. *)
Definition garbled_state_world : world :=
  World [] ∅ ∅ {[STATE_FILE := NotUtf8]} true [].

Definition unreadable_state_world : world :=
  World [] ∅ ∅ {[STATE_FILE := Unreadable]} true [].

(** The events that write the state document and put it in place. *)
Definition persist_event (e : event) : Prop :=
  match e with
  | EvDump _ _ | EvReplace _ _ => True
  | _ => False
  end.

Definition one_log_world : world :=
  World ["/var/log/dshield.log.1.gz"]
    {["/var/log/dshield.log.1.gz" := InputFile 11 40 1000 [97; 10]%N None]}
    ∅ ∅ true [].

(** The processed map and the watermark that the next run will load. *)
Definition stored_processed (w : world) : gmap string (gmap string Z) :=
  match w_state w !! STATE_FILE with
  | Some (JsonObject d) => default ∅ (processed d)
  | _ => ∅
  end.

Definition stored_watermark (w : world) : Z :=
  match w_state w !! STATE_FILE with
  | Some (JsonObject d) => default 0 (last_processed_mtime d)
  | _ => 0
  end.


(** A state file that is not JSON, beside an older backup. *)
Definition corrupt_state_world : world :=
  World [] ∅ ∅ {[STATE_FILE := NotJson; STATE_FILE +:+ ".bak" := JsonOther]} true [].

(** A state file holding JSON that is not an object. *)
Definition non_object_state_world : world :=
  World ["/var/log/dshield.log.1.gz"]
    {["/var/log/dshield.log.1.gz" := InputFile 11 40 1000 [97; 10]%N None]}
    ∅ {[STATE_FILE := JsonOther]} true [].

(** The chunks of the indices [i], ..., [j], one after the other. *)
Definition span (p : string) (dir : gmap string (list (list N))) (i j : Z)
    : list (list N) :=
  concat ((λ k, default [] (dir !! Name.chunk_name p k)) <$> seqZ i (j - i + 1)).

(** What a session keeps true of the chunks from [start] on, [pieces] being
    the content of the start chunk followed by the data written so far. *)
Record span_inv (p : string) (start : Z) (dir0 : gmap string (list (list N)))
    (a : astate) (pieces : list (list N)) : Prop := {
  si_index : start ≤ a_index a;
  si_span : span p (a_dir a) start (a_index a) = pieces;
  si_passed : ∀ k, start ≤ k < a_index a →
                   0 < chunk_size (default [] (a_dir a !! Name.chunk_name p k));
  si_others : ∀ n, (∀ k, start ≤ k ≤ a_index a → n ≠ Name.chunk_name p k) →
                   a_dir a !! n = dir0 !! n
}.

(** The signature of a rotated log, as [process] stores it. *)
Definition sig_of (f : input_file) : gmap string Z :=
  sig_entry (st_ino f) (st_size f) (st_mtime f).

(** The result of the loop over [inputs] against the locals before it. *)
Definition loop_summary (inputs : list string) (w : world) (l : locals)
    (r : result locals) : Prop :=
  match r with
  | Ok l' =>
      (∀ p, p ∉ inputs → l_processed l' !! p = l_processed l !! p) ∧
      (∀ p, l_processed l' !! p = l_processed l !! p ∨
            ∃ f, p ∈ inputs ∧ w_logs w !! p = Some f ∧ gz_error f = None ∧
                 l_processed l' !! p = Some (sig_of f)) ∧
      processed_count l ≤ processed_count l'
        ≤ processed_count l + Z.of_nat (length inputs) ∧
      last_mtime_seen l ≤ last_mtime_seen l' ∧
      (∀ p f, p ∈ inputs → w_logs w !! p = Some f → gz_error f = None →
              is_duplicate (l_processed l') p (st_ino f) (st_size f) (st_mtime f) = true ∧
              st_mtime f ≤ last_mtime_seen l')
  | Raise e =>
      ∃ p f, p ∈ inputs ∧ w_logs w !! p = Some f ∧
             gz_error f = Some e ∧ is_OSError e = false
  end.

(** A log recorded under its present signature, and one that is gone. *)
Definition seen_world : world :=
  World ["/var/log/dshield.log.2.gz"; "/var/log/dshield.log.1.gz"]
    {["/var/log/dshield.log.1.gz" := InputFile 11 40 1000 [97; 10]%N None]}
    {["dshield-merged-00001.log" := []]} ∅ true [].

(** The files on disk are those of [dir0] and chunks of the indices from
    [idx0] on. *)
Definition disk_inv (p : string) (idx0 : Z) (dir0 : gmap string (list (list N)))
    (a : astate) : Prop :=
  (∀ n, is_Some (dir0 !! n) → is_Some (a_disk a !! n)) ∧
  (∀ n, is_Some (a_disk a !! n) →
        is_Some (dir0 !! n) ∨ ∃ j, idx0 ≤ j ∧ n = Name.chunk_name p j).

(** Two results of the loop that differ at most in the watermark. *)
Definition same_but_watermark (r1 r2 : result locals) : Prop :=
  match r1, r2 with
  | Ok l1, Ok l2 =>
      l_processed l1 = l_processed l2 ∧ processed_count l1 = processed_count l2 ∧
      writer l1 = writer l2
  | Raise e1, Raise e2 => e1 = e2
  | _, _ => False
  end.

(** The entries of [/var/log] that the pattern matches. *)
Definition found (scan : string → list dir_entry) : list dir_entry :=
  filter (λ e, input_match (e_name e) = true) (scan "/var/log").

(** The nine names the pattern matches. *)
Definition input_names : list string :=
  (λ d, "dshield.log." +:+ String (Name.digit_char d) ".gz") <$> seqZ 1 9.

(** A listing with two rotated logs, the older one listed last, and files
    of other names. *)
Definition sample_scan (d : string) : list dir_entry :=
  [DirEntry "dshield.log.1.gz" (Some 2000); DirEntry "dshield.log" (Some 3000);
   DirEntry "dshield.log.10.gz" (Some 500); DirEntry "dshield.log.2.gz" (Some 1000)].

(** * Properties *)

(** ** Sizes *)

Lemma chunk_size_nil : chunk_size [] = 0.
Proof. reflexivity. Qed.

Lemma chunk_size_app c1 c2 : chunk_size (c1 ++ c2) = chunk_size c1 + chunk_size c2.
Proof. unfold chunk_size. rewrite concat_app, length_app. lia. Qed.

Lemma chunk_size_singleton d : chunk_size [d] = data_len d.
Proof. unfold chunk_size, data_len. simpl. by rewrite app_nil_r. Qed.

Lemma chunk_size_nonneg c : 0 ≤ chunk_size c.
Proof. unfold chunk_size. lia. Qed.

Lemma data_len_nonneg d : 0 ≤ data_len d.
Proof. unfold data_len. lia. Qed.

(** ** The writer on the logical content of the directory *)

Ltac munfold :=
  cbv beta iota delta
    [bind mbind M_bind mret M_ret emit modify gets raise try_except
     ensure_dir fh_open fh_flush os_fsync fh_close path_exists getsize].

Lemma init_eq p idx B w :
  let name := Name.chunk_name p idx in
  let dir := w_out w in
  init p idx B w =
    (Ok (Make p B idx (Some (Handle name [])) (chunk_size (default [] (dir !! name)))),
     set_out (λ _, match dir !! name with Some _ => dir | None => <[name := []]> dir end)
       (add_event (EvOpen (out_path name) (if dir !! name is Some _ then "ab" else "wb"))
          (add_event (EvMkdir OUTPUT_DIR) w))).
Proof.
  intros name dir. unfold init, _open_existing_or_new, _path. munfold. simpl.
  fold name. subst dir.
  destruct (w_out w !! name) as [c|] eqn:E; simpl.
  - rewrite !bool_decide_true by (rewrite ?E; eauto). simpl.
    rewrite ?E. simpl. rewrite ?bool_decide_true by (rewrite ?E; eauto). simpl.
    unfold set_out, add_event; simpl. by rewrite E.
  - rewrite lookup_insert_eq. rewrite bool_decide_true; [|eauto]. simpl.
    unfold set_out, add_event; simpl. by rewrite lookup_insert_eq.
Qed.

Lemma with_out_with_out w d1 e1 d2 e2 :
  with_out (with_out w d1 e1) d2 e2 = with_out w d2 (e1 ++ e2).
Proof. unfold with_out; simpl. by rewrite <- app_assoc. Qed.

Lemma with_out_id w : with_out w (w_out w) [] = w.
Proof. destruct w; unfold with_out; simpl. by rewrite app_nil_r. Qed.

Lemma init_with_out p idx B w :
  let name := Name.chunk_name p idx in
  let dir := w_out w in
  init p idx B w =
    (Ok (Make p B idx (Some (Handle name [])) (chunk_size (default [] (dir !! name)))),
     with_out w (match dir !! name with Some _ => dir | None => <[name := []]> dir end)
       [EvMkdir OUTPUT_DIR;
        EvOpen (out_path name) (if dir !! name is Some _ then "ab" else "wb")]).
Proof.
  intros name dir. rewrite init_eq. fold name dir. f_equal.
  unfold with_out, set_out, add_event; simpl. by rewrite <- app_assoc.
Qed.

Lemma rotate_with_out wr h w :
  fh wr = Some h →
  let flushed := <[h_name h := default [] (w_out w !! h_name h) ++ h_buf h]> (w_out w) in
  let new := _path wr (index wr + 1) in
  rotate wr w =
    (Ok (Make (prefix wr) (chunk_bytes wr) (index wr + 1) (Some (Handle new [])) 0),
     with_out w (<[new := []]> flushed)
       [EvFlush (out_path (h_name h)); EvFsync (out_path (h_name h));
        EvClose (out_path (h_name h)); EvOpen (out_path new) "wb"]).
Proof.
  intros Hfh flushed new. unfold rotate. rewrite Hfh. munfold. simpl.
  f_equal. unfold with_out, set_out, add_event; simpl.
  by rewrite <- !app_assoc.
Qed.

Lemma close_with_out wr h w :
  fh wr = Some h →
  close wr w =
    (Ok (Make (prefix wr) (chunk_bytes wr) (index wr) None (bytes_in_chunk wr)),
     with_out w (logical wr (w_out w))
       [EvFlush (out_path (h_name h)); EvFsync (out_path (h_name h));
        EvClose (out_path (h_name h))]).
Proof.
  intros Hfh. unfold close, logical. rewrite Hfh. munfold. simpl.
  f_equal. unfold with_out, set_out, add_event; simpl.
  by rewrite <- !app_assoc.
Qed.

Lemma write_data_with_out data wr h w :
  fh wr = Some h →
  write_data data wr w =
    if must_rotate (chunk_bytes wr) (bytes_in_chunk wr) data then
      let flushed := <[h_name h := default [] (w_out w !! h_name h) ++ h_buf h]> (w_out w) in
      let new := _path wr (index wr + 1) in
      (Ok (Make (prefix wr) (chunk_bytes wr) (index wr + 1)
             (Some (Handle new [data])) (0 + data_len data)),
       with_out w (<[new := []]> flushed)
         [EvFlush (out_path (h_name h)); EvFsync (out_path (h_name h));
          EvClose (out_path (h_name h)); EvOpen (out_path new) "wb"])
    else
      (Ok (Make (prefix wr) (chunk_bytes wr) (index wr)
             (Some (fh_write data h)) (bytes_in_chunk wr + data_len data)), w).
Proof.
  intros Hfh. unfold write_data, must_rotate.
  destruct ((chunk_bytes wr <? bytes_in_chunk wr + data_len data) && (0 <? bytes_in_chunk wr)).
  - unfold bind at 1. rewrite (rotate_with_out _ _ _ Hfh). simpl. done.
  - unfold bind, mret, M_ret. simpl. rewrite Hfh. done.
Qed.

(** *** The writer as a function on the logical directory *)

Lemma wf_with_out_id wr w : wf wr w → wf wr (with_out w (w_out w) []).
Proof. by rewrite with_out_id. Qed.

Lemma init_wf p idx B w :
  ∃ wr dir evs,
    init p idx B w = (Ok wr, with_out w dir evs) ∧
    wf wr (with_out w dir evs) ∧ buffered wr = 0 ∧
    prefix wr = p ∧ chunk_bytes wr = B ∧ index wr = idx ∧
    dir = (match w_out w !! Name.chunk_name p idx with
           | Some _ => w_out w
           | None => <[Name.chunk_name p idx := []]> (w_out w)
           end) ∧
    logical wr dir = dir ∧
    Forall writer_event evs.
Proof.
  rewrite init_with_out. eexists _, _, _. split; [reflexivity|].
  set (name := Name.chunk_name p idx).
  assert (Hex : is_Some ((match w_out w !! name with
                          | Some _ => w_out w
                          | None => <[name := []]> (w_out w)
                          end) !! name)).
  { destruct (w_out w !! name) eqn:E; [by rewrite E|]. rewrite lookup_insert_eq. eauto. }
  assert (Hsz : default [] ((match w_out w !! name with
                          | Some _ => w_out w
                          | None => <[name := []]> (w_out w)
                          end) !! name) = default [] (w_out w !! name)).
  { destruct (w_out w !! name) eqn:E; [by rewrite E|]. by rewrite lookup_insert_eq. }
  repeat split; simpl; try done.
  - eexists. reflexivity.
  - unfold on_disk_size, buffered, current, _path; simpl. fold name.
    rewrite Hsz. rewrite chunk_size_nil. lia.
  - unfold logical; simpl. rewrite app_nil_r.
    destruct Hex as [c Hc]. rewrite Hc. simpl. by apply insert_id.
  - repeat constructor; simpl; eauto.
Qed.

Lemma write_data_wf data wr w :
  wf wr w →
  ∃ wr' dir evs,
    write_data data wr w = (Ok wr', with_out w dir evs) ∧
    wf wr' (with_out w dir evs) ∧
    prefix wr' = prefix wr ∧ chunk_bytes wr' = chunk_bytes wr ∧
    abstract wr' (with_out w dir evs)
      = awrite (prefix wr) (chunk_bytes wr) (abstract wr w) data ∧
    (must_rotate (chunk_bytes wr) (bytes_in_chunk wr) data = true →
       buffered wr' = data_len data ∧ on_disk_size wr' (with_out w dir evs) = 0) ∧
    Forall writer_event evs.
Proof.
  intros [[buf Hfh] [c Hc] Hcount].
  rewrite (write_data_with_out _ _ _ _ Hfh). unfold awrite. simpl.
  destruct (must_rotate (chunk_bytes wr) (bytes_in_chunk wr) data) eqn:Hrot.
  - eexists _, _, _. split; [reflexivity|].
    set (new := _path wr (index wr + 1)).
    assert (Hcur : current (Make (prefix wr) (chunk_bytes wr) (index wr + 1)
                     (Some (Handle new [data])) (0 + data_len data)) = new) by done.
    split_and!; simpl; try done.
    + split.
      * rewrite Hcur. eexists. reflexivity.
      * rewrite Hcur. simpl. rewrite lookup_insert_eq. eauto.
      * unfold on_disk_size, buffered. rewrite Hcur. simpl.
        rewrite lookup_insert_eq. simpl. rewrite chunk_size_singleton, chunk_size_nil. lia.
    + unfold abstract, logical; simpl. rewrite Hfh; simpl.
      rewrite lookup_insert_eq. simpl. rewrite insert_insert_eq.
      f_equal.
    + intros _. split.
      * unfold buffered; simpl. by rewrite chunk_size_singleton.
      * unfold on_disk_size. rewrite Hcur. simpl. by rewrite lookup_insert_eq.
    + repeat constructor; simpl; eauto.
  - exists (Make (prefix wr) (chunk_bytes wr) (index wr)
              (Some (fh_write data (Handle (current wr) buf)))
              (bytes_in_chunk wr + data_len data)), (w_out w), [].
    rewrite with_out_id.
    assert (Hcur : current (Make (prefix wr) (chunk_bytes wr) (index wr)
              (Some (fh_write data (Handle (current wr) buf)))
              (bytes_in_chunk wr + data_len data)) = current wr) by done.
    split_and!; simpl; try done.
    + split.
      * rewrite Hcur. eexists. reflexivity.
      * rewrite Hcur. eauto.
      * revert Hcount. unfold on_disk_size, buffered. rewrite Hcur, Hfh. simpl.
        rewrite chunk_size_app, chunk_size_singleton. lia.
    + unfold abstract, logical; simpl. rewrite Hfh; simpl.
      fold (_path wr (index wr)). fold (current wr).
      rewrite lookup_insert_eq. simpl. rewrite insert_insert_eq.
      by rewrite <- app_assoc.
Qed.

Lemma write_all_wf lines wr w :
  wf wr w →
  ∃ wr' dir evs,
    write_all lines wr w = (Ok wr', with_out w dir evs) ∧
    wf wr' (with_out w dir evs) ∧
    prefix wr' = prefix wr ∧ chunk_bytes wr' = chunk_bytes wr ∧
    abstract wr' (with_out w dir evs)
      = foldl (awrite (prefix wr) (chunk_bytes wr)) (abstract wr w) (Text.encode <$> lines) ∧
    Forall writer_event evs.
Proof.
  revert wr w. induction lines as [|line lines IH]; intros wr w Hwf.
  - exists wr, (w_out w), []. rewrite with_out_id. simpl. by split_and!.
  - destruct (write_data_wf (Text.encode line) wr w Hwf)
      as (wr1 & dir1 & evs1 & Hrun1 & Hwf1 & Hp1 & HB1 & Habs1 & _ & Hevs1).
    destruct (IH wr1 _ Hwf1) as (wr2 & dir2 & evs2 & Hrun2 & Hwf2 & Hp2 & HB2 & Habs2 & Hevs2).
    exists wr2, dir2, (evs1 ++ evs2).
    rewrite with_out_with_out in Hrun2, Hwf2, Habs2.
    split_and!; try congruence.
    + simpl. unfold bind, write_line. rewrite Hrun1. exact Hrun2.
    + rewrite Habs2. simpl. rewrite Hp1, HB1, Habs1. done.
    + by apply Forall_app.
Qed.

Lemma write_lines_write_all lines wr w :
  write_lines lines wr w = write_all (Text.normalize <$> lines) wr w.
Proof.
  revert wr w. induction lines as [|line lines IH]; intros wr w; simpl; [done|].
  unfold bind. destruct (write_line (Text.normalize line) wr w) as [[wr'|e] w']; [|done].
  apply IH.
Qed.

Lemma close_wf wr w :
  wf wr w →
  ∃ wr' evs,
    close wr w = (Ok wr', with_out w (logical wr (w_out w)) evs) ∧
    is_Some (logical wr (w_out w) !! current wr) ∧
    bytes_in_chunk wr = chunk_size (default [] (logical wr (w_out w) !! current wr)) ∧
    Forall writer_event evs.
Proof.
  intros [[buf Hfh] [c Hc] Hcount].
  rewrite (close_with_out _ _ _ Hfh). eexists _, _. split; [reflexivity|].
  revert Hcount. unfold logical, on_disk_size, buffered. rewrite Hfh. simpl.
  rewrite lookup_insert_eq, Hc. simpl. rewrite chunk_size_app. intros Hcount.
  split_and!; eauto. repeat constructor; simpl; eauto.
Qed.

Lemma rotate_wf wr w :
  wf wr w →
  ∃ wr' dir evs,
    rotate wr w = (Ok wr', with_out w dir evs) ∧
    wf wr' (with_out w dir evs) ∧
    index wr' = index wr + 1 ∧
    bytes_in_chunk wr' = 0 ∧ buffered wr' = 0 ∧
    dir = <[current wr' := []]> (logical wr (w_out w)) ∧
    evs = [EvFlush (out_path (current wr)); EvFsync (out_path (current wr));
           EvClose (out_path (current wr)); EvOpen (out_path (current wr')) "wb"].
Proof.
  intros [[buf Hfh] [c Hc] Hcount].
  rewrite (rotate_with_out _ _ _ Hfh). eexists _, _, _. split; [reflexivity|].
  set (new := _path wr (index wr + 1)).
  assert (Hcur : current (Make (prefix wr) (chunk_bytes wr) (index wr + 1)
                   (Some (Handle new [])) 0) = new) by done.
  split_and!; simpl; try done.
  - split.
    + rewrite Hcur. eexists. reflexivity.
    + rewrite Hcur. simpl. rewrite lookup_insert_eq. eauto.
    + unfold on_disk_size, buffered. rewrite Hcur. simpl.
      by rewrite lookup_insert_eq.
  - rewrite Hcur. unfold logical. by rewrite Hfh.
Qed.

Lemma wf_out_eq wr w w' : w_out w = w_out w' → wf wr w → wf wr w'.
Proof.
  intros Hout [H1 H2 H3]. split; [done|by rewrite <- Hout|].
  unfold on_disk_size in *. by rewrite <- Hout.
Qed.

Lemma abstract_out_eq wr w w' : w_out w = w_out w' → abstract wr w = abstract wr w'.
Proof. unfold abstract. by intros ->. Qed.

(** ** File names: formatting, parsing and order *)

Module NameFacts.

Import Name.

Local Arguments String.append : simpl nomatch.

Lemma append_assoc (a b c : string) : (a +:+ b) +:+ c = a +:+ (b +:+ c).
Proof. induction a; simpl; congruence. Qed.

Lemma append_nil_r (a : string) : a +:+ "" = a.
Proof. induction a; simpl; congruence. Qed.

Lemma length_append (a b : string) :
  String.length (a +:+ b) = (String.length a + String.length b)%nat.
Proof. induction a; simpl; congruence. Qed.

Lemma prefix_append (p r : string) : String.prefix p (p +:+ r) = true.
Proof.
  induction p as [|c p IH]; simpl; [by destruct r|].
  destruct (ascii_dec c c); [done|congruence].
Qed.

Lemma drop_append (p r : string) : drop (String.length p) (p +:+ r) = r.
Proof. induction p; simpl; [by destruct r|done]. Qed.

Lemma rev_app_append (s t u : string) :
  String.rev_app (s +:+ t) u = String.rev_app t (String.rev_app s u).
Proof. revert u. induction s; intros u; simpl; auto. Qed.

Lemma rev_app_rev (s u : string) : String.rev_app s u = String.rev s +:+ u.
Proof.
  unfold String.rev. revert u. induction s as [|c s IH]; intros u; simpl; [done|].
  rewrite IH, (IH (String c "")). by rewrite append_assoc.
Qed.

Lemma rev_append (s t : string) : String.rev (s +:+ t) = String.rev t +:+ String.rev s.
Proof. unfold String.rev at 1. by rewrite rev_app_append, rev_app_rev. Qed.

Lemma rev_app_involutive (s t : string) :
  String.rev_app (String.rev_app s t) "" = String.rev_app t s.
Proof. revert t. induction s as [|c s IH]; intros t; simpl; [done|]. by rewrite IH. Qed.

Lemma rev_involutive (s : string) : String.rev (String.rev s) = s.
Proof. unfold String.rev. by rewrite rev_app_involutive. Qed.

Lemma endswith_append (x suffix : string) : endswith suffix (x +:+ suffix) = true.
Proof. unfold endswith. rewrite rev_append. apply prefix_append. Qed.

Lemma glob_match_chunk_name (p : string) (i : Z) :
  glob_match p (chunk_name p i) = true.
Proof.
  unfold glob_match, chunk_name.
  rewrite prefix_append, drop_append. simpl. apply endswith_append.
Qed.

(** *** Digit strings and their value *)

Lemma is_digit_val c : is_digit c = true → 0 ≤ digit_val c ≤ 9.
Proof.
  unfold is_digit, digit_val. intros [H1 H2]%andb_prop.
  apply N.leb_le in H1, H2. lia.
Qed.

Lemma val_bounds s : all_digits s = true → 0 ≤ val s < 10 ^ Z.of_nat (String.length s).
Proof.
  induction s as [|c s IH]; simpl; [lia|].
  intros [Hc Hs]%andb_prop. specialize (IH Hs). apply is_digit_val in Hc.
  rewrite Nat2Z.inj_succ, Z.pow_succ_r by lia. nia.
Qed.

Lemma all_digits_append a b :
  all_digits (a +:+ b) = all_digits a && all_digits b.
Proof. induction a; simpl; [done|]. rewrite IHa. by rewrite andb_assoc. Qed.

Lemma val_append a b :
  val (a +:+ b) = val a * 10 ^ Z.of_nat (String.length b) + val b.
Proof.
  induction a as [|c a IH]; simpl; [lia|].
  rewrite IH, length_append, Nat2Z.inj_add, Z.pow_add_r by lia. ring.
Qed.

Lemma int_digits_val s acc b :
  all_digits s = true → s ≠ "" ∨ b = true →
  int_digits s acc b = Some (acc * 10 ^ Z.of_nat (String.length s) + val s).
Proof.
  revert acc b. induction s as [|c s IH]; intros acc b Hd Hne; simpl.
  - destruct Hne as [?| ->]; [done|]. f_equal. lia.
  - simpl in Hd. apply andb_prop in Hd as [Hc Hs]. rewrite Hc.
    rewrite IH by auto. f_equal.
    rewrite Nat2Z.inj_succ, Z.pow_succ_r by lia. ring.
Qed.

(** *** Decimal formatting *)

Lemma digit_char_ok d :
  0 ≤ d ≤ 9 → is_digit (digit_char d) = true ∧ digit_val (digit_char d) = d.
Proof.
  intros Hd.
  assert (Hcases : d = 0 ∨ d = 1 ∨ d = 2 ∨ d = 3 ∨ d = 4 ∨ d = 5 ∨ d = 6 ∨ d = 7
                   ∨ d = 8 ∨ d = 9) by lia.
  destruct Hcases as [->|[->|[->|[->|[->|[->|[->|[->|[->| ->]]]]]]]]]; by compute.
Qed.

Lemma dec_go_acc fuel n acc : dec_go fuel n acc = dec_go fuel n "" +:+ acc.
Proof.
  revert n acc. induction fuel as [|fuel IH]; intros n acc; simpl; [done|].
  destruct (n / 10 =? 0); [done|].
  rewrite IH, (IH _ (String _ "")). by rewrite append_assoc.
Qed.

Lemma dec_go_spec fuel n :
  0 ≤ n < 2 ^ Z.of_nat fuel → (0 < fuel)%nat →
  let s := dec_go fuel n "" in
  all_digits s = true ∧ val s = n ∧ (0 < String.length s)%nat.
Proof.
  revert n. induction fuel as [|fuel IH]; intros n Hn Hfuel; [lia|].
  cbn [dec_go]. cbv zeta.
  assert (Hmod : 0 ≤ n mod 10 ≤ 9) by (pose proof (Z.mod_pos_bound n 10); lia).
  destruct (digit_char_ok _ Hmod) as [Hdig Hval].
  destruct (n / 10 =? 0) eqn:Hq.
  - apply Z.eqb_eq in Hq. simpl. rewrite Hdig, Hval.
    split_and!; [done| |lia].
    pose proof (Z.div_mod n 10). lia.
  - apply Z.eqb_neq in Hq.
    assert (Hdiv : 0 ≤ n / 10 < 2 ^ Z.of_nat fuel).
    { rewrite Nat2Z.inj_succ, Z.pow_succ_r in Hn by lia.
      split; [apply Z.div_pos; lia|].
      apply Z.div_lt_upper_bound; lia. }
    assert (Hfuel' : (0 < fuel)%nat).
    { destruct fuel; [|lia]. simpl in Hdiv. lia. }
    destruct (IH _ Hdiv Hfuel') as (IH1 & IH2 & IH3).
    rewrite dec_go_acc.
    rewrite all_digits_append, val_append, length_append. simpl.
    rewrite IH1, IH2, Hdig, Hval.
    split_and!; [done| |lia].
    pose proof (Z.div_mod n 10). lia.
Qed.

Lemma dec_go_length fuel n k :
  0 ≤ n < 10 ^ Z.of_nat k → (0 < k)%nat →
  (String.length (dec_go fuel n "") ≤ k)%nat.
Proof.
  revert n k. induction fuel as [|fuel IH]; intros n k Hn Hk; simpl; [lia|].
  destruct (n / 10 =? 0) eqn:Hq; simpl; [lia|].
  apply Z.eqb_neq in Hq.
  rewrite dec_go_acc, length_append. simpl.
  destruct k as [|k]; [lia|].
  rewrite Nat2Z.inj_succ, Z.pow_succ_r in Hn by lia.
  assert (Hdiv : 0 ≤ n / 10 < 10 ^ Z.of_nat k).
  { split; [apply Z.div_pos; lia|]. apply Z.div_lt_upper_bound; lia. }
  assert (0 < k)%nat.
  { destruct k; [|lia]. simpl in Hdiv. lia. }
  specialize (IH _ _ Hdiv). lia.
Qed.

Lemma dec_spec n :
  0 ≤ n →
  all_digits (dec n) = true ∧ val (dec n) = n ∧ (0 < String.length (dec n))%nat.
Proof.
  intros Hn. apply dec_go_spec; [|lia]. split; [done|].
  rewrite Nat2Z.inj_succ, Z2Nat.id by apply Z.log2_nonneg.
  destruct (decide (n = 0)) as [->|]; [done|].
  apply Z.log2_spec. lia.
Qed.

Lemma all_digits_zeros k : all_digits (zeros k) = true.
Proof. induction k; simpl; auto. Qed.

Lemma val_zeros k : val (zeros k) = 0.
Proof. induction k; simpl; [done|]. rewrite IHk. done. Qed.

Lemma length_zeros k : String.length (zeros k) = k.
Proof. induction k; simpl; auto. Qed.

Lemma fmt_05d_spec i :
  0 ≤ i →
  all_digits (fmt_05d i) = true ∧ val (fmt_05d i) = i ∧
  (0 < String.length (fmt_05d i))%nat ∧
  (i < 100000 → String.length (fmt_05d i) = 5%nat).
Proof.
  intros Hi. unfold fmt_05d. rewrite (proj2 (Z.ltb_ge i 0)) by done.
  destruct (dec_spec i Hi) as (Hd & Hv & Hl). unfold zfill.
  rewrite all_digits_append, val_append, length_append, all_digits_zeros, val_zeros,
    length_zeros, Hd, Hv.
  split_and!; [done|lia|lia|].
  intros Hlt.
  assert ((String.length (dec i) ≤ 5)%nat); [|lia].
  apply dec_go_length; [|lia]. simpl. lia.
Qed.

(** *** Lexical order of the names *)

Lemma ascii_compare_refl c : Ascii.compare c c = Eq.
Proof. unfold Ascii.compare. apply N.compare_refl. Qed.

Lemma compare_append_l p x y :
  String.compare (p +:+ x) (p +:+ y) = String.compare x y.
Proof. induction p as [|c p IH]; simpl; [done|]. by rewrite ascii_compare_refl. Qed.

Lemma compare_refl s : String.compare s s = Eq.
Proof. induction s as [|c s IH]; simpl; [done|]. by rewrite ascii_compare_refl. Qed.

Lemma compare_append_r a b t :
  String.length a = String.length b →
  String.compare (a +:+ t) (b +:+ t) = String.compare a b.
Proof.
  revert b. induction a as [|c a IH]; intros [|d b] Hlen; simpl in *; try done.
  - apply compare_refl.
  - destruct (Ascii.compare c d); [|done..]. apply IH. congruence.
Qed.

Lemma digit_compare c d :
  Ascii.compare c d = (digit_val c ?= digit_val d).
Proof.
  unfold Ascii.compare, digit_val. rewrite <- N2Z.inj_compare.
  destruct (Z.compare_spec (Z.of_N (N_of_ascii c)) (Z.of_N (N_of_ascii d)));
    symmetry; [apply Z.compare_eq_iff|apply Z.compare_lt_iff|apply Z.compare_gt_iff]; lia.
Qed.

Lemma digits_compare a b :
  String.length a = String.length b →
  all_digits a = true → all_digits b = true →
  String.compare a b = (val a ?= val b).
Proof.
  revert b. induction a as [|c a IH]; intros [|d b] Hlen Ha Hb; simpl in *; try done.
  apply andb_prop in Ha as [_ Ha]. apply andb_prop in Hb as [_ Hb].
  injection Hlen as Hlen.
  pose proof (val_bounds a Ha) as Hva. pose proof (val_bounds b Hb) as Hvb.
  rewrite digit_compare, IH by done. rewrite Hlen in *.
  set (P := 10 ^ Z.of_nat (String.length b)) in *.
  destruct (Z.compare_spec (digit_val c) (digit_val d)) as [Heq|Hlt|Hgt].
  - rewrite Heq. destruct (Z.compare_spec (val a) (val b));
      symmetry; [apply Z.compare_eq_iff|apply Z.compare_lt_iff|apply Z.compare_gt_iff]; lia.
  - symmetry. apply Z.compare_lt_iff. nia.
  - symmetry. apply Z.compare_gt_iff. nia.
Qed.

Lemma chunk_name_compare p i j :
  0 ≤ i < 100000 → 0 ≤ j < 100000 →
  String.compare (chunk_name p i) (chunk_name p j) = (i ?= j).
Proof.
  intros Hi Hj. unfold chunk_name.
  destruct (fmt_05d_spec i) as (Hdi & Hvi & _ & Hli); [lia|].
  destruct (fmt_05d_spec j) as (Hdj & Hvj & _ & Hlj); [lia|].
  rewrite compare_append_l, compare_append_r by (rewrite Hli, Hlj; [done|lia..]).
  rewrite digits_compare by (rewrite ?Hli, ?Hlj; [done|lia..]).
  by rewrite Hvi, Hvj.
Qed.

Lemma chunk_name_le p i j :
  0 ≤ i < 100000 → 0 ≤ j < 100000 →
  String.le (chunk_name p i) (chunk_name p j) ↔ i ≤ j.
Proof.
  intros Hi Hj. unfold String.le, String.leb.
  rewrite chunk_name_compare by done.
  destruct (Z.compare_spec i j); simpl; split; intros; try done; lia.
Qed.

(** *** Parsing the index back *)

Lemma find_sub_unfold sep s :
  find_sub sep s =
    if String.prefix sep s then Some ("", drop (String.length sep) s)
    else match s with
         | "" => None
         | String c s' =>
             match find_sub sep s' with
             | Some (b, a) => Some (String c b, a)
             | None => None
             end
         end.
Proof. by destruct s. Qed.

Lemma split1_prefix p rest : split1 p (p +:+ rest) = [""; rest].
Proof.
  unfold split1. rewrite find_sub_unfold, prefix_append, drop_append. done.
Qed.

Lemma find_sub_digits d :
  all_digits d = true → find_sub ".log" (d +:+ ".log") = Some (d, "").
Proof.
  induction d as [|c d IH]; intros Hd; [done|].
  simpl in Hd. apply andb_prop in Hd as [Hc Hd].
  rewrite find_sub_unfold. simpl String.append.
  assert (Hpre : String.prefix ".log" (String c (d +:+ ".log")) = false).
  { change (String.prefix ".log" (String c (d +:+ ".log")))
      with (if ascii_dec "." c then String.prefix "log" (d +:+ ".log") else false).
    destruct (ascii_dec "." c) as [<-|]; [|done]. by compute in Hc. }
  rewrite Hpre, IH by done. done.
Qed.

Lemma all_digits_rev_app s t :
  all_digits (String.rev_app s t) = all_digits s && all_digits t.
Proof.
  revert t. induction s as [|c s IH]; intros t; simpl; [done|].
  rewrite IH. simpl. destruct (is_digit c), (all_digits s); done.
Qed.

Lemma lstrip_digits s : all_digits s = true → lstrip s = s.
Proof.
  destruct s as [|c s]; simpl; [done|]. intros [Hc _]%andb_prop.
  assert (is_space c = false) as ->; [|done].
  unfold is_digit in Hc. unfold is_space.
  apply andb_prop in Hc as [H1 H2]. apply N.leb_le in H1, H2.
  apply orb_false_intro; [|apply N.eqb_neq; lia].
  apply andb_false_intro2, N.leb_gt. lia.
Qed.

Lemma py_int_digits s :
  all_digits s = true → (0 < String.length s)%nat → py_int s = Some (val s).
Proof.
  intros Hd Hlen. unfold py_int, strip.
  rewrite (lstrip_digits s Hd).
  rewrite lstrip_digits by (unfold String.rev; by rewrite all_digits_rev_app, Hd).
  rewrite rev_involutive.
  destruct s as [|c s]; [simpl in Hlen; lia|].
  pose proof Hd as Hd'. simpl in Hd'. apply andb_prop in Hd' as [Hc _].
  assert (Ascii.eqb c "-" = false) as ->.
  { apply Ascii.eqb_neq. intros ->. by compute in Hc. }
  assert (Ascii.eqb c "+" = false) as ->.
  { apply Ascii.eqb_neq. intros ->. by compute in Hc. }
  rewrite int_digits_val by auto. by f_equal.
Qed.

Lemma py_int_fmt_05d i : 0 ≤ i → py_int (fmt_05d i) = Some i.
Proof.
  intros Hi. destruct (fmt_05d_spec i Hi) as (Hd & Hv & Hl & _).
  by rewrite py_int_digits, Hv.
Qed.

End NameFacts.

(** ** The starting index *)

Section index_of_dir.

Import Name NameFacts.
Implicit Types dir : gmap string (list (list N)).

Lemma parse_index_chunk_name i :
  0 ≤ i → parse_index (chunk_name OUTPUT_PREFIX i) = Some (Z.max 1 i).
Proof.
  intros Hi. unfold parse_index, chunk_name.
  rewrite split1_prefix. simpl.
  destruct (fmt_05d_spec i Hi) as (Hd & _).
  unfold split1. rewrite find_sub_digits by done. simpl.
  by rewrite py_int_fmt_05d.
Qed.

Lemma elem_of_existing_chunks dir n :
  n ∈ existing_chunks dir ↔ is_chunk dir n.
Proof.
  unfold existing_chunks, is_chunk.
  rewrite merge_sort_Permutation, list_elem_of_filter, elem_of_elements, elem_of_dom.
  tauto.
Qed.

Lemma last_sorted_max (l : list string) m :
  last (merge_sort String.le l) = Some m →
  m ∈ l ∧ ∀ x, x ∈ l → String.le x m.
Proof.
  intros Hlast.
  pose proof (StronglySorted_merge_sort String.le l) as Hs.
  pose proof (merge_sort_Permutation String.le l) as Hp.
  apply last_Some in Hlast as [l' Hl']. rewrite Hl' in Hs, Hp.
  split.
  - rewrite <- Hp. set_solver.
  - intros x Hx. rewrite <- Hp in Hx.
    apply elem_of_app in Hx as [Hx|Hx%list_elem_of_singleton]; [|by subst].
    clear -Hs Hx. induction l' as [|y l' IH]; [set_solver|].
    simpl in Hs. apply StronglySorted_inv in Hs as [Hs Hall].
    apply elem_of_cons in Hx as [->|Hx]; [|by apply IH].
    rewrite Forall_forall in Hall. apply Hall. set_solver.
Qed.

Lemma index_of_dir_cases dir :
  ((∀ n, ¬ is_chunk dir n) ∧ index_of_dir dir = 1) ∨
  (∃ m, is_chunk dir m ∧ (∀ n, is_chunk dir n → String.le n m) ∧
        index_of_dir dir = default 1 (parse_index m)).
Proof.
  unfold index_of_dir.
  destruct (last (existing_chunks dir)) as [m|] eqn:Hlast.
  - right. exists m. apply last_sorted_max in Hlast as [Hin Hmax].
    split_and!.
    + apply elem_of_existing_chunks. unfold existing_chunks.
      by rewrite merge_sort_Permutation.
    + intros n Hn. apply Hmax.
      apply elem_of_existing_chunks in Hn. unfold existing_chunks in Hn.
      by rewrite merge_sort_Permutation in Hn.
    + by destruct (parse_index m).
  - left. apply last_None in Hlast. split; [|done].
    intros n Hn%elem_of_existing_chunks. rewrite Hlast in Hn. set_solver.
Qed.

Lemma index_of_dir_pos dir : 1 ≤ index_of_dir dir.
Proof.
  unfold index_of_dir. destruct (last _) as [m|]; [|lia].
  unfold parse_index.
  destruct (split1 OUTPUT_PREFIX m !! 1%nat); simpl; [|lia].
  destruct (split1 ".log" _ !! 0%nat); simpl; [|lia].
  destruct (py_int _); simpl; lia.
Qed.

Lemma index_of_dir_highest dir :
  five_digit_names dir →
  (∃ n, is_chunk dir n) →
  is_Some (dir !! chunk_name OUTPUT_PREFIX (index_of_dir dir)) ∧
  1 ≤ index_of_dir dir ≤ 99999 ∧
  ∀ i, 1 ≤ i ≤ 99999 → is_Some (dir !! chunk_name OUTPUT_PREFIX i) →
       i ≤ index_of_dir dir.
Proof.
  intros Hwf [n0 Hn0].
  destruct (index_of_dir_cases dir) as [[Hnone _]|(m & Hm & Hmax & ->)].
  { by destruct (Hnone n0). }
  destruct (Hwf m Hm) as (k & Hk & ->).
  rewrite parse_index_chunk_name by lia. simpl.
  replace (Z.max 1 k) with k by lia.
  split_and!; [apply Hm|lia..|].
  intros i Hi Hex.
  assert (Hle : String.le (chunk_name OUTPUT_PREFIX i) (chunk_name OUTPUT_PREFIX k)).
  { apply Hmax. split; [done|]. apply glob_match_chunk_name. }
  apply chunk_name_le in Hle; lia.
Qed.

Lemma index_of_dir_empty dir :
  (∀ n, ¬ is_chunk dir n) → index_of_dir dir = 1.
Proof.
  intros Hnone. destruct (index_of_dir_cases dir) as [[_ ?]|(m & Hm & _)]; [done|].
  by destruct (Hnone m).
Qed.

End index_of_dir.

(** ** The loop over the inputs *)

Lemma writer_loop_event e : writer_event e → loop_event e.
Proof. by destruct e as [| | | | | | | |[]|]. Qed.

Lemma try_signature_eq path w :
  try_signature path w =
    (Ok ((λ f, (st_ino f, st_size f, st_mtime f)) <$> w_logs w !! path), w).
Proof.
  unfold try_signature, try_except, bind, file_signature.
  by destruct (w_logs w !! path).
Qed.

Lemma write_lines_wf lines wr w :
  wf wr w →
  ∃ wr' dir evs,
    write_lines lines wr w = (Ok wr', with_out w dir evs) ∧
    wf wr' (with_out w dir evs) ∧
    prefix wr' = prefix wr ∧ chunk_bytes wr' = chunk_bytes wr ∧
    abstract wr' (with_out w dir evs)
      = foldl (awrite (prefix wr) (chunk_bytes wr)) (abstract wr w)
          (Text.encode <$> (Text.normalize <$> lines)) ∧
    Forall writer_event evs.
Proof. intros Hwf. rewrite write_lines_write_all. by apply write_all_wf. Qed.

Lemma process_one_spec path l w :
  wf (writer l) w →
  ∃ r wr' datas dir evs,
    process_one path l w = (r, with_out w dir evs) ∧
    iteration path l w r wr' datas evs ∧
    wf wr' (with_out w dir evs) ∧
    prefix wr' = prefix (writer l) ∧ chunk_bytes wr' = chunk_bytes (writer l) ∧
    abstract wr' (with_out w dir evs)
      = foldl (awrite (prefix (writer l)) (chunk_bytes (writer l)))
          (abstract (writer l) w) datas ∧
    Forall loop_event evs.
Proof.
  intros Hwf. unfold process_one, bind at 1. rewrite try_signature_eq.
  destruct (w_logs w !! path) as [f|] eqn:Hf; simpl.
  2:{ exists (Ok l), (writer l), [], (w_out w), []. rewrite with_out_id.
      split_and!; try done. by constructor. }
  destruct (is_duplicate _ _ _ _ _) eqn:Hdup.
  { eexists (Ok _), (writer l), [], (w_out w), []. rewrite with_out_id.
    split_and!; try done. by econstructor. }
  destruct (write_lines_wf (gz_lines f) _ _ Hwf)
    as (wr' & dir & evs & Hrun & Hwf' & Hp & HB & Habs & Hevs).
  unfold bind, read_and_append. rewrite Hf, Hrun.
  destruct (gz_error f) as [e|] eqn:Herr.
  - destruct (is_OSError e) eqn:Hos.
    + eexists (Ok _), wr', (input_data f), dir, (evs ++ [EvWarn path e]).
      split_and!; try done.
      * unfold mbind, M_bind, bind, emit, modify, mret, M_ret. simpl.
        f_equal. unfold with_out, add_event; simpl. by rewrite app_assoc.
      * by econstructor.
      * by eapply wf_out_eq, Hwf'.
      * apply Forall_app. split; [|by repeat constructor].
        eapply Forall_impl; [done|]. apply writer_loop_event.
    + eexists (Raise e), wr', (input_data f), dir, evs.
      split_and!; try done.
      * by econstructor.
      * eapply Forall_impl; [done|]. apply writer_loop_event.
  - eexists (Ok _), wr', (input_data f), dir, (evs ++ [EvPrint (MsgMerged path)]).
    split_and!; try done.
    + unfold mbind, M_bind, bind, emit, modify, mret, M_ret. simpl.
      f_equal. unfold with_out, add_event; simpl. by rewrite app_assoc.
    + by econstructor.
    + by eapply wf_out_eq, Hwf'.
    + apply Forall_app. split; [|by repeat constructor].
      eapply Forall_impl; [done|]. apply writer_loop_event.
Qed.

Lemma iteration_data path l w r wr' datas evs :
  iteration path l w r wr' datas evs → Forall (is_input_data w) datas.
Proof.
  destruct 1; try by constructor.
  all: apply Forall_forall; intros d Hd; by exists path, f.
Qed.

Lemma iteration_writer path l w l' wr' datas evs :
  iteration path l w (Ok l') wr' datas evs → writer l' = wr'.
Proof. by inversion 1. Qed.

Lemma process_inputs_spec inputs l w :
  wf (writer l) w →
  ∃ r wr' datas dir evs,
    process_inputs inputs l w = (r, with_out w dir evs) ∧
    wf wr' (with_out w dir evs) ∧
    prefix wr' = prefix (writer l) ∧ chunk_bytes wr' = chunk_bytes (writer l) ∧
    abstract wr' (with_out w dir evs)
      = foldl (awrite (prefix (writer l)) (chunk_bytes (writer l)))
          (abstract (writer l) w) datas ∧
    Forall (is_input_data w) datas ∧
    Forall loop_event evs ∧
    (∀ l', r = Ok l' → writer l' = wr').
Proof.
  revert l w. induction inputs as [|path inputs IH]; intros l w Hwf.
  { exists (Ok l), (writer l), [], (w_out w), []. rewrite with_out_id.
    split_and!; try done. by intros l' [= <-]. }
  destruct (process_one_spec path l w Hwf)
    as (r1 & wr1 & datas1 & dir1 & evs1 & Hrun1 & Hit1 & Hwf1 & Hp1 & HB1 & Habs1 & Hevs1).
  simpl. unfold bind. rewrite Hrun1.
  destruct r1 as [l1|e].
  - pose proof (iteration_writer _ _ _ _ _ _ _ Hit1) as Hwr1. subst wr1.
    destruct (IH l1 _ Hwf1)
      as (r2 & wr2 & datas2 & dir2 & evs2 & Hrun2 & Hwf2 & Hp2 & HB2 & Habs2 & Hd2 & Hevs2 & Hr2).
    rewrite with_out_with_out in Hrun2, Hwf2, Habs2.
    exists r2, wr2, (datas1 ++ datas2), dir2, (evs1 ++ evs2).
    split_and!; try done; try congruence.
    + rewrite foldl_app, <- Habs1, <- Hp1, <- HB1. done.
    + apply Forall_app. split; [by eapply iteration_data|done].
    + by apply Forall_app.
  - exists (Raise e), wr1, datas1, dir1, evs1.
    split_and!; try done. by eapply iteration_data.
Qed.

(** *** The processed map along the loop *)

Lemma is_duplicate_insert_eq P path ino size mtime :
  is_duplicate (<[path := sig_entry ino size mtime]> P) path ino size mtime = true.
Proof.
  unfold is_duplicate. rewrite lookup_insert_eq.
  rewrite !andb_true_iff, !bool_decide_eq_true. unfold sig_entry.
  split_and!; by simplify_map_eq.
Qed.





(** ** The phases of a run *)

Lemma load_state_cases w :
  match w_state w !! STATE_FILE with
  | None => load_state w = (Ok (JObject empty_state), w)
  | Some (JsonObject d) => load_state w = (Ok (JObject d), w)
  | Some JsonOther => load_state w = (Ok JOther, w)
  | Some NotJson =>
      load_state w =
        (Ok (JObject empty_state),
         if w_rename_ok w then
           add_event (EvRename STATE_FILE (STATE_FILE +:+ ".bak"))
             (set_state (λ m, <[STATE_FILE +:+ ".bak" := NotJson]> (delete STATE_FILE m)) w)
         else w)
  | Some Unreadable => load_state w = (Raise PermissionError, w)
  | Some NotUtf8 => load_state w = (Raise UnicodeDecodeError, w)
  end.
Proof.
  unfold load_state, try_except, read_state_file.
  destruct (w_state w !! STATE_FILE) as [[]|] eqn:Hs; try done.
  unfold mbind, M_bind, bind, try_except, os_rename.
  destruct (w_rename_ok w); [|done]. simpl.
  unfold mret, M_ret, set_state. simpl. by rewrite Hs.
Qed.

Lemma save_state_eq st w : save_state st w = (Ok (), saved st w).
Proof.
  unfold save_state, saved, save_events.
  assert (Hdir : match dirname STATE_FILE with "" => "/" | d => d end = dirname STATE_FILE)
    by (vm_compute; reflexivity).
  rewrite Hdir. clear Hdir.
  generalize (dirname STATE_FILE) (STATE_FILE +:+ ".tmp") STATE_FILE.
  intros dir tmp final. munfold. destruct w as [ins logs out sta rok tr].
  cbv beta iota delta
    [set_state add_event w_inputs w_logs w_out w_state w_rename_ok w_trace].
  f_equal. f_equal.
  - rewrite lookup_insert_eq. rewrite delete_insert_eq. rewrite delete_insert_eq. done.
  - by rewrite <- !app_assoc.
Qed.

Lemma process_with_eq B w :
  process_with B w =
    let w0 := add_event (EvMkdir OUTPUT_DIR) w in
    match load_state w0 with
    | (Raise e, w1) => (Raise e, w1)
    | (Ok JOther, w1) => (Raise AttributeError, w1)
    | (Ok (JObject d), w1) =>
        match w_inputs w1 with
        | [] => (Ok 0, add_event (EvPrint MsgNoInputs) w1)
        | _ =>
            let w2 := add_event (EvMkdir OUTPUT_DIR) w1 in
            match init OUTPUT_PREFIX (index_of_dir (w_out w2)) B w2 with
            | (Raise e, w3) => (Raise e, w3)
            | (Ok wr, w3) =>
                match process_inputs (w_inputs w1)
                        (Locals (default ∅ (processed d))
                           (default 0 (last_processed_mtime d)) 0 wr) w3 with
                | (Raise e, w4) => (Raise e, w4)
                | (Ok l, w4) =>
                    match close (writer l) w4 with
                    | (Raise e, w5) => (Raise e, w5)
                    | (Ok _, w5) =>
                        (Ok 0,
                         add_event (EvPrint (MsgDone (processed_count l)))
                           (saved (State (Some (l_processed l))
                                     (Some (last_mtime_seen l))) w5))
                    end
                end
            end
        end
    end.
Proof.
  unfold process_with, next_output_index, discover_inputs. munfold. cbv zeta.
  destruct (load_state _) as [[[d|]|e] w1]; try reflexivity.
  destruct (w_inputs w1) as [|p inputs] eqn:Hin; [reflexivity|].
  destruct (init _ _ _ _) as [[wr|e] w3]; [|reflexivity].
  destruct (process_inputs _ _ _) as [[l|e] w4]; [|reflexivity].
  destruct (close _ _) as [[wr'|e] w5]; [|reflexivity].
  rewrite save_state_eq. reflexivity.
Qed.

(** ** Line normalization *)

Module TextFacts.

Import Text.

Lemma endswith_nl_snoc body : endswith_nl (body ++ [NL]) = true.
Proof. unfold endswith_nl. by rewrite last_snoc. Qed.

Lemma endswith_nl_no_nl body : NL ∉ body → endswith_nl body = false.
Proof.
  unfold endswith_nl. intros Hnl. destruct (last body) as [c|] eqn:Hlast; [|done].
  apply N.eqb_neq. intros ->. apply Hnl. by eapply last_Some_elem_of.
Qed.

Lemma normalize_cases line :
  ∃ body, normalize line = body ++ [NL] ∧ (line = body ∨ line = body ++ [NL]).
Proof.
  unfold normalize. destruct (endswith_nl line) eqn:Hend.
  - unfold endswith_nl in Hend. destruct (last line) as [c|] eqn:Hlast; [|done].
    apply N.eqb_eq in Hend as ->. apply last_Some in Hlast as [body ->]. eauto.
  - eauto.
Qed.

Lemma split_lines_spec t line :
  line ∈ split_lines t →
  ∃ body, (NL ∉ body) ∧ (line = body ++ [NL] ∨ (line = body ∧ body ≠ [])).
Proof.
  revert line. induction t as [|c t IH]; intros line Hin; simpl in Hin; [set_solver|].
  destruct (c =? NL)%N eqn:Hc.
  - apply N.eqb_eq in Hc as ->.
    apply elem_of_cons in Hin as [->|Hin]; [|by apply IH].
    exists []. split; [apply not_elem_of_nil|]. by left.
  - apply N.eqb_neq in Hc.
    destruct (split_lines t) as [|l ls] eqn:Hsplit.
    + apply list_elem_of_singleton in Hin as ->.
      exists [c]. split; [|by right].
      rewrite list_elem_of_singleton. congruence.
    + apply elem_of_cons in Hin as [->|Hin]; [|apply IH; set_solver].
      destruct (IH l) as (body & Hnl & Hl); [set_solver|].
      exists (c :: body). split.
      { rewrite not_elem_of_cons. split; [congruence|done]. }
      destruct Hl as [->|[-> _]]; [by left|by right].
Qed.

Lemma utf8_char_nl c : 10%N ∈ utf8_char c → c = NL.
Proof.
  unfold utf8_char.
  repeat match goal with
         | |- context [if ?b then _ else _] => destruct b eqn:?
         end;
    rewrite ?elem_of_cons, ?elem_of_nil; intros H; unfold NL;
    repeat (destruct H as [H|H]); try done;
    repeat match goal with
           | H : context [(?a `div` ?b)%N] |- _ =>
               let x := fresh "q" in set (x := (a `div` b)%N) in *; clearbody x
           | H : context [(?a `mod` ?b)%N] |- _ =>
               let x := fresh "r" in set (x := (a `mod` b)%N) in *; clearbody x
           end; lia.
Qed.

Lemma encode_app a b : encode (a ++ b) = encode a ++ encode b.
Proof. unfold encode. apply bind_app. Qed.

Lemma encode_nl body : NL ∉ body → 10%N ∉ encode body.
Proof.
  intros Hnl Hin. unfold encode in Hin.
  apply list_elem_of_bind in Hin as (c & Hc & Hin).
  apply utf8_char_nl in Hc as ->. done.
Qed.

Lemma readlines_terminated t line :
  line ∈ readlines t →
  ∃ body, (NL ∉ body) ∧ normalize line = body ++ [NL] ∧
          encode (normalize line) = encode body ++ [10%N] ∧ (10%N ∉ encode body).
Proof.
  intros (body & Hnl & Hline)%split_lines_spec. exists body.
  assert (Hnorm : normalize line = body ++ [NL]).
  { unfold normalize. destruct Hline as [->|[-> _]].
    - by rewrite endswith_nl_snoc.
    - by rewrite endswith_nl_no_nl. }
  split_and!; [done..| |by apply encode_nl].
  by rewrite Hnorm, encode_app.
Qed.

End TextFacts.

Lemma gz_lines_readlines f line :
  line ∈ gz_lines f → ∃ t, line ∈ Text.readlines t.
Proof.
  unfold gz_lines. destruct (gz_error f); [|by exists (gz_text f)].
  intros [_ ?]%list_elem_of_filter. by exists (Text.held_back (gz_text f)).
Qed.

Lemma input_data_terminated f d : d ∈ input_data f → terminated d.
Proof.
  unfold input_data. rewrite <- list_fmap_compose.
  intros (line & -> & Hline)%list_elem_of_fmap.
  apply gz_lines_readlines in Hline as (t & Hline).
  apply TextFacts.readlines_terminated in Hline as (body & _ & _ & Henc & Hnl).
  by exists (Text.encode body).
Qed.

(** ** A writer session: open, write the lines, close *)

Lemma init_abstract p idx B w :
  ∃ wr dir evs,
    init p idx B w = (Ok wr, with_out w dir evs) ∧
    wf wr (with_out w dir evs) ∧ buffered wr = 0 ∧
    prefix wr = p ∧ chunk_bytes wr = B ∧
    abstract wr (with_out w dir evs) = astart p idx (w_out w) ∧
    Forall writer_event evs.
Proof.
  destruct (init_wf p idx B w)
    as (wr & dir & evs & Hrun & Hwf & Hbuf & Hp & HB & Hidx & Hdir & Hlog & Hevs).
  exists wr, dir, evs. split_and!; try done.
  unfold abstract, astart, opened. simpl. rewrite Hlog, <- Hdir, Hidx. f_equal.
  destruct Hwf as [_ _ Hcount]. rewrite Hcount, Hbuf.
  unfold on_disk_size, current, _path. simpl. rewrite Hp, Hidx, Hdir.
  destruct (w_out w !! Name.chunk_name p idx) eqn:E; [by rewrite E, Z.add_0_r|].
  by rewrite lookup_insert_eq.
Qed.

Lemma wf_a_ok wr w :
  wf wr w →
  let a := abstract wr w in
  let name := Name.chunk_name (prefix wr) (a_index a) in
  is_Some (a_dir a !! name) ∧ a_bytes a = chunk_size (default [] (a_dir a !! name)).
Proof.
  intros [[buf Hfh] [c Hc] Hcount]. simpl. unfold logical. rewrite Hfh. simpl.
  fold (_path wr (index wr)). fold (current wr). rewrite lookup_insert_eq.
  split; [eauto|]. simpl. rewrite Hcount. unfold on_disk_size, buffered.
  rewrite Hfh, Hc. simpl. by rewrite chunk_size_app.
Qed.

Lemma session_spec p start B lines w :
  ∃ wr evs,
    let a := foldl (awrite p B) (astart p start (w_out w)) (Text.encode <$> lines) in
    session p start B lines w = (Ok wr, with_out w (a_dir a) evs) ∧
    index wr = a_index a ∧ bytes_in_chunk wr = a_bytes a ∧
    prefix wr = p ∧ chunk_bytes wr = B ∧
    is_Some (a_dir a !! Name.chunk_name p (a_index a)) ∧
    a_bytes a = chunk_size (default [] (a_dir a !! Name.chunk_name p (a_index a))) ∧
    Forall writer_event evs.
Proof.
  destruct (init_abstract p start B w)
    as (wr0 & dir0 & evs0 & Hrun0 & Hwf0 & _ & Hp0 & HB0 & Habs0 & Hevs0).
  destruct (write_all_wf lines wr0 _ Hwf0)
    as (wr1 & dir1 & evs1 & Hrun1 & Hwf1 & Hp1 & HB1 & Habs1 & Hevs1).
  rewrite with_out_with_out in Hrun1, Hwf1, Habs1.
  destruct (close_wf wr1 _ Hwf1) as (wr2 & evs2 & Hrun2 & _ & _ & Hevs2).
  rewrite with_out_with_out in Hrun2.
  pose proof (wf_a_ok _ _ Hwf1) as [Hex Hsz]. cbv zeta in Hex, Hsz.
  rewrite Hp0, HB0, Habs0 in Habs1. rewrite Habs1, Hp1, Hp0 in Hex, Hsz.
  assert (Hwr2 : wr2 = Make (prefix wr1) (chunk_bytes wr1) (index wr1) None
                         (bytes_in_chunk wr1)).
  { destruct Hwf1 as [[buf Hfh] _ _].
    rewrite (close_with_out _ _ _ Hfh) in Hrun2. congruence. }
  exists wr2, ((evs0 ++ evs1) ++ evs2). cbv zeta.
  assert (Hlog : logical wr1 dir1 = a_dir (foldl (awrite p B) (astart p start (w_out w))
                                             (Text.encode <$> lines)))
    by (by rewrite <- Habs1).
  assert (Hidx : index wr1 = a_index (foldl (awrite p B) (astart p start (w_out w))
                                             (Text.encode <$> lines)))
    by (by rewrite <- Habs1).
  assert (Hbytes : bytes_in_chunk wr1
                   = a_bytes (foldl (awrite p B) (astart p start (w_out w))
                                             (Text.encode <$> lines)))
    by (by rewrite <- Habs1).
  split_and!.
  - unfold session, bind. rewrite Hrun0, Hrun1, Hrun2. do 2 f_equal. exact Hlog.
  - by rewrite Hwr2.
  - by rewrite Hwr2.
  - rewrite Hwr2. simpl. congruence.
  - rewrite Hwr2. simpl. congruence.
  - done.
  - done.
  - apply Forall_app. split; [apply Forall_app; by split|done].
Qed.

(** ** The chunk size bound *)

Lemma bounded_insert B dir name c :
  bounded B dir → (B < chunk_size c → ∃ d, d ∈ c ∧ B < data_len d) →
  bounded B (<[name := c]> dir).
Proof.
  intros Hdir Hc name' c' Hlook Hsize.
  destruct (decide (name = name')) as [->|Hne].
  - rewrite lookup_insert_eq in Hlook. injection Hlook as <-. auto.
  - rewrite lookup_insert_ne in Hlook by done. eauto.
Qed.

Lemma awrite_bounded p B a data :
  a_bytes a = chunk_size (default [] (a_dir a !! Name.chunk_name p (a_index a))) →
  bounded B (a_dir a) → bounded B (a_dir (awrite p B a data)).
Proof.
  intros Hbytes Hdir. unfold awrite.
  destruct (must_rotate B (a_bytes a) data) eqn:Hrot; simpl.
  - apply bounded_insert; [done|]. rewrite chunk_size_singleton.
    intros ?. exists data. split; [apply list_elem_of_singleton; done|done].
  - apply bounded_insert; [done|].
    rewrite chunk_size_app, chunk_size_singleton, <- Hbytes. intros Hbig.
    unfold must_rotate in Hrot. apply andb_false_iff in Hrot as [Hrot|Hrot].
    + apply Z.ltb_ge in Hrot. lia.
    + apply Z.ltb_ge in Hrot.
      pose proof (chunk_size_nonneg (default [] (a_dir a !! Name.chunk_name p (a_index a)))).
      exists data. split; [apply elem_of_app; right; by apply list_elem_of_singleton|lia].
Qed.

Lemma bounded_small B dir name c :
  bounded B dir → dir !! name = Some c →
  Forall (λ d, data_len d ≤ B) c → chunk_size c ≤ B.
Proof.
  intros Hdir Hlook Hall. destruct (decide (chunk_size c ≤ B)) as [|Hbig]; [done|].
  destruct (Hdir name c Hlook) as (d & Hd & Hlen); [lia|].
  rewrite Forall_forall in Hall. specialize (Hall d Hd). lia.
Qed.

Lemma bounded_opened B name dir : 0 ≤ B → bounded B dir → bounded B (opened name dir).
Proof.
  intros HB Hdir. unfold opened. destruct (dir !! name); [done|].
  apply bounded_insert; [done|]. rewrite chunk_size_nil. lia.
Qed.

Lemma awrite_a_ok p B a data : a_ok p a → a_ok p (awrite p B a data).
Proof.
  intros [Hex Hbytes]. unfold a_ok, awrite.
  destruct (must_rotate B (a_bytes a) data); simpl; rewrite lookup_insert_eq; simpl.
  - split; [eauto|]. by rewrite chunk_size_singleton.
  - split; [eauto|]. rewrite chunk_size_app, chunk_size_singleton. lia.
Qed.

Lemma astart_a_ok p start dir : a_ok p (astart p start dir).
Proof.
  unfold a_ok, astart, opened. simpl.
  destruct (dir !! Name.chunk_name p start) eqn:E; [rewrite E; eauto|].
  rewrite lookup_insert_eq. eauto.
Qed.

Lemma foldl_awrite_inv (Q : astate → Prop) p B a datas :
  (∀ a d, a_ok p a → Q a → d ∈ datas → Q (awrite p B a d)) →
  a_ok p a → Q a →
  a_ok p (foldl (awrite p B) a datas) ∧ Q (foldl (awrite p B) a datas).
Proof.
  revert a. induction datas as [|d datas IH]; intros a Hstep Hok HQ; [done|].
  simpl. apply IH.
  - intros a' d' ???. apply Hstep; [done..|]. by apply elem_of_cons; right.
  - by apply awrite_a_ok.
  - apply Hstep; [done..|]. by apply elem_of_cons; left.
Qed.

Lemma session_bounded p start B lines w :
  0 ≤ B → bounded B (w_out w) →
  ∃ wr w', session p start B lines w = (Ok wr, w') ∧ bounded B (w_out w').
Proof.
  intros HB Hdir.
  destruct (session_spec p start B lines w) as (wr & evs & Hrun & _).
  cbv zeta in Hrun. eexists _, _. split; [exact Hrun|]. simpl.
  apply (foldl_awrite_inv (λ a, bounded B (a_dir a))).
  - intros a d [_ Hbytes] Ha _. by apply awrite_bounded.
  - apply astart_a_ok.
  - by apply bounded_opened.
Qed.

Lemma write_line_whole line wr w :
  wf wr w →
  ∃ wr' w' base,
    write_line line wr w = (Ok wr', w') ∧ wf wr' w' ∧
    logical wr' (w_out w') !! current wr' = Some (base ++ [Text.encode line]) ∧
    (base = [] ∨ logical wr (w_out w) !! current wr' = Some base) ∧
    ∀ name, name ≠ current wr' →
            logical wr' (w_out w') !! name = logical wr (w_out w) !! name.
Proof.
  intros Hwf.
  destruct (write_data_wf (Text.encode line) wr w Hwf)
    as (wr' & dir & evs & Hrun & Hwf' & Hp & HB & Habs & _ & _).
  pose proof (wf_a_ok _ _ Hwf) as [[c Hc] _]. cbv zeta in Hc. simpl in Hc.
  assert (Hlog : logical wr' dir
                 = a_dir (awrite (prefix wr) (chunk_bytes wr) (abstract wr w) (Text.encode line)))
    by (by rewrite <- Habs).
  assert (Hidx : index wr'
                 = a_index (awrite (prefix wr) (chunk_bytes wr) (abstract wr w) (Text.encode line)))
    by (by rewrite <- Habs).
  assert (Hcur : current wr' = Name.chunk_name (prefix wr) (index wr'))
    by (unfold current, _path; by rewrite Hp).
  revert Hlog Hidx. unfold awrite.
  destruct (must_rotate _ _ _); simpl; intros Hlog Hidx.
  - exists wr', (with_out w dir evs), []. simpl. rewrite Hlog, Hcur, Hidx.
    split_and!; [done..| | |].
    + by rewrite lookup_insert_eq.
    + by left.
    + intros name Hne. by rewrite lookup_insert_ne.
  - exists wr', (with_out w dir evs), c. simpl. rewrite Hlog, Hcur, Hidx.
    split_and!; [done..| | |].
    + by rewrite lookup_insert_eq, Hc.
    + by right.
    + intros name Hne. by rewrite lookup_insert_ne.
Qed.

(** ** Worlds for the examples *)

Lemma fresh_writer_wf B : wf (fresh_writer B) fresh_world.
Proof.
  split.
  - eexists. reflexivity.
  - vm_compute. eauto.
  - vm_compute. reflexivity.
Defined.

(** C3 (amended): for every sequence of [write_line] calls with bound [B],
    from a directory in which a chunk exceeds [B] only if it holds a piece
    larger than [B], the same holds after the session, so no chunk made of
    pieces of at most [B] bytes exceeds [B]; and every line is written whole
    into exactly one chunk, the others being left as they are. *)
Theorem chunk_size_bound p start B lines line wr w w0 :
  0 ≤ B → bounded B (w_out w) → wf wr w0 →
  (∃ wr' w',
      session p start B lines w = (Ok wr', w') ∧
      bounded B (w_out w') ∧
      ∀ name c, w_out w' !! name = Some c →
                Forall (λ d, data_len d ≤ B) c → chunk_size c ≤ B) ∧
  (∃ wr' w' base,
      write_line line wr w0 = (Ok wr', w') ∧
      logical wr' (w_out w') !! current wr' = Some (base ++ [Text.encode line]) ∧
      (base = [] ∨ logical wr (w_out w0) !! current wr' = Some base) ∧
      ∀ name, name ≠ current wr' →
              logical wr' (w_out w') !! name = logical wr (w_out w0) !! name).
Proof.
  intros HB Hdir Hwf. split.
  - destruct (session_bounded p start B lines w HB Hdir) as (wr' & w' & Hrun & Hb).
    exists wr', w'. split_and!; [done..|].
    intros name c Hc Hall. by eapply bounded_small.
  - destruct (write_line_whole line wr w0 Hwf)
      as (wr' & w' & base & Hrun & _ & H1 & H2 & H3).
    by exists wr', w', base.
Qed.

Lemma bounded_empty B : bounded B ∅.
Proof. intros name c Hc. by rewrite lookup_empty in Hc. Defined.

Lemma chunk_size_bound_witness :
  (0 ≤ 5 ∧ bounded 5 (w_out empty_world) ∧ wf (fresh_writer 5) fresh_world) ∧
  ∃ wr' w',
    session OUTPUT_PREFIX 1 5 [long_line; short_line] empty_world = (Ok wr', w') ∧
    bounded 5 (w_out w').
Proof.
  split.
  - split_and!; [lia|apply bounded_empty|apply fresh_writer_wf].
  - destruct (chunk_size_bound OUTPUT_PREFIX 1 5 [long_line; short_line] short_line
                (fresh_writer 5) empty_world fresh_world)
      as [(wr' & w' & Hrun & Hb & _) _];
      [lia|apply bounded_empty|apply fresh_writer_wf|].
    by exists wr', w'.
Defined.

(** C3, as stated, fails: with a bound of 5 bytes, a line of 9 bytes and
    then one of 2 bytes leave a first chunk of 9 bytes that is not the
    last-written one. *)
Lemma chunk_size_bound_counterexample :
  ∃ wr' w',
    session OUTPUT_PREFIX 1 5 [long_line; short_line] empty_world = (Ok wr', w') ∧
    index wr' = 2 ∧
    ¬ only_last_exceeds 5 wr' w'.
Proof.
  eexists _, _. split; [vm_compute; reflexivity|]. split; [reflexivity|].
  intros Hclaim.
  specialize (Hclaim "dshield-merged-00001.log" [Text.encode long_line]).
  assert (Hbad : chunk_size [Text.encode long_line] ≤ 5).
  { apply Hclaim; [vm_compute; reflexivity|]. vm_compute. discriminate. }
  vm_compute in Hbad. by apply Hbad.
Qed.

(** C10 (amended): the byte counter of the writer equals the size of the
    current chunk file plus the bytes still buffered in its handle, after
    construction (resuming an existing file included), after every
    [write_line] and after every [rotate]; with an empty buffer, after
    construction and after [rotate], it is the size on disk.  [write_line]
    rotates exactly when the test on this counter says so. *)
Theorem counter_tracks_chunk p start B w line wr w0 :
  wf wr w0 →
  (∃ wr' w',
      init p start B w = (Ok wr', w') ∧ wf wr' w' ∧
      buffered wr' = 0 ∧ bytes_in_chunk wr' = on_disk_size wr' w') ∧
  (∃ wr' w',
      write_line line wr w0 = (Ok wr', w') ∧ wf wr' w' ∧
      bytes_in_chunk wr' = on_disk_size wr' w' + buffered wr' ∧
      index wr' = (if must_rotate (chunk_bytes wr) (bytes_in_chunk wr) (Text.encode line)
                   then index wr + 1 else index wr)) ∧
  (∃ wr' w',
      rotate wr w0 = (Ok wr', w') ∧ wf wr' w' ∧
      buffered wr' = 0 ∧ bytes_in_chunk wr' = on_disk_size wr' w').
Proof.
  intros Hwf. split_and!.
  - destruct (init_wf p start B w) as (wr' & dir & evs & Hrun & Hwf' & Hbuf & _).
    exists wr', (with_out w dir evs). split_and!; [done..|].
    destruct Hwf' as [_ _ Hcount]. lia.
  - destruct (write_data_wf (Text.encode line) wr w0 Hwf)
      as (wr' & dir & evs & Hrun & Hwf' & _ & _ & Habs & _).
    exists wr', (with_out w0 dir evs). split_and!; [done..|apply Hwf'|].
    assert (Hidx : index wr' = a_index (awrite (prefix wr) (chunk_bytes wr)
                                          (abstract wr w0) (Text.encode line)))
      by (by rewrite <- Habs).
    rewrite Hidx. unfold awrite. simpl. by destruct (must_rotate _ _ _).
  - destruct (rotate_wf wr w0 Hwf)
      as (wr' & dir & evs & Hrun & Hwf' & _ & Hzero & Hbuf & _).
    exists wr', (with_out w0 dir evs). split_and!; [done..|].
    destruct Hwf' as [_ _ Hcount]. lia.
Qed.

Lemma counter_tracks_chunk_witness :
  wf (fresh_writer 5) fresh_world ∧
  ∃ wr' w',
    write_line short_line (fresh_writer 5) fresh_world = (Ok wr', w') ∧
    bytes_in_chunk wr' = on_disk_size wr' w' + buffered wr'.
Proof.
  split; [apply fresh_writer_wf|].
  destruct (counter_tracks_chunk OUTPUT_PREFIX 1 5 empty_world short_line
              (fresh_writer 5) fresh_world (fresh_writer_wf 5))
    as (_ & (wr' & w' & Hrun & _ & Hcount & _) & _).
  by exists wr', w'.
Defined.

(** C10, as stated, fails after [write_line]: two bytes written to a fresh
    chunk are counted, and the file on disk is still empty. *)
Lemma counter_tracks_chunk_counterexample :
  ∃ wr0 w0 wr1 w1,
    init OUTPUT_PREFIX 1 5 empty_world = (Ok wr0, w0) ∧
    write_line short_line wr0 w0 = (Ok wr1, w1) ∧
    bytes_in_chunk wr1 = 2 ∧ on_disk_size wr1 w1 = 0 ∧
    bytes_in_chunk wr1 ≠ on_disk_size wr1 w1.
Proof.
  eexists _, _, _, _. split_and!; [vm_compute; reflexivity..|].
  vm_compute. discriminate.
Qed.

(** ** The run as a whole *)

Lemma load_state_frame w r w1 :
  load_state w = (r, w1) →
  w_inputs w1 = w_inputs w ∧ w_logs w1 = w_logs w ∧ w_out w1 = w_out w ∧
  w_rename_ok w1 = w_rename_ok w ∧
  ∃ evs, w_trace w1 = w_trace w ++ evs ∧ state_events evs.
Proof.
  intros Hload. pose proof (load_state_cases w) as Hcases.
  assert (Hsame : w1 = w → w_inputs w1 = w_inputs w ∧ w_logs w1 = w_logs w ∧
            w_out w1 = w_out w ∧ w_rename_ok w1 = w_rename_ok w ∧
            ∃ evs, w_trace w1 = w_trace w ++ evs ∧ state_events evs).
  { intros ->. split_and!; try done. exists []. rewrite app_nil_r. split; [done|by left]. }
  destruct (w_state w !! STATE_FILE) as [[]|]; rewrite Hcases in Hload;
    injection Hload as <- <-; try by apply Hsame.
  destruct (w_rename_ok w) eqn:Hok; [|by apply Hsame].
  split_and!; try done. eexists. split; [reflexivity|by right].
Qed.

(** What a run that found inputs does after loading the state [d]. *)
Lemma process_with_run B w d w1 :
  load_state (add_event (EvMkdir OUTPUT_DIR) w) = (Ok (JObject d), w1) →
  w_inputs w ≠ [] →
  let a0 := astart OUTPUT_PREFIX (index_of_dir (w_out w)) (w_out w) in
  let w2 := add_event (EvMkdir OUTPUT_DIR) w1 in
  ∃ r wr' datas dir evs,
    let af := foldl (awrite OUTPUT_PREFIX B) a0 datas in
    (∃ wr0 w3,
        init OUTPUT_PREFIX (index_of_dir (w_out w)) B w2 = (Ok wr0, w3) ∧
        wf wr0 w3 ∧ w_logs w3 = w_logs w ∧
        process_inputs (w_inputs w)
          (Locals (default ∅ (processed d)) (default 0 (last_processed_mtime d)) 0 wr0) w3
        = (r, with_out w2 dir evs)) ∧
    wf wr' (with_out w2 dir evs) ∧
    abstract wr' (with_out w2 dir evs) = af ∧
    a_ok OUTPUT_PREFIX af ∧
    Forall (is_input_data w) datas ∧
    Forall loop_event evs ∧
    process_with B w =
      match r with
      | Raise e => (Raise e, with_out w2 dir evs)
      | Ok l =>
          (Ok 0,
           add_event (EvPrint (MsgDone (processed_count l)))
             (saved (State (Some (l_processed l)) (Some (last_mtime_seen l)))
                (with_out w2 (a_dir af)
                   (evs ++ [EvFlush (out_path (Name.chunk_name OUTPUT_PREFIX (a_index af)));
                            EvFsync (out_path (Name.chunk_name OUTPUT_PREFIX (a_index af)));
                            EvClose (out_path (Name.chunk_name OUTPUT_PREFIX (a_index af)))]))))
      end.
Proof.
  intros Hload Hin a0 w2.
  destruct (load_state_frame _ _ _ Hload) as (Hin1 & Hlogs1 & Hout1 & _).
  change (w_inputs (add_event (EvMkdir OUTPUT_DIR) w)) with (w_inputs w) in Hin1.
  change (w_logs (add_event (EvMkdir OUTPUT_DIR) w)) with (w_logs w) in Hlogs1.
  change (w_out (add_event (EvMkdir OUTPUT_DIR) w)) with (w_out w) in Hout1.
  assert (Hout2 : w_out w2 = w_out w) by done.
  destruct (init_abstract OUTPUT_PREFIX (index_of_dir (w_out w)) B w2)
    as (wr0 & dir0 & evs0 & Hrun0 & Hwf0 & _ & Hp0 & HB0 & Habs0 & Hevs0).
  rewrite Hout2 in Habs0. fold a0 in Habs0.
  destruct (process_inputs_spec (w_inputs w)
              (Locals (default ∅ (processed d)) (default 0 (last_processed_mtime d)) 0 wr0)
              _ Hwf0)
    as (r & wr' & datas & dir & evs & Hrun & Hwf' & Hp & HB & Habs & Hdata & Hevs & Hr).
  simpl in Hp, HB, Habs, Hr. rewrite with_out_with_out in Hrun, Hwf', Habs.
  rewrite Hp0, HB0, Habs0 in Habs.
  exists r, wr', datas, dir, (evs0 ++ evs). cbv zeta.
  assert (Haok : a_ok OUTPUT_PREFIX (foldl (awrite OUTPUT_PREFIX B) a0 datas)).
  { rewrite <- Habs. pose proof (wf_a_ok _ _ Hwf') as Hok. cbv zeta in Hok.
    rewrite Hp, Hp0 in Hok. exact Hok. }
  split_and!; try done.
  - exists wr0, (with_out w2 dir0 evs0). split_and!; done.
  - eapply Forall_impl; [exact Hdata|]. intros x (q & f & Hq & Hx).
    exists q, f. split; [|done]. rewrite <- Hlogs1. exact Hq.
  - apply Forall_app. split; [|done].
    eapply Forall_impl; [exact Hevs0|]. apply writer_loop_event.
  - rewrite process_with_eq. cbv zeta. rewrite Hload, Hin1.
    destruct (w_inputs w) as [|p0 inputs] eqn:Hinputs; [done|].
    fold w2. rewrite Hout2, Hrun0, Hrun.
    destruct r as [l|e]; [|done].
    specialize (Hr l eq_refl). subst wr'.
    destruct Hwf' as [[buf Hfh] Hex Hcount].
    rewrite (close_with_out _ _ _ Hfh). rewrite with_out_with_out.
    assert (Hlog : logical (writer l) dir = a_dir (foldl (awrite OUTPUT_PREFIX B) a0 datas))
      by (by rewrite <- Habs).
    assert (Hidx : index (writer l) = a_index (foldl (awrite OUTPUT_PREFIX B) a0 datas))
      by (by rewrite <- Habs).
    simpl. unfold current, _path. rewrite Hp, Hp0, Hidx, <- Hlog.
    by rewrite <- app_assoc.
Qed.

(** ** What a run appends *)

Lemma appended_lines_refl dir0 : appended_lines dir0 dir0.
Proof.
  intros name c Hc. exists c, []. rewrite app_nil_r. split_and!; [done|by right|done].
Qed.

Lemma appended_lines_insert dir0 dir name c :
  appended_lines dir0 dir →
  (∃ old new, c = old ++ new ∧ (old = [] ∨ dir0 !! name = Some old) ∧ Forall terminated new) →
  appended_lines dir0 (<[name := c]> dir).
Proof.
  intros Hdir Hc name' c' Hlook. destruct (decide (name = name')) as [->|Hne].
  - rewrite lookup_insert_eq in Hlook. by injection Hlook as <-.
  - rewrite lookup_insert_ne in Hlook by done. by apply Hdir.
Qed.

Lemma appended_lines_opened dir0 name : appended_lines dir0 (opened name dir0).
Proof.
  unfold opened. destruct (dir0 !! name); [apply appended_lines_refl|].
  apply appended_lines_insert; [apply appended_lines_refl|].
  exists [], []. split_and!; [done|by left|done].
Qed.

Lemma awrite_appended_lines dir0 p B a d :
  terminated d →
  appended_lines dir0 (a_disk a) ∧ appended_lines dir0 (a_dir a) →
  appended_lines dir0 (a_disk (awrite p B a d)) ∧
  appended_lines dir0 (a_dir (awrite p B a d)).
Proof.
  intros Hd [Hdisk Hdir]. unfold awrite.
  destruct (must_rotate B (a_bytes a) d); simpl.
  - split; (apply appended_lines_insert; [done|]).
    + exists [], []. split_and!; [done|by left|done].
    + exists [], [d]. split_and!; [done|by left|by repeat constructor].
  - split; [done|]. apply appended_lines_insert; [done|].
    destruct (a_dir a !! Name.chunk_name p (a_index a)) as [c|] eqn:Hc; simpl.
    + destruct (Hdir _ _ Hc) as (old & new & -> & Hold & Hnew).
      exists old, (new ++ [d]). rewrite app_assoc. split_and!; [done..|].
      apply Forall_app. split; [done|by repeat constructor].
    + exists [], [d]. split_and!; [done|by left|by repeat constructor].
Qed.

Lemma process_with_out_cases B w :
  w_out (process_with B w).2 = w_out w ∨
  ∃ datas a,
    a = foldl (awrite OUTPUT_PREFIX B)
          (astart OUTPUT_PREFIX (index_of_dir (w_out w)) (w_out w)) datas ∧
    Forall (is_input_data w) datas ∧
    (w_out (process_with B w).2 = a_disk a ∨ w_out (process_with B w).2 = a_dir a).
Proof.
  destruct (load_state (add_event (EvMkdir OUTPUT_DIR) w)) as [[[d|]|e] w1] eqn:Hload.
  - destruct (load_state_frame _ _ _ Hload) as (Hin1 & _ & Hout1 & _).
    destruct (decide (w_inputs w = [])) as [Hnil|Hne].
    + left. rewrite process_with_eq. cbv zeta. rewrite Hload, Hin1.
      change (w_inputs (add_event (EvMkdir OUTPUT_DIR) w)) with (w_inputs w).
      rewrite Hnil. exact Hout1.
    + right.
      destruct (process_with_run B w d w1 Hload Hne)
        as (r & wr' & datas & dir & evs & _ & _ & Habs & _ & Hdata & _ & Heq).
      cbv zeta in Habs, Heq. eexists datas, _. split; [reflexivity|]. split; [done|].
      rewrite Heq. destruct r as [l|e].
      * by right.
      * left. simpl. by rewrite <- Habs.
  - left. rewrite process_with_eq. cbv zeta. rewrite Hload.
    by destruct (load_state_frame _ _ _ Hload) as (_ & _ & Hout1 & _).
  - left. rewrite process_with_eq. cbv zeta. rewrite Hload.
    by destruct (load_state_frame _ _ _ Hload) as (_ & _ & Hout1 & _).
Qed.

(** C9: whether or not a source line ends with a terminator, the line handed
    to the writer is the line with one terminator at its end; the lines that
    iterating over the text yields have no terminator inside, so the data
    written ends with exactly one; and after a run every chunk is a chunk
    from before the run, or an empty file, followed by pieces that each end
    with exactly one line terminator. *)
Theorem lines_end_with_one_terminator B w line :
  (∃ body, Text.normalize line = body ++ [Text.NL] ∧
           (line = body ∨ line = body ++ [Text.NL])) ∧
  (∀ t l, l ∈ Text.readlines t → terminated (Text.encode (Text.normalize l))) ∧
  appended_lines (w_out w) (w_out (process_with B w).2).
Proof.
  split_and!.
  - apply TextFacts.normalize_cases.
  - intros t l Hl.
    apply TextFacts.readlines_terminated in Hl as (body & _ & _ & Henc & Hnl).
    by exists (Text.encode body).
  - destruct (process_with_out_cases B w) as [->|(datas & a & -> & Hdata & Hout)].
    { apply appended_lines_refl. }
    assert (Hinv : a_ok OUTPUT_PREFIX
                     (foldl (awrite OUTPUT_PREFIX B)
                        (astart OUTPUT_PREFIX (index_of_dir (w_out w)) (w_out w)) datas) ∧
                   (appended_lines (w_out w) (a_disk (foldl (awrite OUTPUT_PREFIX B)
                        (astart OUTPUT_PREFIX (index_of_dir (w_out w)) (w_out w)) datas)) ∧
                    appended_lines (w_out w) (a_dir (foldl (awrite OUTPUT_PREFIX B)
                        (astart OUTPUT_PREFIX (index_of_dir (w_out w)) (w_out w)) datas)))).
    { apply (foldl_awrite_inv
               (λ a, appended_lines (w_out w) (a_disk a) ∧ appended_lines (w_out w) (a_dir a))).
      - intros a d _ Ha Hd. apply awrite_appended_lines; [|done].
        rewrite Forall_forall in Hdata. destruct (Hdata d Hd) as (q & f & _ & Hf).
        by eapply input_data_terminated.
      - apply astart_a_ok.
      - split; apply appended_lines_opened. }
    destruct Hinv as [_ [Hdisk Hdir]]. by destruct Hout as [-> | ->].
Qed.

(** ** The duplicate check *)

Lemma is_duplicate_iff P path ino size mtime :
  is_duplicate P path ino size mtime = true ↔
  ∃ prev, P !! path = Some prev ∧ prev !! "ino" = Some ino ∧
          prev !! "size" = Some size ∧ prev !! "mtime" = Some mtime.
Proof.
  unfold is_duplicate. destruct (P !! path) as [prev|].
  - rewrite !andb_true_iff, !bool_decide_eq_true. split.
    + intros [[[_ ?] ?] ?]. by exists prev.
    + intros (prev' & [= <-] & Hino & ? & ?). split_and!; try done.
      intros ->. by rewrite lookup_empty in Hino.
  - split; [done|]. by intros (prev & ? & _).
Qed.

Lemma sig_entry_lookup ino size mtime :
  sig_entry ino size mtime !! "ino" = Some ino ∧
  sig_entry ino size mtime !! "size" = Some size ∧
  sig_entry ino size mtime !! "mtime" = Some mtime.
Proof. unfold sig_entry. split_and!; by simplify_map_eq. Qed.



(** ** The names a session creates *)

Lemma astart_dom_inv p idx0 dir0 : dom_inv p idx0 dir0 (astart p idx0 dir0).
Proof.
  unfold dom_inv, astart, opened. simpl.
  destruct (dir0 !! Name.chunk_name p idx0) as [c|] eqn:E.
  - split_and!; [lia|done| |by left].
    intros j Hj. assert (j = idx0) as -> by lia. by rewrite E.
  - split_and!; [lia| | |].
    + intros n Hn. destruct (decide (Name.chunk_name p idx0 = n)) as [<-|Hne].
      * rewrite lookup_insert_eq. eauto.
      * by rewrite lookup_insert_ne.
    + intros j Hj. assert (j = idx0) as -> by lia. rewrite lookup_insert_eq. eauto.
    + intros n Hn. destruct (decide (Name.chunk_name p idx0 = n)) as [<-|Hne].
      * right. exists idx0. split; [lia|done].
      * rewrite lookup_insert_ne in Hn by done. by left.
Qed.

Lemma awrite_dom_inv p B idx0 dir0 a d :
  dom_inv p idx0 dir0 a → dom_inv p idx0 dir0 (awrite p B a d).
Proof.
  intros (Hidx & Hkeep & Hnew & Honly). unfold dom_inv, awrite.
  destruct (must_rotate B (a_bytes a) d); simpl.
  - split_and!; [lia| | |].
    + intros n Hn. destruct (decide (Name.chunk_name p (a_index a + 1) = n)) as [<-|Hne].
      * rewrite lookup_insert_eq. eauto.
      * rewrite lookup_insert_ne by done. auto.
    + intros j Hj. destruct (decide (j = a_index a + 1)) as [->|Hne].
      * rewrite lookup_insert_eq. eauto.
      * destruct (decide (Name.chunk_name p (a_index a + 1) = Name.chunk_name p j))
          as [<-|Hne'].
        -- rewrite lookup_insert_eq. eauto.
        -- rewrite lookup_insert_ne by done. apply Hnew. lia.
    + intros n Hn. destruct (decide (Name.chunk_name p (a_index a + 1) = n)) as [<-|Hne].
      * right. exists (a_index a + 1). split; [lia|done].
      * rewrite lookup_insert_ne in Hn by done.
        destruct (Honly n Hn) as [?|(j & Hj & ->)]; [by left|].
        right. exists j. split; [lia|done].
  - split_and!; [lia| | |].
    + intros n Hn. destruct (decide (Name.chunk_name p (a_index a) = n)) as [<-|Hne].
      * rewrite lookup_insert_eq. eauto.
      * rewrite lookup_insert_ne by done. auto.
    + intros j Hj.
      destruct (decide (Name.chunk_name p (a_index a) = Name.chunk_name p j)) as [<-|Hne'].
      * rewrite lookup_insert_eq. eauto.
      * rewrite lookup_insert_ne by done. by apply Hnew.
    + intros n Hn. destruct (decide (Name.chunk_name p (a_index a) = n)) as [<-|Hne].
      * right. exists (a_index a). split; [lia|done].
      * rewrite lookup_insert_ne in Hn by done. auto.
Qed.

Lemma foldl_awrite_dom_inv p B idx0 dir0 a datas :
  dom_inv p idx0 dir0 a → dom_inv p idx0 dir0 (foldl (awrite p B) a datas).
Proof.
  revert a. induction datas as [|d datas IH]; intros a Ha; [done|].
  simpl. by apply IH, awrite_dom_inv.
Qed.

Section index_after_session.

Import Name NameFacts.


(** With five-digit names throughout, the index found after a session is
    the index the writer stopped at. *)
Lemma index_of_dir_resumes dir0 a :
  five_digit_names dir0 →
  dom_inv OUTPUT_PREFIX (index_of_dir dir0) dir0 a →
  a_index a ≤ 99999 →
  five_digit_names (a_dir a) ∧ index_of_dir (a_dir a) = a_index a.
Proof.
  intros Hfive (Hidx & Hkeep & Hnew & Honly) Hmax.
  pose proof (index_of_dir_pos dir0) as Hpos.
  assert (Hfive' : five_digit_names (a_dir a)).
  { intros n [Hn Hglob]. destruct (Honly n Hn) as [Hold|(j & Hj & ->)].
    - by apply Hfive.
    - exists j. split; [lia|done]. }
  split; [done|].
  assert (Hcur : is_chunk (a_dir a) (chunk_name OUTPUT_PREFIX (a_index a))).
  { split; [apply Hnew; lia|apply glob_match_chunk_name]. }
  destruct (index_of_dir_highest (a_dir a) Hfive') as (Hex & Hrange & Hhigh); [eauto|].
  apply Z.le_antisymm; [|apply Hhigh; [lia|apply Hcur]].
  destruct (Honly _ Hex) as [Hold|(j & Hj & Heq)].
  - destruct (index_of_dir_highest dir0 Hfive) as (_ & _ & Hhigh0).
    { eexists. split; [exact Hold|apply glob_match_chunk_name]. }
    specialize (Hhigh0 _ Hrange Hold). lia.
  - assert (index_of_dir (a_dir a) = j); [|lia].
    apply Z.compare_eq. rewrite <- (chunk_name_compare OUTPUT_PREFIX) by lia.
    rewrite Heq. apply compare_refl.
Qed.

End index_after_session.

(** ** Resuming *)

Lemma chunk_name_inj i j :
  1 ≤ i → 1 ≤ j →
  Name.chunk_name OUTPUT_PREFIX i = Name.chunk_name OUTPUT_PREFIX j → i = j.
Proof.
  intros Hi Hj Heq.
  pose proof (parse_index_chunk_name i) as Pi. pose proof (parse_index_chunk_name j) as Pj.
  rewrite Heq, Pj in Pi by lia. specialize (Pi ltac:(lia)). injection Pi. lia.
Qed.

Lemma awrite_aeq p B a a' d : aeq a a' → aeq (awrite p B a d) (awrite p B a' d).
Proof.
  intros (Hi & Hb & Hd). unfold aeq, awrite. rewrite Hi, Hb, Hd.
  by destruct (must_rotate B (a_bytes a') d).
Qed.

Lemma foldl_awrite_aeq p B a a' datas :
  aeq a a' → aeq (foldl (awrite p B) a datas) (foldl (awrite p B) a' datas).
Proof.
  revert a a'. induction datas as [|d datas IH]; intros a a' Ha; [done|].
  simpl. by apply IH, awrite_aeq.
Qed.

Lemma astart_resume p a :
  a_ok p a → aeq (astart p (a_index a) (a_dir a)) a.
Proof.
  intros [[c Hc] Hbytes]. unfold aeq, astart, opened. simpl.
  rewrite Hc in *. by split_and!.
Qed.

Lemma session_resume p start B l1 l2 w :
  ∃ wr1 w1 wr2 w2 wr3 w3,
    session p start B l1 w = (Ok wr1, w1) ∧
    session p (index wr1) B l2 w1 = (Ok wr2, w2) ∧
    session p start B (l1 ++ l2) w = (Ok wr3, w3) ∧
    w_out w2 = w_out w3 ∧ index wr2 = index wr3 ∧
    w_out w1 = a_dir (foldl (awrite p B) (astart p start (w_out w)) (Text.encode <$> l1)) ∧
    index wr1 = a_index (foldl (awrite p B) (astart p start (w_out w)) (Text.encode <$> l1)).
Proof.
  destruct (session_spec p start B l1 w)
    as (wr1 & evs1 & Hrun1 & Hidx1 & _ & _ & _ & Hex1 & Hsz1 & _).
  cbv zeta in *. set (a1 := foldl (awrite p B) (astart p start (w_out w)) (Text.encode <$> l1)) in *.
  destruct (session_spec p (index wr1) B l2 (with_out w (a_dir a1) evs1))
    as (wr2 & evs2 & Hrun2 & Hidx2 & _).
  destruct (session_spec p start B (l1 ++ l2) w) as (wr3 & evs3 & Hrun3 & Hidx3 & _).
  cbv zeta in *.
  rewrite fmap_app, foldl_app in Hrun3, Hidx3. fold a1 in Hrun3, Hidx3.
  simpl in Hrun2, Hidx2. rewrite Hidx1 in Hrun2, Hidx2.
  destruct (foldl_awrite_aeq p B _ _ (Text.encode <$> l2)
              (astart_resume p a1 (conj Hex1 Hsz1))) as (Ei & _ & Ed).
  eexists wr1, _, wr2, _, wr3, _.
  split_and!; [exact Hrun1|rewrite Hidx1; exact Hrun2|exact Hrun3| | |done|done].
  - simpl. exact Ed.
  - by rewrite Hidx2, Hidx3.
Qed.

Lemma init_append B w idx c :
  let name := Name.chunk_name OUTPUT_PREFIX idx in
  w_out w !! name = Some c →
  init OUTPUT_PREFIX idx B w =
    (Ok (Make OUTPUT_PREFIX B idx (Some (Handle name [])) (chunk_size c)),
     with_out w (w_out w) [EvMkdir OUTPUT_DIR; EvOpen (out_path name) "ab"]).
Proof. intros name Hc. rewrite init_with_out. fold name. by rewrite Hc. Qed.

Lemma first_line_rotates B w idx c line :
  let name := Name.chunk_name OUTPUT_PREFIX idx in
  let wr := Make OUTPUT_PREFIX B idx (Some (Handle name [])) (chunk_size c) in
  1 ≤ idx → w_out w !! name = Some c →
  0 < B → B ≤ chunk_size c → 0 < data_len (Text.encode line) →
  ∃ wr1 w1,
    write_line line wr w = (Ok wr1, w1) ∧ index wr1 = idx + 1 ∧
    logical wr1 (w_out w1) !! name = Some c ∧
    logical wr1 (w_out w1) !! Name.chunk_name OUTPUT_PREFIX (idx + 1)
      = Some [Text.encode line].
Proof.
  intros name wr Hidx Hc HB Hfull Hlen.
  unfold write_line. rewrite (write_data_with_out _ wr (Handle name []) w eq_refl).
  assert (Hrot : must_rotate (chunk_bytes wr) (bytes_in_chunk wr) (Text.encode line) = true).
  { unfold must_rotate. simpl. apply andb_true_iff. split; apply Z.ltb_lt; lia. }
  rewrite Hrot. cbv zeta. eexists _, _. split; [reflexivity|].
  assert (Hne : Name.chunk_name OUTPUT_PREFIX (idx + 1) ≠ name).
  { intros Heq. apply chunk_name_inj in Heq; lia. }
  unfold logical, _path. simpl. fold name.
  rewrite lookup_insert_eq. simpl.
  split_and!; [done| |by rewrite lookup_insert_eq].
  rewrite lookup_insert_ne by done. rewrite lookup_insert_ne by done.
  by rewrite lookup_insert_eq, Hc, app_nil_r.
Qed.

(** C4 (amended): the writer is opened at the index parsed from the last
    chunk name in lexical order, an index of at least 1: it is 1 when there
    is no chunk, and when the last name, a name of at most 255 ASCII
    characters, does not parse; it is the highest index present when every
    chunk name carries a five-digit index.  At whatever index from 1 on the
    writer is opened, a file at that index is opened for append, untouched,
    with the counter at its size; when that chunk is at or over the bound
    the first non-empty line goes to a new index and leaves it as it is.
    With five-digit names, and as long as the index stays at most 99999,
    stopping after some lines and starting again on the resulting directory
    leaves the same output as writing all the lines at once. *)
Theorem resume_at_last_chunk B w l1 l2 line :
  0 < B →
  let idx := index_of_dir (w_out w) in
  1 ≤ idx ∧
  ((∀ n, ¬ is_chunk (w_out w) n) → idx = 1) ∧
  (∀ m, is_chunk (w_out w) m → (∀ n, is_chunk (w_out w) n → String.le n m) →
        plain_name m → idx = default 1 (parse_index m)) ∧
  (five_digit_names (w_out w) → (∃ n, is_chunk (w_out w) n) →
     is_Some (w_out w !! Name.chunk_name OUTPUT_PREFIX idx) ∧
     ∀ i, 1 ≤ i ≤ 99999 → is_Some (w_out w !! Name.chunk_name OUTPUT_PREFIX i) → i ≤ idx) ∧
  (∀ i c, 1 ≤ i → w_out w !! Name.chunk_name OUTPUT_PREFIX i = Some c →
     ∃ wr w',
       init OUTPUT_PREFIX i B w = (Ok wr, w') ∧
       w_out w' = w_out w ∧ index wr = i ∧ bytes_in_chunk wr = chunk_size c ∧
       w_trace w' = w_trace w ++ [EvMkdir OUTPUT_DIR;
                                  EvOpen (out_path (Name.chunk_name OUTPUT_PREFIX i)) "ab"] ∧
       (B ≤ chunk_size c → 0 < data_len (Text.encode line) →
        ∃ wr1 w1,
          write_line line wr w' = (Ok wr1, w1) ∧ index wr1 = i + 1 ∧
          logical wr1 (w_out w1) !! Name.chunk_name OUTPUT_PREFIX i = Some c ∧
          logical wr1 (w_out w1) !! Name.chunk_name OUTPUT_PREFIX (i + 1)
            = Some [Text.encode line])) ∧
  (∃ wr1 w1 wr2 w2 wr3 w3,
     session OUTPUT_PREFIX idx B l1 w = (Ok wr1, w1) ∧
     session OUTPUT_PREFIX (index_of_dir (w_out w1)) B l2 w1 = (Ok wr2, w2) ∧
     session OUTPUT_PREFIX idx B (l1 ++ l2) w = (Ok wr3, w3) ∧
     (five_digit_names (w_out w) → index wr1 ≤ 99999 →
      index_of_dir (w_out w1) = index wr1 ∧ w_out w2 = w_out w3)).
Proof.
  intros HB idx. split_and!.
  - apply index_of_dir_pos.
  - apply index_of_dir_empty.
  - intros m Hm Hmax _.
    destruct (index_of_dir_cases (w_out w)) as [[Hno _]|(m' & Hm' & Hmax' & Hidx)].
    { by destruct (Hno m). }
    assert (m = m') as ->; [|done].
    apply (anti_symm String.le); [by apply Hmax'|by apply Hmax].
  - intros Hfive Hsome.
    destruct (index_of_dir_highest _ Hfive Hsome) as (Hex & _ & Hhigh). by split.
  - intros i c Hi Hc. eexists _, _. split; [by apply init_append|].
    split_and!; [done..|].
    intros Hfull Hlen.
    by apply (first_line_rotates B (with_out w (w_out w) _) i c line).
  - destruct (session_resume OUTPUT_PREFIX idx B l1 l2 w)
      as (wr1 & w1 & wr2 & w2 & wr3 & w3 & Hrun1 & Hrun2 & Hrun3 & Hout & _ & Hw1 & Hi1).
    destruct (session_spec OUTPUT_PREFIX (index_of_dir (w_out w1)) B l2 w1)
      as (wr2' & evs2' & Hrun2' & _).
    cbv zeta in Hrun2'.
    eexists wr1, w1, wr2', _, wr3, w3. split_and!; [done..|].
    intros Hfive Hmax.
    destruct (index_of_dir_resumes (w_out w)
                (foldl (awrite OUTPUT_PREFIX B) (astart OUTPUT_PREFIX idx (w_out w))
                   (Text.encode <$> l1))) as [_ Hres].
    { done. }
    { apply foldl_awrite_dom_inv, astart_dom_inv. }
    { by rewrite <- Hi1. }
    rewrite <- Hw1, <- Hi1 in Hres. split; [done|].
    rewrite Hres in Hrun2'. rewrite Hrun2 in Hrun2'.
    injection Hrun2' as _ Hw2. rewrite <- Hout, Hw2. by rewrite Hres.
Qed.

Lemma resumed_world_five_digit : five_digit_names (w_out resumed_world).
Proof.
  intros n [[c Hc] _]. simpl in Hc.
  apply lookup_singleton_Some in Hc as [<- _].
  exists 1. split; [lia|reflexivity].
Defined.

Lemma resume_at_last_chunk_witness :
  (0 < 5 ∧ five_digit_names (w_out resumed_world)) ∧
  ∃ wr1 w1 wr2 w2 wr3 w3,
    session OUTPUT_PREFIX (index_of_dir (w_out resumed_world)) 5 [long_line] resumed_world
      = (Ok wr1, w1) ∧
    session OUTPUT_PREFIX (index_of_dir (w_out w1)) 5 [short_line] w1 = (Ok wr2, w2) ∧
    session OUTPUT_PREFIX (index_of_dir (w_out resumed_world)) 5
      ([long_line] ++ [short_line]) resumed_world = (Ok wr3, w3) ∧
    (index wr1 ≤ 99999 → index_of_dir (w_out w1) = index wr1 ∧ w_out w2 = w_out w3).
Proof.
  split; [split; [lia|apply resumed_world_five_digit]|].
  destruct (resume_at_last_chunk 5 resumed_world [long_line] [short_line] short_line)
    as (_ & _ & _ & _ & _ & wr1 & w1 & wr2 & w2 & wr3 & w3 & H1 & H2 & H3 & H4); [lia|].
  exists wr1, w1, wr2, w2, wr3, w3. split_and!; [done..|].
  intros Hmax. apply H4; [apply resumed_world_five_digit|done].
Defined.

(** C4, as stated, fails: with a name that does not parse as the last one,
    the fallback opens the writer at index 1 although a chunk of index 2
    exists.  On this directory, with a bound of 5 bytes, a line of 9 bytes
    and then, after a restart, one of 2 bytes leave the second line in chunk
    1, while written at once the two lines leave it in chunk 3. *)
Lemma resume_at_last_chunk_counterexample :
  let w0 := World [] ∅ stray_dir ∅ true [] in
  let w1 := (session OUTPUT_PREFIX (index_of_dir stray_dir) 5 [long_line] w0).2 in
  let w2 := (session OUTPUT_PREFIX (index_of_dir (w_out w1)) 5 [short_line] w1).2 in
  let w3 := (session OUTPUT_PREFIX (index_of_dir stray_dir) 5 [long_line; short_line] w0).2 in
  index_of_dir stray_dir = 1 ∧
  is_Some (stray_dir !! Name.chunk_name OUTPUT_PREFIX 2) ∧
  (∃ wr w',
     (let* idx := next_output_index in init OUTPUT_PREFIX idx CHUNK_BYTES) w0 = (Ok wr, w') ∧
     index wr = 1) ∧
  index_of_dir (w_out w1) = 1 ∧
  w_out w2 !! "dshield-merged-00001.log" = Some [[97; 10]%N; short_line] ∧
  w_out w2 !! "dshield-merged-00003.log" = None ∧
  w_out w3 !! "dshield-merged-00001.log" = Some [[97; 10]%N] ∧
  w_out w3 !! "dshield-merged-00003.log" = Some [short_line].
Proof.
  cbv zeta. split_and!.
  - vm_compute. reflexivity.
  - vm_compute. eauto.
  - eexists _, _. split; vm_compute; reflexivity.
  - vm_compute. reflexivity.
  - vm_compute. reflexivity.
  - vm_compute. reflexivity.
  - vm_compute. reflexivity.
  - vm_compute. reflexivity.
Qed.

(** ** Rotation onto an existing chunk *)

(** C5 fails on the code: the lexical sort of [next_output_index] takes
    99999 for the highest index when a chunk 100000 exists, and the rotation
    out of chunk 99999 opens chunk 100000 with ["wb"]: what it held is lost.
    This holds for every bound once chunk 99999 is full; the run below is
    with a bound of 8 bytes. *)
Theorem rotation_destroys_chunk :
  index_of_dir overflow_dir = 99999 ∧
  (∀ B w c old line,
     0 < B → index_of_dir (w_out w) = 99999 →
     w_out w !! "dshield-merged-99999.log" = Some c →
     w_out w !! "dshield-merged-100000.log" = Some old →
     B ≤ chunk_size c → 0 < data_len (Text.encode line) →
     ∃ wr0 w0 wr1 w1,
       (let* idx := next_output_index in init OUTPUT_PREFIX idx B) w = (Ok wr0, w0) ∧
       write_line line wr0 w0 = (Ok wr1, w1) ∧
       logical wr1 (w_out w1) !! "dshield-merged-100000.log" = Some [Text.encode line]) ∧
  ∃ w',
    process_with 8 overflow_world = (Ok 0, w') ∧
    w_out overflow_world !! "dshield-merged-100000.log" = Some [[120; 10]%N] ∧
    w_out w' !! "dshield-merged-100000.log" = Some [[98; 10]%N].
Proof.
  split_and!.
  - vm_compute. reflexivity.
  - intros B w c old line HB Hidx Hc Hold Hfull Hlen.
    assert (Hname : Name.chunk_name OUTPUT_PREFIX 99999 = "dshield-merged-99999.log")
      by (vm_compute; reflexivity).
    assert (Hnext : Name.chunk_name OUTPUT_PREFIX (99999 + 1) = "dshield-merged-100000.log")
      by (vm_compute; reflexivity).
    rewrite <- Hname in Hc.
    destruct (first_line_rotates B
                (with_out (add_event (EvMkdir OUTPUT_DIR) w) (w_out w)
                   [EvMkdir OUTPUT_DIR;
                    EvOpen (out_path (Name.chunk_name OUTPUT_PREFIX 99999)) "ab"])
                99999 c line)
      as (wr1 & w1 & Hrun & _ & _ & Hnew); [lia|done..|].
    eexists _, _, wr1, w1. split_and!; [|exact Hrun|by rewrite <- Hnext].
    unfold bind, next_output_index, mbind, M_bind, bind, ensure_dir, emit, modify, gets.
    change (w_out (add_event (EvMkdir OUTPUT_DIR) w)) with (w_out w).
    rewrite Hidx.
    by rewrite (init_append B (add_event (EvMkdir OUTPUT_DIR) w) 99999 c Hc).
  - eexists. split_and!; vm_compute; reflexivity.
Qed.

(** ** Failures of the read and of the state file *)

(** C6 fails on the code: the handler of the read catches [OSError] only,
    and a truncated gzip stream raises [EOFError].  The run stops at that
    input: no warning, the next input is not read, no state is saved. *)
Theorem truncated_input_aborts_run :
  is_OSError EOFError = false ∧
  ∃ w',
    process truncated_world = (Raise EOFError, w') ∧
    w_state w' = ∅ ∧
    w_trace w' =
      [EvMkdir OUTPUT_DIR; EvMkdir OUTPUT_DIR; EvMkdir OUTPUT_DIR;
       EvOpen (out_path "dshield-merged-00001.log") "wb"].
Proof. split; [done|]. eexists. split_and!; vm_compute; reflexivity. Qed.

(** The same input failing with an [OSError] is set aside with a warning. *)
Lemma oserror_input_is_skipped path l w f e :
  wf (writer l) w →
  w_logs w !! path = Some f →
  is_duplicate (l_processed l) path (st_ino f) (st_size f) (st_mtime f) = false →
  gz_error f = Some e → is_OSError e = true →
  ∃ wr' w1,
    write_lines (gz_lines f) (writer l) w = (Ok wr', w1) ∧
    process_one path l w =
      (Ok (Locals (l_processed l) (last_mtime_seen l) (processed_count l) wr'),
       add_event (EvWarn path e) w1).
Proof.
  intros Hwf Hf Hnew Herr Hos.
  destruct (write_lines_wf (gz_lines f) _ _ Hwf) as (wr' & dir & evs & Hrun & _).
  exists wr', (with_out w dir evs). split; [done|].
  unfold process_one, bind at 1. rewrite try_signature_eq, Hf. simpl.
  rewrite Hnew. unfold bind at 1, read_and_append. by rewrite Hf, Hrun, Herr, Hos.
Qed.

(** C7 fails on the code: [load_state] handles a missing file and a JSON
    syntax error; a state file that is not valid UTF-8, or that cannot be
    opened, raises out of it and ends the run, with no backup made. *)
Theorem load_state_raises :
  load_state garbled_state_world = (Raise UnicodeDecodeError, garbled_state_world) ∧
  load_state unreadable_state_world = (Raise PermissionError, unreadable_state_world) ∧
  process garbled_state_world
    = (Raise UnicodeDecodeError, add_event (EvMkdir OUTPUT_DIR) garbled_state_world) ∧
  process unreadable_state_world
    = (Raise PermissionError, add_event (EvMkdir OUTPUT_DIR) unreadable_state_world).
Proof. split_and!; vm_compute; reflexivity. Qed.

(** What [load_state] does handle. *)
Lemma load_state_handled w :
  (w_state w !! STATE_FILE = None → load_state w = (Ok (JObject empty_state), w)) ∧
  (w_state w !! STATE_FILE = Some NotJson →
   ∃ w', load_state w = (Ok (JObject empty_state), w') ∧
         (w_rename_ok w = true →
          w_state w' !! STATE_FILE = None ∧
          w_state w' !! (STATE_FILE +:+ ".bak") = Some NotJson) ∧
         (w_rename_ok w = false → w' = w)).
Proof.
  pose proof (load_state_cases w) as Hcases. split.
  - intros Hs. by rewrite Hs in Hcases.
  - intros Hs. rewrite Hs in Hcases. eexists. split; [exact Hcases|].
    split; intros Hok; rewrite Hok; [|done].
    cbn [w_state add_event set_state]. split.
    + rewrite lookup_insert_ne by (vm_compute; discriminate). by rewrite lookup_delete_eq.
    + by rewrite lookup_insert_eq.
Qed.

(** ** Persisting the state *)

Lemma loop_event_not_persist e : loop_event e → ¬ persist_event e.
Proof. intros H1 H2. by destruct e. Qed.

Lemma state_events_not_persist evs :
  state_events evs → Forall (λ e, ¬ persist_event e) evs.
Proof. intros [-> | ->]; repeat constructor; auto. Qed.

Lemma w_trace_add_event e w : w_trace (add_event e w) = w_trace w ++ [e].
Proof. done. Qed.

Lemma w_trace_saved st w : w_trace (saved st w) = w_trace w ++ save_events st.
Proof. done. Qed.

Lemma w_trace_with_out w dir evs : w_trace (with_out w dir evs) = w_trace w ++ evs.
Proof. done. Qed.

Lemma tmp_in_same_directory : dirname (STATE_FILE +:+ ".tmp") = dirname STATE_FILE.
Proof. vm_compute. reflexivity. Qed.

(** C8 (amended): a run that found inputs and returns has persisted the
    state document once, as the last thing before its closing report: it
    writes the document to a temporary path in the directory of the state
    file, flushes it, forces it to storage, closes it and replaces the state
    file with it; nothing before writes or replaces the document. *)
Theorem state_persisted_once B w r w' :
  w_inputs w ≠ [] →
  process_with B w = (Ok r, w') →
  ∃ pre st count,
    w_trace w' = w_trace w ++ pre ++ save_events st ++ [EvPrint (MsgDone count)] ∧
    Forall (λ e, ¬ persist_event e) pre ∧
    save_events st =
      [EvMkdir (dirname STATE_FILE);
       EvOpen (STATE_FILE +:+ ".tmp") "w"; EvDump (STATE_FILE +:+ ".tmp") st;
       EvFlush (STATE_FILE +:+ ".tmp"); EvFsync (STATE_FILE +:+ ".tmp");
       EvClose (STATE_FILE +:+ ".tmp");
       EvReplace (STATE_FILE +:+ ".tmp") STATE_FILE] ∧
    dirname (STATE_FILE +:+ ".tmp") = dirname STATE_FILE ∧
    w_state w' !! STATE_FILE = Some (JsonObject st).
Proof.
  intros Hin Hrun.
  destruct (load_state (add_event (EvMkdir OUTPUT_DIR) w)) as [[[d|]|e] w1] eqn:Hload.
  2,3: rewrite process_with_eq in Hrun; cbv zeta in Hrun; by rewrite Hload in Hrun.
  destruct (load_state_frame _ _ _ Hload) as (_ & _ & _ & _ & evsl & Htr1 & Hevsl).
  destruct (process_with_run B w d w1 Hload Hin)
    as (r0 & wr' & datas & dir & evs & _ & _ & _ & _ & _ & Hevs & Heq).
  cbv zeta in Heq.
  set (af := foldl (awrite OUTPUT_PREFIX B)
               (astart OUTPUT_PREFIX (index_of_dir (w_out w)) (w_out w)) datas) in Heq.
  set (closing := [EvFlush (out_path (Name.chunk_name OUTPUT_PREFIX (a_index af)));
                   EvFsync (out_path (Name.chunk_name OUTPUT_PREFIX (a_index af)));
                   EvClose (out_path (Name.chunk_name OUTPUT_PREFIX (a_index af)))]) in Heq.
  assert (Hclosing : Forall (λ e, ¬ persist_event e) closing)
    by (repeat constructor; auto).
  clearbody closing af.
  rewrite Heq in Hrun. destruct r0 as [l|e]; [|done].
  injection Hrun as _ <-.
  exists ([EvMkdir OUTPUT_DIR] ++ evsl ++ [EvMkdir OUTPUT_DIR] ++ evs ++ closing),
    (State (Some (l_processed l)) (Some (last_mtime_seen l))), (processed_count l).
  split_and!; [| |reflexivity|apply tmp_in_same_directory|].
  - rewrite w_trace_add_event, w_trace_saved, w_trace_with_out, w_trace_add_event, Htr1,
      w_trace_add_event.
    generalize (save_events (State (Some (l_processed l)) (Some (last_mtime_seen l)))).
    intros sv. by rewrite <- !app_assoc.
  - apply Forall_app. split; [repeat constructor; auto|].
    apply Forall_app. split; [by apply state_events_not_persist|].
    apply Forall_app. split; [repeat constructor; auto|].
    apply Forall_app. split; [|done].
    eapply Forall_impl; [exact Hevs|]. apply loop_event_not_persist.
  - cbn [w_state add_event saved]. by rewrite lookup_insert_eq.
Qed.

Lemma state_persisted_once_witness :
  (w_inputs one_log_world ≠ [] ∧
   ∃ w', process_with CHUNK_BYTES one_log_world = (Ok 0, w')) ∧
  ∃ pre st count,
    w_trace (process_with CHUNK_BYTES one_log_world).2
      = w_trace one_log_world ++ pre ++ save_events st ++ [EvPrint (MsgDone count)] ∧
    Forall (λ e, ¬ persist_event e) pre.
Proof.
  assert (Hin : w_inputs one_log_world ≠ []) by (vm_compute; discriminate).
  assert (Hrun : process_with CHUNK_BYTES one_log_world
                 = (Ok 0, (process_with CHUNK_BYTES one_log_world).2))
    by (vm_compute; reflexivity).
  split; [split; [done|eauto]|].
  destruct (state_persisted_once CHUNK_BYTES one_log_world 0 _ Hin Hrun)
    as (pre & st & count & Htr & Hpre & _).
  exists pre, st, count. split; [exact Htr|exact Hpre].
Defined.

(** C8, as stated, fails: a run that finds no input returns 0 before it
    reaches the save; the state document is not persisted. *)
Lemma state_persisted_once_counterexample :
  ∃ w',
    process empty_world = (Ok 0, w') ∧
    w_trace w' = [EvMkdir OUTPUT_DIR; EvPrint MsgNoInputs] ∧
    w_state w' !! STATE_FILE = None.
Proof. eexists. split_and!; vm_compute; reflexivity. Qed.

(** ** Running twice *)








(** ** Reading the text and encoding it *)

Lemma split_lines_nil_inv t : Text.split_lines t = [] → t = [].
Proof.
  destruct t as [|c t]; [done|]. simpl.
  destruct (c =? Text.NL)%N; [done|]. by destruct (Text.split_lines t).
Qed.

Lemma concat_split_lines t : concat (Text.split_lines t) = t.
Proof.
  induction t as [|c t IH]; [done|]. simpl.
  destruct (c =? Text.NL)%N.
  - simpl. by rewrite IH.
  - destruct (Text.split_lines t) as [|l ls] eqn:E.
    + apply split_lines_nil_inv in E as ->. done.
    + simpl in *. by rewrite IH.
Qed.

Lemma universal_newlines_length_ind (P : list N → Prop) :
  (∀ t, (∀ t', (length t' < length t)%nat → P t') → P t) → ∀ t, P t.
Proof.
  intros Hstep t. remember (length t) as n eqn:Hn.
  revert t Hn. induction n as [n IH] using lt_wf_ind. intros t ->.
  apply Hstep. intros t' Hlt. by eapply IH.
Qed.

Lemma universal_newlines_no_cr t : Text.CR ∉ Text.universal_newlines t.
Proof.
  induction t as [t IH] using universal_newlines_length_ind.
  destruct t as [|c t]; simpl; [apply not_elem_of_nil|].
  destruct (c =? Text.CR)%N eqn:Ec.
  - destruct t as [|d t].
    + intros [=]%list_elem_of_singleton.
    + destruct (d =? Text.NL)%N; apply not_elem_of_cons;
        (split; [done|apply IH; simpl; lia]).
  - apply not_elem_of_cons. split; [|apply IH; simpl; lia].
    apply N.eqb_neq in Ec. congruence.
Qed.

Lemma universal_newlines_id t : Text.CR ∉ t → Text.universal_newlines t = t.
Proof.
  induction t as [|c t IH]; [done|]. intros [Hc Ht]%not_elem_of_cons. simpl.
  destruct (c =? Text.CR)%N eqn:Ec; [apply N.eqb_eq in Ec; congruence|].
  by rewrite IH.
Qed.

(** All the lines but the last end with a terminator. *)
Lemma split_lines_init t :
  Text.split_lines t = [] ∨
  ∃ init lst, Text.split_lines t = init ++ [lst] ∧ lst ≠ [] ∧
              Forall (λ l, Text.endswith_nl l = true) init.
Proof.
  induction t as [|c t IH]; [by left|]. right. simpl.
  destruct (c =? Text.NL)%N eqn:Ec.
  - apply N.eqb_eq in Ec as ->.
    destruct IH as [->|(init & lst & -> & Hne & Hinit)].
    + by exists [], [Text.NL].
    + exists ([Text.NL] :: init), lst. split_and!; [done..|].
      constructor; [done|done].
  - destruct IH as [->|(init & lst & -> & Hne & Hinit)].
    + by exists [], [c].
    + destruct init as [|l init]; simpl.
      * by exists [], (c :: lst).
      * exists ((c :: l) :: init), lst. split_and!; [done..|].
        apply Forall_cons in Hinit as [Hl Hinit]. constructor; [|done].
        unfold Text.endswith_nl in *. destruct l as [|x l]; [done|].
        by rewrite last_cons_cons.
Qed.

Lemma endswith_nl_app a b : b ≠ [] → Text.endswith_nl (a ++ b) = Text.endswith_nl b.
Proof.
  intros Hb. unfold Text.endswith_nl.
  destruct b as [|x b _] using rev_ind; [done|].
  by rewrite app_assoc, !last_snoc.
Qed.

Lemma normalize_id l : Text.endswith_nl l = true → Text.normalize l = l.
Proof. unfold Text.normalize. by intros ->. Qed.

Lemma concat_normalize_init (init : list (list N)) :
  Forall (λ l, Text.endswith_nl l = true) init →
  Text.normalize <$> init = init.
Proof.
  induction 1 as [|l init Hl _ IH]; [done|]. rewrite fmap_cons. by rewrite IH, normalize_id.
Qed.

Lemma encode_concat (ls : list (list N)) :
  concat (Text.encode <$> ls) = Text.encode (concat ls).
Proof.
  induction ls as [|l ls IH]; [done|].
  by rewrite fmap_cons, !concat_cons, TextFacts.encode_app, IH.
Qed.

Lemma concat_normalize_lines (ls : list (list N)) init lst :
  ls = init ++ [lst] → lst ≠ [] →
  Forall (λ l, Text.endswith_nl l = true) init →
  concat (Text.normalize <$> ls) = Text.normalize (concat ls).
Proof.
  intros -> Hne Hinit.
  rewrite fmap_app, (concat_normalize_init _ Hinit), !concat_app. simpl.
  rewrite !app_nil_r. unfold Text.normalize at 2.
  rewrite endswith_nl_app by done. unfold Text.normalize.
  destruct (Text.endswith_nl lst); [done|]. by rewrite app_assoc.
Qed.

Lemma filter_terminated_lines init lst :
  Forall (λ l, Text.endswith_nl l = true) init →
  filter (λ l, Text.endswith_nl l = true) (init ++ [lst])
  = init ++ (if Text.endswith_nl lst then [lst] else []).
Proof.
  intros Hinit. rewrite filter_app. f_equal.
  - induction Hinit as [|l init Hl _ IH]; [done|].
    by rewrite filter_cons_True, IH.
  - destruct (Text.endswith_nl lst) eqn:E.
    + by rewrite filter_cons_True.
    + rewrite filter_cons_False; [done|]. by rewrite E.
Qed.

Lemma endswith_nl_false_no_nl lst body :
  (Text.NL ∉ body) → (lst = body ++ [Text.NL] ∨ lst = body ∧ body ≠ []) →
  Text.endswith_nl lst = false → Text.NL ∉ lst.
Proof.
  intros Hb [->| [-> _]] He; [|done].
  by rewrite TextFacts.endswith_nl_snoc in He.
Qed.

(** X1: iterating over the text loses nothing: the lines, one after the
    other, are the text with its newlines made uniform; no carriage return
    is left in it, and a text without one is not changed; no line is empty,
    and every line but the last ends with a terminator. *)
Theorem lines_keep_the_text t :
  concat (Text.readlines t) = Text.universal_newlines t ∧
  (Text.CR ∉ Text.universal_newlines t) ∧
  (Text.CR ∉ t → Text.universal_newlines t = t) ∧
  (∀ l, l ∈ Text.readlines t → l ≠ []) ∧
  (Text.readlines t = [] ∨
   ∃ init lst, Text.readlines t = init ++ [lst] ∧
               Forall (λ l, Text.endswith_nl l = true) init).
Proof.
  unfold Text.readlines. split_and!.
  - apply concat_split_lines.
  - apply universal_newlines_no_cr.
  - apply universal_newlines_id.
  - intros l (body & _ & [->| [-> Hne]])%TextFacts.split_lines_spec; [|done].
    by destruct body.
  - destruct (split_lines_init (Text.universal_newlines t))
      as [->|(init & lst & -> & _ & Hinit)]; [by left|right]. by exists init, lst.
Qed.

Lemma held_back_cases t :
  Text.held_back t = t ∨ t = Text.held_back t ++ [Text.CR].
Proof.
  unfold Text.held_back. destruct t as [|c t _] using rev_ind; [by left|].
  rewrite last_snoc. destruct (c =? Text.CR)%N eqn:E; [|by left].
  apply N.eqb_eq in E as ->. right. by rewrite removelast_last.
Qed.

(** The lines of a text, as written: the encoding of the text, with a
    terminator at its end. *)
Lemma all_lines_bytes t :
  concat (Text.encode <$> (Text.normalize <$> Text.split_lines t))
  = (if decide (t = []) then [] else Text.encode (Text.normalize t)).
Proof.
  pose proof (concat_split_lines t) as Hcat.
  destruct (split_lines_init t) as [E|(init & lst & E & Hne & Hinit)].
  - rewrite E in *. simpl in Hcat. by rewrite <- Hcat.
  - rewrite encode_concat, (concat_normalize_lines _ init lst E Hne Hinit), Hcat.
    destruct (decide (t = [])) as [Ht|Ht]; [|done].
    rewrite Ht in E. by destruct init.
Qed.

(** The complete lines of a text, as written: the encoding of the text up
    to its last terminator. *)
Lemma complete_lines_bytes t :
  ∃ rest, (Text.NL ∉ rest) ∧
    Text.encode t
    = concat (Text.encode <$> (Text.normalize <$>
                filter (λ l, Text.endswith_nl l = true) (Text.split_lines t)))
      ++ Text.encode rest.
Proof.
  pose proof (concat_split_lines t) as Hcat.
  destruct (split_lines_init t) as [E|(init & lst & E & Hne & Hinit)].
  - rewrite E in *. simpl in Hcat. rewrite <- Hcat.
    exists []. split; [apply not_elem_of_nil|done].
  - rewrite E, (filter_terminated_lines _ _ Hinit).
    assert (Hl : lst ∈ Text.split_lines t).
    { rewrite E. apply elem_of_app. right. apply elem_of_cons. by left. }
    apply TextFacts.split_lines_spec in Hl as (body & Hbody & Hl).
    rewrite encode_concat, fmap_app, (concat_normalize_init _ Hinit), concat_app.
    rewrite <- Hcat, E, concat_app. simpl. rewrite app_nil_r.
    destruct (Text.endswith_nl lst) eqn:El.
    + exists []. split; [apply not_elem_of_nil|].
      simpl. rewrite (normalize_id _ El). simpl. by rewrite !app_nil_r.
    + exists lst. split; [by eapply endswith_nl_false_no_nl|].
      simpl. rewrite app_nil_r. apply TextFacts.encode_app.
Qed.

(** X2: the data handed to the writer for a rotated log that reads to its
    end is, taken together, the UTF-8 encoding of its text, newlines made
    uniform, with a terminator added when the text does not end with one; an
    empty text gives nothing.  When the read fails, the text handed on is
    the text read but for a carriage return at its very end, which is held
    back, and the data is the encoding of this text, newlines made uniform,
    up to its last terminator: the unfinished line is left out. *)
Theorem merged_bytes_of_input f :
  match gz_error f with
  | None =>
      let t := Text.universal_newlines (gz_text f) in
      concat (input_data f) = (if decide (t = []) then [] else Text.encode (Text.normalize t))
  | Some _ =>
      let t := Text.universal_newlines (Text.held_back (gz_text f)) in
      (Text.held_back (gz_text f) = gz_text f ∨
       gz_text f = Text.held_back (gz_text f) ++ [Text.CR]) ∧
      ∃ rest, (Text.NL ∉ rest) ∧
              Text.encode t = concat (input_data f) ++ Text.encode rest
  end.
Proof.
  unfold input_data, gz_lines, Text.readlines.
  destruct (gz_error f) as [e|]; cbv zeta.
  - split; [apply held_back_cases|apply complete_lines_bytes].
  - apply all_lines_bytes.
Qed.

Lemma utf8_char_length c : (1 ≤ length (Text.utf8_char c) ≤ 4)%nat.
Proof.
  unfold Text.utf8_char.
  repeat (match goal with |- context [if ?b then _ else _] => destruct b end);
    simpl; lia.
Qed.

Lemma utf8_char_ascii c : (c < 128)%N → Text.utf8_char c = [c].
Proof.
  intros Hc. unfold Text.utf8_char.
  destruct (c <? 128)%N eqn:E; [done|]. apply N.ltb_ge in E. lia.
Qed.

Lemma utf8_char_bytes c :
  (c < 0x110000)%N → Forall (λ b, (b < 256)%N) (Text.utf8_char c).
Proof.
  intros Hc. unfold Text.utf8_char.
  assert (Hm : ∀ x, (x mod 64 < 64)%N) by (intros x; by apply N.mod_lt).
  pose proof (Hm c) as H0. pose proof (Hm (c / 64)%N) as H1.
  pose proof (Hm (c / 4096)%N) as H2.
  destruct (c <? 128)%N eqn:E1; [apply N.ltb_lt in E1; repeat constructor; lia|].
  destruct (c <? 2048)%N eqn:E2.
  { apply N.ltb_lt in E2.
    assert (c / 64 < 32)%N by (apply N.Div0.div_lt_upper_bound; lia).
    repeat constructor; lia. }
  destruct ((55296 <=? c) && (c <=? 57343))%N; [repeat constructor; lia|].
  destruct (c <? 65536)%N eqn:E3.
  { apply N.ltb_lt in E3.
    assert (c / 4096 < 16)%N by (apply N.Div0.div_lt_upper_bound; lia).
    repeat constructor; lia. }
  assert (c / 262144 < 5)%N by (apply N.Div0.div_lt_upper_bound; lia).
  repeat constructor; lia.
Qed.

(** X3: the encoding of a line has between one and four bytes for each
    character; ASCII text is its own encoding; code points below 0x110000
    give bytes below 256; a lone surrogate is replaced by a question mark;
    the encoding of a concatenation is the concatenation of the
    encodings. *)
Theorem encode_bytes s :
  (length s ≤ length (Text.encode s) ≤ 4 * length s)%nat ∧
  (Forall (λ c, (c < 128)%N) s → Text.encode s = s) ∧
  (Forall (λ c, (c < 0x110000)%N) s → Forall (λ b, (b < 256)%N) (Text.encode s)) ∧
  (∀ c, (0xD800 ≤ c ≤ 0xDFFF)%N → Text.encode [c] = [63%N]) ∧
  (∀ a b, Text.encode (a ++ b) = Text.encode a ++ Text.encode b).
Proof.
  split; [|split_and!].
  - induction s as [|c s IH]; [simpl; lia|].
    change (Text.encode (c :: s)) with (Text.utf8_char c ++ Text.encode s).
    rewrite length_app. pose proof (utf8_char_length c). simpl. lia.
  - induction 1 as [|c s Hc _ IH]; [done|].
    change (Text.encode (c :: s)) with (Text.utf8_char c ++ Text.encode s).
    rewrite IH, utf8_char_ascii; done.
  - induction 1 as [|c s Hc _ IH]; [constructor|].
    change (Text.encode (c :: s)) with (Text.utf8_char c ++ Text.encode s).
    apply Forall_app. split; [by apply utf8_char_bytes|done].
  - intros c [Hlo Hhi]. unfold Text.encode. simpl. unfold Text.utf8_char.
    destruct (c <? 128)%N eqn:E1; [apply N.ltb_lt in E1; lia|].
    destruct (c <? 2048)%N eqn:E2; [apply N.ltb_lt in E2; lia|].
    apply N.leb_le in Hlo, Hhi. by rewrite Hlo, Hhi.
  - apply TextFacts.encode_app.
Qed.

(** ** Chunk names and the start index *)

Lemma append_inv_head (p a b : string) : p +:+ a = p +:+ b → a = b.
Proof. induction p as [|c p IH]; simpl; [done|]. intros [=]. auto. Qed.

Lemma append_inv_tail (a b t : string) : a +:+ t = b +:+ t → a = b.
Proof.
  intros H. apply (f_equal String.rev) in H.
  rewrite !NameFacts.rev_append in H. apply append_inv_head in H.
  apply (f_equal String.rev) in H. by rewrite !NameFacts.rev_involutive in H.
Qed.

Lemma chunk_name_inj_nonneg p i j :
  0 ≤ i → 0 ≤ j → Name.chunk_name p i = Name.chunk_name p j → i = j.
Proof.
  intros Hi Hj H. unfold Name.chunk_name in H.
  apply append_inv_head, append_inv_tail in H.
  destruct (NameFacts.fmt_05d_spec i Hi) as (_ & <- & _).
  destruct (NameFacts.fmt_05d_spec j Hj) as (_ & <- & _). by rewrite H.
Qed.

(** X4: for indices that are not negative, distinct indices give distinct
    chunk names, every chunk name matches the glob of [next_output_index],
    and below 100000 the names are ordered as their indices are. *)
Theorem chunk_names_follow_indices p i j :
  0 ≤ i → 0 ≤ j →
  (Name.chunk_name p i = Name.chunk_name p j ↔ i = j) ∧
  Name.glob_match p (Name.chunk_name p i) = true ∧
  (i < 100000 → j < 100000 →
   (String.le (Name.chunk_name p i) (Name.chunk_name p j) ↔ i ≤ j)).
Proof.
  intros Hi Hj. split_and!.
  - split; [by apply chunk_name_inj_nonneg|by intros ->].
  - apply NameFacts.glob_match_chunk_name.
  - intros Hi' Hj'. apply NameFacts.chunk_name_le; lia.
Qed.

Lemma chunk_names_follow_indices_witness :
  (0 ≤ 7 ∧ 0 ≤ 12) ∧
  (String.le (Name.chunk_name OUTPUT_PREFIX 7) (Name.chunk_name OUTPUT_PREFIX 12) ↔ 7 ≤ 12).
Proof.
  split; [lia|].
  apply (chunk_names_follow_indices OUTPUT_PREFIX 7 12); lia.
Defined.

Lemma is_chunk_singleton n c m :
  is_chunk ({[n := c]} : gmap string (list (list N))) m → m = n.
Proof. intros [[c' Hc] _]. by apply lookup_singleton_Some in Hc as [-> _]. Qed.

(** X5: for an index [i] that is not negative, the index parsed from the
    name of chunk [i] is [max(1, i)], whatever the number of digits, and a
    directory that holds this chunk alone is resumed at this index. *)
Theorem chunk_index_round_trip i c :
  0 ≤ i →
  parse_index (Name.chunk_name OUTPUT_PREFIX i) = Some (Z.max 1 i) ∧
  index_of_dir {[Name.chunk_name OUTPUT_PREFIX i := c]} = Z.max 1 i.
Proof.
  intros Hi. split; [by apply parse_index_chunk_name|].
  destruct (index_of_dir_cases {[Name.chunk_name OUTPUT_PREFIX i := c]})
    as [[Hno _]|(m & Hm & _ & ->)].
  - exfalso. apply (Hno (Name.chunk_name OUTPUT_PREFIX i)). split.
    + rewrite lookup_singleton_eq. eauto.
    + apply NameFacts.glob_match_chunk_name.
  - apply is_chunk_singleton in Hm as ->. by rewrite parse_index_chunk_name.
Qed.

Lemma chunk_index_round_trip_witness :
  0 ≤ 123456 ∧
  index_of_dir {[Name.chunk_name OUTPUT_PREFIX 123456 := [[97; 10]%N]]} = Z.max 1 123456.
Proof.
  split; [lia|]. apply (chunk_index_round_trip 123456 [[97; 10]%N]). lia.
Defined.

(** X6: the start index depends on the names that match the glob only, not
    on the content of the files nor on files of other names, and it is at
    least 1. *)
Theorem start_index_by_names dir dir' :
  (∀ n, is_chunk dir n ↔ is_chunk dir' n) →
  index_of_dir dir = index_of_dir dir' ∧ 1 ≤ index_of_dir dir.
Proof.
  intros Hsame. split; [|apply index_of_dir_pos].
  destruct (index_of_dir_cases dir) as [[Hno ->]|(m & Hm & Hmax & ->)];
    destruct (index_of_dir_cases dir') as [[Hno' ->]|(m' & Hm' & Hmax' & ->)].
  - done.
  - exfalso. by apply (Hno m'), Hsame.
  - exfalso. by apply (Hno' m), Hsame.
  - assert (m = m') as ->; [|done].
    apply (anti_symm String.le); [apply Hmax'|apply Hmax]; by apply Hsame.
Qed.

Lemma start_index_by_names_witness :
  (∀ n, is_chunk ({["dshield-merged-00003.log" := [[97; 10]%N]]}
                    : gmap string (list (list N))) n
        ↔ is_chunk ({["dshield-merged-00003.log" := []; "notes.txt" := [[98; 10]%N]]}
                      : gmap string (list (list N))) n) ∧
  index_of_dir {["dshield-merged-00003.log" := [[97; 10]%N]]}
  = index_of_dir {["dshield-merged-00003.log" := []; "notes.txt" := [[98; 10]%N]]}.
Proof.
  assert (H : ∀ n, is_chunk ({["dshield-merged-00003.log" := [[97; 10]%N]]}
                    : gmap string (list (list N))) n
        ↔ is_chunk ({["dshield-merged-00003.log" := []; "notes.txt" := [[98; 10]%N]]}
                      : gmap string (list (list N))) n).
  { intros n. unfold is_chunk. split; intros [[c Hc] Hg].
    - apply lookup_singleton_Some in Hc as [<- _]. split; [|done].
      rewrite lookup_insert_eq. eauto.
    - split; [|done].
      destruct (decide (n = "dshield-merged-00003.log")) as [->|Hne].
      + rewrite lookup_singleton_eq. eauto.
      + rewrite lookup_insert_ne in Hc by done.
        apply lookup_singleton_Some in Hc as [<- _]. by vm_compute in Hg. }
  split; [exact H|].
  exact (proj1 (start_index_by_names _ _ H)).
Defined.

(** ** The state store *)

Lemma state_paths_differ :
  STATE_FILE +:+ ".tmp" ≠ STATE_FILE ∧ STATE_FILE +:+ ".bak" ≠ STATE_FILE ∧
  STATE_FILE +:+ ".tmp" ≠ STATE_FILE +:+ ".bak".
Proof. split_and!; vm_compute; discriminate. Qed.

(** X8: a state file that is not JSON gives the empty document.  When the
    rename succeeds the file is moved to the [.bak] path, replacing what was
    there, and a second load finds no state file and gives the empty
    document with no effect; when the rename fails nothing is changed.  The
    output, the logs and the inputs are not touched. *)
Theorem corrupt_state_is_set_aside w :
  w_state w !! STATE_FILE = Some NotJson →
  ∃ w',
    load_state w = (Ok (JObject empty_state), w') ∧
    w_out w' = w_out w ∧ w_logs w' = w_logs w ∧ w_inputs w' = w_inputs w ∧
    (if w_rename_ok w then
       w_state w' = <[STATE_FILE +:+ ".bak" := NotJson]> (delete STATE_FILE (w_state w)) ∧
       w_trace w' = w_trace w ++ [EvRename STATE_FILE (STATE_FILE +:+ ".bak")] ∧
       load_state w' = (Ok (JObject empty_state), w')
     else w' = w).
Proof.
  intros Hs. pose proof (load_state_cases w) as H. rewrite Hs in H.
  eexists. split; [exact H|].
  destruct state_paths_differ as (_ & Hbak & _).
  destruct (w_rename_ok w); [|done].
  split_and!; [done..|].
  match goal with |- load_state ?x = _ => pose proof (load_state_cases x) as H' end.
  cbn [w_state add_event set_state] in H'.
  rewrite lookup_insert_ne, lookup_delete_eq in H' by done. exact H'.
Qed.

Lemma corrupt_state_is_set_aside_witness :
  w_state corrupt_state_world !! STATE_FILE = Some NotJson ∧
  ∃ w', load_state corrupt_state_world = (Ok (JObject empty_state), w') ∧
        w_state w' = {[STATE_FILE +:+ ".bak" := NotJson]}.
Proof.
  assert (H : w_state corrupt_state_world !! STATE_FILE = Some NotJson)
    by (vm_compute; reflexivity).
  split; [exact H|].
  destruct (corrupt_state_is_set_aside corrupt_state_world H)
    as (w' & Hload & _ & _ & _ & Hst).
  exists w'. split; [exact Hload|].
  change (w_rename_ok corrupt_state_world) with true in Hst.
  destruct Hst as (-> & _). apply map_eq. intros k.
  destruct (decide (k = STATE_FILE +:+ ".bak")) as [->|Hk].
  - by rewrite lookup_insert_eq, lookup_singleton_eq.
  - rewrite lookup_insert_ne, lookup_singleton_ne by done.
    destruct (decide (k = STATE_FILE)) as [->|Hk'].
    + by rewrite lookup_delete_eq.
    + rewrite lookup_delete_ne by done. unfold corrupt_state_world. cbn [w_state].
      rewrite lookup_insert_ne by done. by rewrite lookup_singleton_ne.
Defined.

(** X9: a state file holding JSON that is not an object is not treated as
    corrupted: the run stops with [AttributeError] right after loading,
    before any input is looked at, and leaves the file in place. *)
Theorem non_object_state_stops_run B w :
  w_state w !! STATE_FILE = Some JsonOther →
  ∃ w',
    process_with B w = (Raise AttributeError, w') ∧
    w' = add_event (EvMkdir OUTPUT_DIR) w ∧
    w_state w' !! STATE_FILE = Some JsonOther.
Proof.
  intros Hs. eexists. split_and!; [|reflexivity|exact Hs].
  rewrite process_with_eq. cbv zeta.
  pose proof (load_state_cases (add_event (EvMkdir OUTPUT_DIR) w)) as H.
  change (w_state (add_event (EvMkdir OUTPUT_DIR) w)) with (w_state w) in H.
  rewrite Hs in H. by rewrite H.
Qed.

Lemma non_object_state_stops_run_witness :
  w_state non_object_state_world !! STATE_FILE = Some JsonOther ∧
  ∃ w', process_with CHUNK_BYTES non_object_state_world = (Raise AttributeError, w').
Proof.
  assert (H : w_state non_object_state_world !! STATE_FILE = Some JsonOther)
    by (vm_compute; reflexivity).
  split; [exact H|].
  destruct (non_object_state_stops_run CHUNK_BYTES non_object_state_world H)
    as (w' & Hrun & _).
  by exists w'.
Defined.

(** ** Closing and rotating *)

(** X10: [close] on an open writer flushes, syncs and closes the current
    chunk: the directory then holds all the data written, and the size of
    the current chunk is the counter.  A second [close] does nothing;
    [write_line] and [rotate] on a closed writer raise [AttributeError] and
    change nothing. *)
Theorem close_flushes_everything wr w line :
  wf wr w →
  ∃ wr' w',
    close wr w = (Ok wr', w') ∧
    fh wr' = None ∧
    w_out w' = logical wr (w_out w) ∧
    chunk_size (default [] (w_out w' !! current wr)) = bytes_in_chunk wr ∧
    w_trace w' = w_trace w ++ [EvFlush (out_path (current wr));
                               EvFsync (out_path (current wr));
                               EvClose (out_path (current wr))] ∧
    close wr' w' = (Ok wr', w') ∧
    write_line line wr' w' = (Raise AttributeError, w') ∧
    rotate wr' w' = (Raise AttributeError, w').
Proof.
  intros Hwf. destruct (close_wf wr w Hwf) as (wr0 & evs0 & _ & _ & Hsize & _).
  destruct Hwf as [[buf Hfh] _ _].
  rewrite (close_with_out wr _ w Hfh). eexists _, _. split; [reflexivity|].
  split_and!; [done|done|by rewrite Hsize|done|done| |done].
  unfold write_line, write_data. cbn [fh bytes_in_chunk chunk_bytes].
  unfold bind, rotate. cbn [fh].
  by destruct (_ && _).
Qed.

Lemma close_flushes_everything_witness :
  wf (fresh_writer 5) fresh_world ∧
  ∃ wr' w', close (fresh_writer 5) fresh_world = (Ok wr', w') ∧
            write_line short_line wr' w' = (Raise AttributeError, w').
Proof.
  split; [apply fresh_writer_wf|].
  destruct (close_flushes_everything (fresh_writer 5) fresh_world short_line
              (fresh_writer_wf 5)) as (wr' & w' & Hc & _ & _ & _ & _ & _ & Hw & _).
  by exists wr', w'.
Defined.

(** X11: [rotate] flushes, syncs and closes the current chunk before it
    opens the next index with ["wb"]: the directory after it is the logical
    content before it with the new chunk empty, so the chunk left behind
    holds all the data written to it. *)
Theorem rotate_keeps_the_data wr w :
  wf wr w →
  ∃ wr' w',
    rotate wr w = (Ok wr', w') ∧
    index wr' = index wr + 1 ∧ bytes_in_chunk wr' = 0 ∧
    w_out w' = <[current wr' := []]> (logical wr (w_out w)) ∧
    (current wr' ≠ current wr →
     w_out w' !! current wr = logical wr (w_out w) !! current wr) ∧
    w_trace w' = w_trace w ++ [EvFlush (out_path (current wr));
                               EvFsync (out_path (current wr));
                               EvClose (out_path (current wr));
                               EvOpen (out_path (current wr')) "wb"].
Proof.
  intros Hwf.
  destruct (rotate_wf wr w Hwf) as (wr' & dir & evs & Hrun & _ & Hi & Hb & _ & -> & ->).
  exists wr', (with_out w (<[current wr' := []]> (logical wr (w_out w)))
                 [EvFlush (out_path (current wr)); EvFsync (out_path (current wr));
                  EvClose (out_path (current wr)); EvOpen (out_path (current wr')) "wb"]).
  split_and!; [done..| |done].
  intros Hne. cbn [w_out with_out]. by rewrite lookup_insert_ne.
Qed.

Lemma rotate_keeps_the_data_witness :
  wf (fresh_writer 5) fresh_world ∧
  ∃ wr' w', rotate (fresh_writer 5) fresh_world = (Ok wr', w') ∧ index wr' = 2.
Proof.
  split; [apply fresh_writer_wf|].
  destruct (rotate_keeps_the_data (fresh_writer 5) fresh_world (fresh_writer_wf 5))
    as (wr' & w' & Hr & Hi & _).
  by exists wr', w'.
Defined.

(** ** The order of the data in the chunks *)

Lemma span_ext p dir dir' i j :
  (∀ k, i ≤ k ≤ j → dir !! Name.chunk_name p k = dir' !! Name.chunk_name p k) →
  span p dir i j = span p dir' i j.
Proof.
  intros H. unfold span. f_equal. apply Forall_fmap_ext_1, Forall_seqZ.
  intros k Hk. rewrite H; [done|lia].
Qed.

Lemma span_last p dir i j :
  i ≤ j →
  span p dir i j = span p dir i (j - 1) ++ default [] (dir !! Name.chunk_name p j).
Proof.
  intros Hij. unfold span.
  replace (j - i + 1) with ((j - 1 - i + 1) + 1) by lia.
  rewrite seqZ_app by lia. rewrite fmap_app, concat_app.
  replace (i + (j - 1 - i + 1)) with j by lia.
  rewrite (seqZ_cons j 1) by lia. rewrite (seqZ_nil (Z.succ j)) by lia.
  simpl. by rewrite app_nil_r.
Qed.

Lemma span_single p dir i : span p dir i i = default [] (dir !! Name.chunk_name p i).
Proof.
  rewrite span_last by lia. unfold span. rewrite seqZ_nil by lia. done.
Qed.

Lemma astart_span_inv p start dir0 :
  span_inv p start dir0 (astart p start dir0)
    (default [] (dir0 !! Name.chunk_name p start)).
Proof.
  unfold astart, opened. split; cbn [a_index a_dir].
  - lia.
  - rewrite span_single.
    destruct (dir0 !! Name.chunk_name p start) eqn:E; [by rewrite E|].
    by rewrite lookup_insert_eq.
  - intros k Hk. lia.
  - intros n Hn. destruct (dir0 !! Name.chunk_name p start) eqn:E; [done|].
    rewrite lookup_insert_ne; [done|]. intros Heq. apply (Hn start); [lia|done].
Qed.

Lemma awrite_span_inv p start B dir0 a pieces d :
  0 ≤ start → a_ok p a →
  span_inv p start dir0 a pieces →
  span_inv p start dir0 (awrite p B a d) (pieces ++ [d]).
Proof.
  intros Hstart [Hex Hbytes] [Hi Hspan Hpassed Hothers]. unfold awrite.
  destruct (must_rotate B (a_bytes a) d) eqn:Hrot; cbv zeta; split; cbn [a_index a_dir].
  - lia.
  - rewrite span_last by lia. replace (a_index a + 1 - 1) with (a_index a) by lia.
    rewrite lookup_insert_eq. simpl. rewrite <- Hspan. f_equal.
    apply span_ext. intros k Hk. rewrite lookup_insert_ne; [done|].
    intros Heq. apply chunk_name_inj_nonneg in Heq; lia.
  - intros k Hk.
    rewrite lookup_insert_ne by (intros Heq; apply chunk_name_inj_nonneg in Heq; lia).
    destruct (decide (k = a_index a)) as [->|Hne]; [|apply Hpassed; lia].
    rewrite <- Hbytes. unfold must_rotate in Hrot.
    apply andb_true_iff in Hrot as [_ Hpos]. by apply Z.ltb_lt in Hpos.
  - intros n Hn. rewrite lookup_insert_ne.
    + apply Hothers. intros k Hk. apply Hn. lia.
    + intros Heq. apply (Hn (a_index a + 1)); [lia|done].
  - lia.
  - rewrite span_last by lia. rewrite lookup_insert_eq. simpl.
    rewrite <- Hspan, (span_last p (a_dir a) start (a_index a)) by lia.
    rewrite <- app_assoc. f_equal.
    apply span_ext. intros k Hk. rewrite lookup_insert_ne; [done|].
    intros Heq. apply chunk_name_inj_nonneg in Heq; lia.
  - intros k Hk.
    rewrite lookup_insert_ne by (intros Heq; apply chunk_name_inj_nonneg in Heq; lia).
    apply Hpassed; lia.
  - intros n Hn. rewrite lookup_insert_ne.
    + by apply Hothers.
    + intros Heq. apply (Hn (a_index a)); [lia|done].
Qed.

Lemma foldl_awrite_span_inv p start B dir0 datas a pieces :
  0 ≤ start → a_ok p a →
  span_inv p start dir0 a pieces →
  span_inv p start dir0 (foldl (awrite p B) a datas) (pieces ++ datas).
Proof.
  intros Hstart. revert a pieces.
  induction datas as [|d datas IH]; intros a pieces Hok Hinv.
  - by rewrite app_nil_r.
  - simpl. rewrite (cons_middle d), app_assoc. apply IH.
    + by apply awrite_a_ok.
    + by apply awrite_span_inv.
Qed.

(** X12: after a session started at an index that is not negative, the
    chunks from the start index to the last index, one after the other, hold
    what the start chunk held before followed by the encoded lines in the
    order written; every chunk that was rotated out of is not empty; the
    files of other names are as before. *)
Theorem session_keeps_the_order p start B lines w :
  0 ≤ start →
  ∃ wr' w',
    session p start B lines w = (Ok wr', w') ∧
    start ≤ index wr' ∧
    span p (w_out w') start (index wr')
      = default [] (w_out w !! Name.chunk_name p start) ++ (Text.encode <$> lines) ∧
    (∀ k, start ≤ k < index wr' →
          0 < chunk_size (default [] (w_out w' !! Name.chunk_name p k))) ∧
    (∀ n, (∀ k, start ≤ k ≤ index wr' → n ≠ Name.chunk_name p k) →
          w_out w' !! n = w_out w !! n).
Proof.
  intros Hstart.
  destruct (session_spec p start B lines w) as (wr & evs & Hrun & Hidx & _).
  cbv zeta in Hrun, Hidx.
  destruct (foldl_awrite_span_inv p start B (w_out w) (Text.encode <$> lines)
              (astart p start (w_out w)) _ Hstart (astart_a_ok p start (w_out w))
              (astart_span_inv p start (w_out w))) as [Hi Hspan Hpassed Hothers].
  eexists _, _. split; [exact Hrun|]. rewrite Hidx. by split_and!.
Qed.

Lemma session_keeps_the_order_witness :
  0 ≤ 1 ∧
  ∃ wr' w',
    session OUTPUT_PREFIX 1 5 [long_line; short_line; short_line] resumed_world = (Ok wr', w') ∧
    span OUTPUT_PREFIX (w_out w') 1 (index wr')
      = [[97; 10]%N] ++ (Text.encode <$> [long_line; short_line; short_line]).
Proof.
  split; [lia|].
  destruct (session_keeps_the_order OUTPUT_PREFIX 1 5 [long_line; short_line; short_line]
              resumed_world) as (wr' & w' & Hrun & _ & Hspan & _); [lia|].
  by exists wr', w'.
Defined.

(** ** What the loop does to the locals *)

Lemma is_duplicate_lookup P p f :
  P !! p = Some (sig_of f) →
  is_duplicate P p (st_ino f) (st_size f) (st_mtime f) = true.
Proof.
  intros HP. apply is_duplicate_iff. exists (sig_of f). split; [done|].
  apply sig_entry_lookup.
Qed.

Lemma is_duplicate_same P P' p ino size mtime :
  P' !! p = P !! p → is_duplicate P' p ino size mtime = is_duplicate P p ino size mtime.
Proof. unfold is_duplicate. by intros ->. Qed.

Lemma iteration_summary path l w r wr' datas evs :
  iteration path l w r wr' datas evs → loop_summary [path] w l r.
Proof.
  destruct 1 as [Hf|f Hf Hdup|f wr1 evs1 Hf Hdup Herr|f e wr1 evs1 Hf Hdup Herr Hos _
                |f e wr1 evs1 Hf Hdup Herr Hos _]; unfold loop_summary; cbn [length].
  - split_and!; [done|by left|lia|lia|lia|]. intros p f [->|[]%elem_of_nil]%elem_of_cons.
    congruence.
  - cbn [l_processed processed_count last_mtime_seen].
    split_and!; [done|by left|lia|lia|lia|].
    intros p f' [->|[]%elem_of_nil]%elem_of_cons Hf' _.
    assert (f' = f) as -> by congruence. split; [done|lia].
  - cbn [l_processed processed_count last_mtime_seen]. split_and!; [| |lia|lia|lia|].
    + intros p Hp. rewrite lookup_insert_ne; [done|].
      intros <-. apply Hp, elem_of_cons. by left.
    + intros p. destruct (decide (p = path)) as [->|Hne].
      * right. exists f. rewrite lookup_insert_eq.
        split_and!; [apply elem_of_cons; by left|done..].
      * left. by rewrite lookup_insert_ne.
    + intros p f' [->|[]%elem_of_nil]%elem_of_cons Hf' _.
      assert (f' = f) as -> by congruence.
      split; [apply is_duplicate_insert_eq|lia].
  - cbn [l_processed processed_count last_mtime_seen].
    split_and!; [done|by left|lia|lia|lia|].
    intros p f' [->|[]%elem_of_nil]%elem_of_cons Hf'. congruence.
  - exists path, f. split_and!; [apply elem_of_cons; by left|done..].
Qed.

Lemma process_inputs_summary inputs l w r w' :
  wf (writer l) w →
  process_inputs inputs l w = (r, w') →
  loop_summary inputs w l r.
Proof.
  revert l w. induction inputs as [|path inputs IH]; intros l w Hwf Hrun.
  { simpl in Hrun. injection Hrun as <- <-. unfold loop_summary. cbn [length].
    split_and!; [done|by left|lia|lia|lia|]. by intros p f []%elem_of_nil. }
  destruct (process_one_spec path l w Hwf)
    as (r1 & wr1 & datas1 & dir1 & evs1 & Hrun1 & Hit1 & Hwf1 & _).
  simpl in Hrun. unfold bind in Hrun. rewrite Hrun1 in Hrun.
  pose proof (iteration_summary _ _ _ _ _ _ _ Hit1) as H1.
  destruct r1 as [l1|e].
  2:{ injection Hrun as <- <-. destruct H1 as (p & f & Hp & H1).
      exists p, f. split; [|done].
      by apply elem_of_cons in Hp as [->|[]%elem_of_nil]; apply elem_of_cons; left. }
  pose proof (iteration_writer _ _ _ _ _ _ _ Hit1) as Hwr1. subst wr1.
  specialize (IH l1 _ Hwf1 Hrun).
  change (w_logs (with_out w dir1 evs1)) with (w_logs w) in IH.
  destruct r as [l'|e].
  2:{ destruct IH as (p & f & Hp & IH). exists p, f. split; [|done].
      apply elem_of_cons. by right. }
  unfold loop_summary in *.
  change (loop_summary inputs (with_out w dir1 evs1) l1 (Ok l')) in IH.
  unfold loop_summary in IH. change (w_logs (with_out w dir1 evs1)) with (w_logs w) in IH.
  destruct H1 as (Hout1 & Hin1 & Hc1 & Hl1 & Hm1).
  destruct IH as (Hout2 & Hin2 & Hc2 & Hl2 & Hm2).
  cbn [length] in *.
  split_and!; [| |lia|lia|lia|].
  - intros p [Hp1 Hp2]%not_elem_of_cons.
    rewrite Hout2 by done. apply Hout1.
    by intros [->|[]%elem_of_nil]%elem_of_cons.
  - intros p. destruct (Hin2 p) as [E2|(f & Hp & Hf & Herr & E2)].
    + rewrite E2. destruct (Hin1 p) as [E1|(f & Hp & Hf & Herr & E1)]; [by left|].
      right. exists f. split_and!; [|done..].
      apply elem_of_cons in Hp as [->|[]%elem_of_nil]. apply elem_of_cons. by left.
    + right. exists f. split_and!; [apply elem_of_cons; by right|done..].
  - intros p f Hp Hf Herr.
    assert (Hkeep : ∀ q g, w_logs w !! q = Some g →
              is_duplicate (l_processed l1) q (st_ino g) (st_size g) (st_mtime g) = true →
              is_duplicate (l_processed l') q (st_ino g) (st_size g) (st_mtime g) = true).
    { intros q g Hg Hd. destruct (Hin2 q) as [E2|(g' & _ & Hg' & _ & E2)].
      - by rewrite (is_duplicate_same _ _ _ _ _ _ E2).
      - assert (g' = g) as -> by congruence. by apply is_duplicate_lookup. }
    apply elem_of_cons in Hp as [->|Hp].
    + destruct (Hm1 path f) as [Hd Hle]; [apply elem_of_cons; by left|done..|].
      split; [by apply Hkeep|lia].
    + by apply Hm2.
Qed.

(** ** The state a run loads and the state it leaves *)

(** What the state file of a world is to the next run, and what loading
    does to the state directory. *)
Lemma load_state_stored w d w1 :
  load_state (add_event (EvMkdir OUTPUT_DIR) w) = (Ok (JObject d), w1) →
  default ∅ (processed d) = stored_processed w ∧
  default 0 (last_processed_mtime d) = stored_watermark w ∧
  stored_processed w1 = stored_processed w ∧
  stored_watermark w ≤ stored_watermark w1 ∧
  (w_state w1 !! STATE_FILE = w_state w !! STATE_FILE ∨
   w_state w !! STATE_FILE = Some NotJson ∧ w_state w1 !! STATE_FILE = None).
Proof.
  intros Hload.
  pose proof (load_state_cases (add_event (EvMkdir OUTPUT_DIR) w)) as H.
  change (w_state (add_event (EvMkdir OUTPUT_DIR) w)) with (w_state w) in H.
  change (w_rename_ok (add_event (EvMkdir OUTPUT_DIR) w)) with (w_rename_ok w) in H.
  unfold stored_processed, stored_watermark.
  destruct (w_state w !! STATE_FILE) as [[| | | |d']|] eqn:Hs;
    rewrite H in Hload; try discriminate Hload; injection Hload as <- <-.
  - destruct state_paths_differ as (_ & Hbak & _).
    destruct (w_rename_ok w); cbn [w_state add_event set_state].
    + rewrite lookup_insert_ne, lookup_delete_eq by done. split_and!; [done..|lia|].
      by right.
    + rewrite Hs. split_and!; [done..|lia|]. by left.
  - cbn [w_state add_event]. rewrite Hs. split_and!; [done..|lia|]. by left.
  - cbn [w_state add_event]. rewrite Hs. split_and!; [done..|lia|]. by left.
Qed.

Lemma stored_after_save st w1 e :
  stored_processed (add_event e (saved st w1)) = default ∅ (processed st) ∧
  stored_watermark (add_event e (saved st w1)) = default 0 (last_processed_mtime st).
Proof.
  unfold stored_processed, stored_watermark. cbn [w_state add_event saved].
  by rewrite lookup_insert_eq.
Qed.

(** The run as its loop leaves it: the locals of a run that returns in a
    world with inputs, and the failing input of one that does not. *)
Lemma process_with_summary B w r w' :
  process_with B w = (r, w') →
  match r with
  | Ok _ =>
      w_inputs w = [] ∧ stored_processed w' = stored_processed w ∧
      stored_watermark w ≤ stored_watermark w'
      ∨ ∃ l wr0,
          loop_summary (w_inputs w) w
            (Locals (stored_processed w) (stored_watermark w) 0 wr0) (Ok l) ∧
          stored_processed w' = l_processed l ∧
          stored_watermark w' = last_mtime_seen l
  | Raise e =>
      ((w_state w !! STATE_FILE = Some Unreadable ∧ e = PermissionError) ∨
       (w_state w !! STATE_FILE = Some NotUtf8 ∧ e = UnicodeDecodeError) ∨
       (w_state w !! STATE_FILE = Some JsonOther ∧ e = AttributeError) ∨
       (∃ p f, p ∈ w_inputs w ∧ w_logs w !! p = Some f ∧
               gz_error f = Some e ∧ is_OSError e = false)) ∧
      (w_state w' !! STATE_FILE = w_state w !! STATE_FILE ∨
       w_state w !! STATE_FILE = Some NotJson ∧ w_state w' !! STATE_FILE = None) ∧
      ∃ evs, w_trace w' = w_trace w ++ evs ∧ Forall (λ ev, ¬ persist_event ev) evs
  end.
Proof.
  intros Hrun.
  destruct (load_state (add_event (EvMkdir OUTPUT_DIR) w)) as [[[d|]|e] w1] eqn:Hload.
  - destruct (load_state_stored _ _ _ Hload) as (HP & HW & HP1 & HW1 & Hst).
    destruct (load_state_frame _ _ _ Hload) as (_ & _ & _ & _ & evsl & Htr1 & Hevsl).
    destruct (decide (w_inputs w = [])) as [Hnil|Hne].
    + rewrite process_with_eq in Hrun. cbv zeta in Hrun. rewrite Hload in Hrun.
      destruct (load_state_frame _ _ _ Hload) as (Hin1 & _).
      change (w_inputs (add_event (EvMkdir OUTPUT_DIR) w)) with (w_inputs w) in Hin1.
      rewrite Hin1, Hnil in Hrun. injection Hrun as <- <-. left. by split_and!.
    + destruct (process_with_run B w d w1 Hload Hne)
        as (r0 & wr' & datas & dir & evs & (wr0 & w3 & _ & Hwf0 & Hlogs3 & Hloop)
            & _ & _ & _ & _ & Hevs & Heq).
      cbv zeta in Heq. rewrite Heq in Hrun.
      pose proof (process_inputs_summary (w_inputs w)
                    (Locals (default ∅ (processed d)) (default 0 (last_processed_mtime d))
                       0 wr0) w3 r0 _ Hwf0 Hloop) as Hsum.
      rewrite HP, HW in Hsum.
      destruct r0 as [l|e]; injection Hrun as <- <-.
      * right. exists l, wr0.
        match goal with
        | |- context [stored_processed (add_event ?e (saved ?st ?w1))] =>
            destruct (stored_after_save st w1 e) as [-> ->]
        end.
        split; [|by split].
        unfold loop_summary in *. by rewrite <- Hlogs3.
      * split_and!.
        -- do 3 right. destruct Hsum as (p & f & Hp & Hf & Herr & Hos).
           exists p, f. rewrite <- Hlogs3. by split_and!.
        -- exact Hst.
        -- exists ([EvMkdir OUTPUT_DIR] ++ evsl ++ [EvMkdir OUTPUT_DIR] ++ evs). split.
           ++ rewrite w_trace_with_out, w_trace_add_event, Htr1, w_trace_add_event.
              by rewrite <- !app_assoc.
           ++ apply Forall_app. split; [repeat constructor; auto|].
              apply Forall_app. split; [by apply state_events_not_persist|].
              apply Forall_app. split; [repeat constructor; auto|].
              eapply Forall_impl; [exact Hevs|]. apply loop_event_not_persist.
  - rewrite process_with_eq in Hrun. cbv zeta in Hrun. rewrite Hload in Hrun.
    injection Hrun as <- <-.
    pose proof (load_state_cases (add_event (EvMkdir OUTPUT_DIR) w)) as H.
    change (w_state (add_event (EvMkdir OUTPUT_DIR) w)) with (w_state w) in H.
    destruct (w_state w !! STATE_FILE) as [[| | | |d']|] eqn:Hs;
      rewrite H in Hload; try discriminate Hload. injection Hload as <-.
    split_and!; [by do 2 right; left|by left|].
    exists [EvMkdir OUTPUT_DIR]. split; [done|]. repeat constructor; auto.
  - rewrite process_with_eq in Hrun. cbv zeta in Hrun. rewrite Hload in Hrun.
    injection Hrun as <- <-.
    pose proof (load_state_cases (add_event (EvMkdir OUTPUT_DIR) w)) as H.
    change (w_state (add_event (EvMkdir OUTPUT_DIR) w)) with (w_state w) in H.
    destruct (w_state w !! STATE_FILE) as [[| | | |d']|] eqn:Hs;
      rewrite H in Hload; try discriminate Hload; injection Hload as <- <-.
    + split_and!; [by left|by left|].
      exists [EvMkdir OUTPUT_DIR]. split; [done|]. repeat constructor; auto.
    + split_and!; [by right; left|by left|].
      exists [EvMkdir OUTPUT_DIR]. split; [done|]. repeat constructor; auto.
Qed.

(** X13: a run that returns never prunes the processed map: entries of
    paths that are not among the inputs are kept as they are, no entry is
    removed, an entry that changed belongs to an input read to its end and is
    its present signature; and the watermark is not lowered. *)
Theorem processed_map_only_grows B w r w' :
  process_with B w = (Ok r, w') →
  (∀ p, p ∉ w_inputs w → stored_processed w' !! p = stored_processed w !! p) ∧
  (∀ p, is_Some (stored_processed w !! p) → is_Some (stored_processed w' !! p)) ∧
  (∀ p, stored_processed w' !! p = stored_processed w !! p ∨
        ∃ f, p ∈ w_inputs w ∧ w_logs w !! p = Some f ∧ gz_error f = None ∧
             stored_processed w' !! p = Some (sig_of f)) ∧
  stored_watermark w ≤ stored_watermark w'.
Proof.
  intros Hrun.
  destruct (process_with_summary B w _ _ Hrun)
    as [(_ & HP & HW)|(l & wr0 & Hsum & HP & HW)].
  - rewrite HP. split_and!; [done|done|by left|done].
  - destruct Hsum as (Hout & Hin & _ & Hlast & _).
    cbn [l_processed last_mtime_seen] in *. rewrite HP, HW.
    split_and!; [done| |done|done].
    intros p Hp. destruct (Hin p) as [->|(f & _ & _ & _ & ->)]; [done|eauto].
Qed.

Lemma processed_map_only_grows_witness :
  process_with CHUNK_BYTES one_log_world
    = (Ok 0, (process_with CHUNK_BYTES one_log_world).2) ∧
  stored_watermark one_log_world
    ≤ stored_watermark (process_with CHUNK_BYTES one_log_world).2.
Proof.
  assert (Hrun : process_with CHUNK_BYTES one_log_world
                 = (Ok 0, (process_with CHUNK_BYTES one_log_world).2))
    by (vm_compute; reflexivity).
  split; [exact Hrun|].
  exact (proj2 (proj2 (proj2 (processed_map_only_grows CHUNK_BYTES one_log_world 0 _ Hrun)))).
Defined.



(** X15: a run that ends with [EOFError] or [zlib.error] has failed on an
    input that is present, while reading it; it has written no state
    document: the state file is as it was, or set aside when it was not
    JSON, and nothing was dumped or put in its place. *)
Theorem read_failure_saves_nothing B w e w' :
  process_with B w = (Raise e, w') →
  e = EOFError ∨ e = ZlibError →
  (∃ p f, p ∈ w_inputs w ∧ w_logs w !! p = Some f ∧ gz_error f = Some e) ∧
  (w_state w' !! STATE_FILE = w_state w !! STATE_FILE ∨
   w_state w !! STATE_FILE = Some NotJson ∧ w_state w' !! STATE_FILE = None) ∧
  ∃ evs, w_trace w' = w_trace w ++ evs ∧ Forall (λ ev, ¬ persist_event ev) evs.
Proof.
  intros Hrun He.
  destruct (process_with_summary B w _ _ Hrun) as (Hways & Hstate & Htrace).
  split_and!; [|done..].
  destruct Hways as [[_ ->]|[[_ ->]|[[_ ->]|(p & f & Hp & Hf & Herr & _)]]];
    [by destruct He..|].
  by exists p, f.
Qed.

Lemma read_failure_saves_nothing_witness :
  (process_with CHUNK_BYTES truncated_world
     = (Raise EOFError, (process_with CHUNK_BYTES truncated_world).2) ∧
   (EOFError = EOFError ∨ EOFError = ZlibError)) ∧
  ∃ p f, p ∈ w_inputs truncated_world ∧ w_logs truncated_world !! p = Some f ∧
         gz_error f = Some EOFError.
Proof.
  assert (Hrun : process_with CHUNK_BYTES truncated_world
                 = (Raise EOFError, (process_with CHUNK_BYTES truncated_world).2))
    by (vm_compute; reflexivity).
  split; [split; [exact Hrun|by left]|].
  exact (proj1 (read_failure_saves_nothing CHUNK_BYTES truncated_world EOFError _ Hrun
                  (or_introl eq_refl))).
Defined.

(** ** Inputs seen before *)

(** X16: when every input is gone or recorded under its present signature,
    the loop writes nothing and reports nothing: the world, the processed
    map, the count and the writer are unchanged; the watermark moves up to
    the largest modification time among the inputs present, if larger. *)
Theorem seen_inputs_are_passed_over inputs P last count wr w :
  (∀ p, p ∈ inputs → marked w P p) →
  ∃ last',
    process_inputs inputs (Locals P last count wr) w = (Ok (Locals P last' count wr), w) ∧
    last ≤ last' ∧
    (∀ p f, p ∈ inputs → w_logs w !! p = Some f → st_mtime f ≤ last') ∧
    (last' = last ∨ ∃ p f, p ∈ inputs ∧ w_logs w !! p = Some f ∧ last' = st_mtime f).
Proof.
  revert last. induction inputs as [|path inputs IH]; intros last Hall.
  { exists last. split_and!; [done|lia| |by left]. by intros p f []%elem_of_nil. }
  simpl. unfold bind, process_one, bind. rewrite try_signature_eq.
  assert (Hrest : ∀ p, p ∈ inputs → marked w P p).
  { intros p Hp. apply Hall, elem_of_cons. by right. }
  destruct (w_logs w !! path) as [f|] eqn:Hf; simpl.
  - rewrite (Hall path); [|apply elem_of_cons; by left|done]. simpl.
    destruct (IH (Z.max last (st_mtime f)) Hrest) as (last' & -> & Hle & Hbound & Hwhich).
    exists last'. split_and!; [done|lia| |].
    + intros p g [->|Hp]%elem_of_cons Hg; [|by eapply Hbound].
      assert (g = f) as -> by congruence. lia.
    + destruct Hwhich as [->|(p & g & Hp & Hg & ->)].
      * destruct (Z.max_spec last (st_mtime f)) as [[_ ->]|[_ ->]]; [|by left].
        right. exists path, f. split_and!; [apply elem_of_cons; by left|done..].
      * right. exists p, g. split_and!; [apply elem_of_cons; by right|done..].
  - destruct (IH last Hrest) as (last' & -> & Hle & Hbound & Hwhich).
    exists last'. split_and!; [done|lia| |].
    + intros p g [->|Hp]%elem_of_cons Hg; [congruence|by eapply Hbound].
    + destruct Hwhich as [->|(p & g & Hp & Hg & ->)]; [by left|].
      right. exists p, g. split_and!; [apply elem_of_cons; by right|done..].
Qed.

Lemma seen_inputs_are_passed_over_witness :
  (∀ p, p ∈ w_inputs seen_world →
        marked seen_world {["/var/log/dshield.log.1.gz" := sig_entry 11 40 1000]} p) ∧
  ∃ last',
    process_inputs (w_inputs seen_world)
      (Locals {["/var/log/dshield.log.1.gz" := sig_entry 11 40 1000]} 500 0 (fresh_writer 50))
      seen_world
    = (Ok (Locals {["/var/log/dshield.log.1.gz" := sig_entry 11 40 1000]} last' 0
             (fresh_writer 50)), seen_world).
Proof.
  assert (H : ∀ p, p ∈ w_inputs seen_world →
                marked seen_world {["/var/log/dshield.log.1.gz" := sig_entry 11 40 1000]} p).
  { intros p Hp f Hf. cbn [w_logs seen_world] in Hf.
    apply lookup_singleton_Some in Hf as [<- <-]. vm_compute. reflexivity. }
  split; [exact H|].
  destruct (seen_inputs_are_passed_over (w_inputs seen_world)
              {["/var/log/dshield.log.1.gz" := sig_entry 11 40 1000]} 500 0
              (fresh_writer 50) seen_world H) as (last' & Hrun & _).
  by exists last'.
Defined.

(** ** The end of a run *)

(** X17: in a run that found inputs and returns, the result is 0 and the
    current chunk is flushed, synced and closed right before the state is
    saved; this chunk, of an index not below the start index, exists at the
    end; the count reported is between 0 and the number of inputs. *)
Theorem chunks_closed_before_state_saved B w r w' :
  w_inputs w ≠ [] →
  process_with B w = (Ok r, w') →
  ∃ pre idx st count,
    let cur := out_path (Name.chunk_name OUTPUT_PREFIX idx) in
    r = 0 ∧
    w_trace w' = w_trace w ++ pre ++ [EvFlush cur; EvFsync cur; EvClose cur]
                   ++ save_events st ++ [EvPrint (MsgDone count)] ∧
    Forall (λ e, ¬ persist_event e) pre ∧
    index_of_dir (w_out w) ≤ idx ∧
    is_Some (w_out w' !! Name.chunk_name OUTPUT_PREFIX idx) ∧
    w_state w' !! STATE_FILE = Some (JsonObject st) ∧
    0 ≤ count ≤ Z.of_nat (length (w_inputs w)).
Proof.
  intros Hin Hrun.
  destruct (load_state (add_event (EvMkdir OUTPUT_DIR) w)) as [[[d|]|e] w1] eqn:Hload.
  2,3: rewrite process_with_eq in Hrun; cbv zeta in Hrun; by rewrite Hload in Hrun.
  destruct (load_state_frame _ _ _ Hload) as (_ & _ & _ & _ & evsl & Htr1 & Hevsl).
  destruct (process_with_run B w d w1 Hload Hin)
    as (r0 & wr' & datas & dir & evs & (wr0 & w3 & _ & Hwf0 & _ & Hloop)
        & _ & _ & Haok & _ & Hevs & Heq).
  cbv zeta in Heq.
  pose proof (process_inputs_summary (w_inputs w)
                (Locals (default ∅ (processed d)) (default 0 (last_processed_mtime d))
                   0 wr0) w3 r0 _ Hwf0 Hloop) as Hsum.
  pose proof (foldl_awrite_dom_inv OUTPUT_PREFIX B (index_of_dir (w_out w)) (w_out w) _ datas
                (astart_dom_inv OUTPUT_PREFIX (index_of_dir (w_out w)) (w_out w)))
    as (Hidx & _).
  set (af := foldl (awrite OUTPUT_PREFIX B)
               (astart OUTPUT_PREFIX (index_of_dir (w_out w)) (w_out w)) datas) in *.
  destruct Haok as [Hex _]. clearbody af.
  rewrite Heq in Hrun. destruct r0 as [l|e]; [|done].
  injection Hrun as <- <-.
  destruct Hsum as (_ & _ & Hcount & _). cbn [processed_count] in Hcount.
  exists ([EvMkdir OUTPUT_DIR] ++ evsl ++ [EvMkdir OUTPUT_DIR] ++ evs), (a_index af),
    (State (Some (l_processed l)) (Some (last_mtime_seen l))), (processed_count l).
  cbv zeta. split_and!; [done| | |done|done| |lia|lia].
  - rewrite w_trace_add_event, w_trace_saved, w_trace_with_out, w_trace_add_event, Htr1,
      w_trace_add_event.
    generalize (save_events (State (Some (l_processed l)) (Some (last_mtime_seen l)))).
    intros sv. by rewrite <- !app_assoc.
  - apply Forall_app. split; [repeat constructor; auto|].
    apply Forall_app. split; [by apply state_events_not_persist|].
    apply Forall_app. split; [repeat constructor; auto|].
    eapply Forall_impl; [exact Hevs|]. apply loop_event_not_persist.
  - cbn [w_state add_event saved]. by rewrite lookup_insert_eq.
Qed.

Lemma chunks_closed_before_state_saved_witness :
  (w_inputs one_log_world ≠ [] ∧
   process_with CHUNK_BYTES one_log_world
     = (Ok 0, (process_with CHUNK_BYTES one_log_world).2)) ∧
  ∃ idx, is_Some (w_out (process_with CHUNK_BYTES one_log_world).2
                    !! Name.chunk_name OUTPUT_PREFIX idx).
Proof.
  assert (Hin : w_inputs one_log_world ≠ []) by (vm_compute; discriminate).
  assert (Hrun : process_with CHUNK_BYTES one_log_world
                 = (Ok 0, (process_with CHUNK_BYTES one_log_world).2))
    by (vm_compute; reflexivity).
  split; [by split|].
  destruct (chunks_closed_before_state_saved CHUNK_BYTES one_log_world 0 _ Hin Hrun)
    as (pre & idx & st & count & Hc). cbv zeta in Hc.
  destruct Hc as (_ & _ & _ & _ & Hex & _).
  exists idx. exact Hex.
Defined.

(** ** The files of the output directory *)

Lemma astart_disk_inv p idx0 dir0 : disk_inv p idx0 dir0 (astart p idx0 dir0).
Proof.
  unfold disk_inv, astart, opened. cbn [a_disk].
  destruct (dir0 !! Name.chunk_name p idx0) as [c|] eqn:E; [by split; [|left]|].
  split.
  - intros n Hn. destruct (decide (Name.chunk_name p idx0 = n)) as [<-|Hne].
    + rewrite lookup_insert_eq. eauto.
    + by rewrite lookup_insert_ne.
  - intros n Hn. destruct (decide (Name.chunk_name p idx0 = n)) as [<-|Hne].
    + right. exists idx0. split; [lia|done].
    + rewrite lookup_insert_ne in Hn by done. by left.
Qed.

Lemma awrite_disk_inv p B idx0 dir0 a d :
  dom_inv p idx0 dir0 a → disk_inv p idx0 dir0 a →
  disk_inv p idx0 dir0 (awrite p B a d).
Proof.
  intros (Hidx & Hkeep & _ & Hnew) [Hdkeep Hdnew]. unfold disk_inv, awrite.
  destruct (must_rotate B (a_bytes a) d); cbn [a_disk]; [|by split].
  split.
  - intros n Hn.
    destruct (decide (Name.chunk_name p (a_index a + 1) = n)) as [<-|Hne].
    + rewrite lookup_insert_eq. eauto.
    + rewrite lookup_insert_ne by done. by apply Hkeep.
  - intros n Hn.
    destruct (decide (Name.chunk_name p (a_index a + 1) = n)) as [<-|Hne].
    + right. exists (a_index a + 1). split; [lia|done].
    + rewrite lookup_insert_ne in Hn by done.
      destruct (Hnew n Hn) as [?|(j & Hj & ->)]; [by left|].
      right. exists j. split; [lia|done].
Qed.

Lemma foldl_awrite_disk_inv p B idx0 dir0 a datas :
  dom_inv p idx0 dir0 a → disk_inv p idx0 dir0 a →
  disk_inv p idx0 dir0 (foldl (awrite p B) a datas).
Proof.
  revert a. induction datas as [|d datas IH]; intros a Hdom Hdisk; [done|].
  simpl. apply IH; [by apply awrite_dom_inv|by apply awrite_disk_inv].
Qed.

(** X18: a run, whether it returns or fails, removes no file of the output
    directory, and the files it adds are chunks of indices from the start
    index on. *)
Theorem run_removes_no_file B w :
  let w' := (process_with B w).2 in
  (∀ n, is_Some (w_out w !! n) → is_Some (w_out w' !! n)) ∧
  (∀ n, is_Some (w_out w' !! n) →
        is_Some (w_out w !! n) ∨
        ∃ j, index_of_dir (w_out w) ≤ j ∧ n = Name.chunk_name OUTPUT_PREFIX j).
Proof.
  cbv zeta.
  destruct (process_with_out_cases B w) as [->|(datas & a & -> & _ & Hout)].
  { split; [done|by left]. }
  pose proof (astart_dom_inv OUTPUT_PREFIX (index_of_dir (w_out w)) (w_out w)) as Hdom0.
  pose proof (foldl_awrite_dom_inv OUTPUT_PREFIX B _ _ _ datas Hdom0)
    as (Hidx & Hkeep & _ & Hnew).
  pose proof (foldl_awrite_disk_inv OUTPUT_PREFIX B _ _ _ datas Hdom0
                (astart_disk_inv OUTPUT_PREFIX (index_of_dir (w_out w)) (w_out w)))
    as [Hdkeep Hdnew].
  destruct Hout as [-> | ->]; split; [done|done|done|].
  intros n Hn. destruct (Hnew n Hn) as [?|(j & Hj & ->)]; [by left|].
  right. exists j. split; [lia|done].
Qed.

(** ** The watermark *)

Lemma process_one_watermark path P last last' count wr w :
  (process_one path (Locals P last count wr) w).2
  = (process_one path (Locals P last' count wr) w).2 ∧
  same_but_watermark (process_one path (Locals P last count wr) w).1
    (process_one path (Locals P last' count wr) w).1.
Proof.
  unfold process_one, bind at 1 3 5 7. rewrite try_signature_eq.
  destruct (w_logs w !! path) as [f|]; simpl; [|done].
  destruct (is_duplicate P path (st_ino f) (st_size f) (st_mtime f)); [done|].
  unfold bind. destruct (read_and_append path wr w) as [[[wr' [e|]]|e] w1]; simpl; [|done..].
  by destruct (is_OSError e).
Qed.

(** X19: the watermark decides nothing: started with another watermark, the
    loop leaves the same world and the same processed map, count and writer,
    or raises the same exception. *)
Theorem watermark_decides_nothing inputs P last last' count wr w :
  (process_inputs inputs (Locals P last count wr) w).2
  = (process_inputs inputs (Locals P last' count wr) w).2 ∧
  same_but_watermark (process_inputs inputs (Locals P last count wr) w).1
    (process_inputs inputs (Locals P last' count wr) w).1.
Proof.
  revert P last last' count wr w.
  induction inputs as [|path inputs IH]; intros P last last' count wr w; [done|].
  simpl. unfold bind.
  destruct (process_one_watermark path P last last' count wr w) as [Hw Hr].
  destruct (process_one path (Locals P last count wr) w) as [[l1|e1] w1];
    destruct (process_one path (Locals P last' count wr) w) as [[l2|e2] w2];
    simpl in Hw, Hr; try done; subst w2.
  destruct l1 as [P1 a1 c1 wr1], l2 as [P2 a2 c2 wr2]. simpl in Hr.
  destruct Hr as (-> & -> & ->). apply IH.
Qed.

Lemma prefix_drop p s :
  String.prefix p s = true → s = p +:+ Name.drop (String.length p) s.
Proof.
  revert s. induction p as [|c p IH]; intros s.
  { intros _. by destruct s. }
  destruct s as [|c' s]; [done|]. cbn [String.prefix String.length Name.drop].
  destruct (ascii_dec c c') as [->|]; [|done]. intros H.
  change (String c' p +:+ Name.drop (String.length p) s)
    with (String c' (p +:+ Name.drop (String.length p) s)).
  f_equal. by apply IH.
Qed.

(** X20: the pattern matches nine names exactly, [dshield.log.1.gz] to
    [dshield.log.9.gz]. *)
Theorem input_match_names name :
  (input_match name = true ↔ name ∈ input_names) ∧
  length input_names = 9%nat ∧
  input_names = ["dshield.log.1.gz"; "dshield.log.2.gz"; "dshield.log.3.gz";
                 "dshield.log.4.gz"; "dshield.log.5.gz"; "dshield.log.6.gz";
                 "dshield.log.7.gz"; "dshield.log.8.gz"; "dshield.log.9.gz"].
Proof.
  split; [|split; vm_compute; reflexivity]. split.
  - unfold input_match. intros [Hp H]%andb_true_iff.
    apply prefix_drop in Hp. simpl String.length in Hp.
    destruct (Name.drop 12 name) as [|c rest]; [done|].
    apply andb_true_iff in H as [[Hlo Hhi]%andb_true_iff Hrest].
    apply String.eqb_eq in Hrest as ->. apply N.leb_le in Hlo, Hhi.
    rewrite Hp. unfold input_names. apply list_elem_of_fmap.
    exists (Z.of_N (Ascii.N_of_ascii c) - 48). split; [|apply elem_of_seqZ; lia].
    do 2 f_equal. unfold Name.digit_char.
    replace (48 + Z.to_N (Z.of_N (Ascii.N_of_ascii c) - 48))%N with (Ascii.N_of_ascii c) by lia.
    by rewrite Ascii.ascii_N_embedding.
  - intros H.
    assert (Hall : Forall (λ n, input_match n = true) input_names)
      by (vm_compute; repeat constructor).
    by eapply Forall_forall in Hall.
Qed.

Lemma sort_keys_cases files :
  match sort_keys files with
  | Ok keyed => files = (λ k, (k.2, Some k.1)) <$> keyed
  | Raise e => e = FileNotFoundError ∧ ∃ p, (p, None) ∈ files
  end.
Proof.
  induction files as [|[p [t|]] files IH]; simpl; [done| |].
  - destruct (sort_keys files) as [keyed|e].
    + simpl. by rewrite IH.
    + destruct IH as (-> & q & Hq). split; [done|]. exists q. apply elem_of_cons. by right.
  - split; [done|]. exists p. apply elem_of_cons. by left.
Qed.

Lemma insert_by_key_perm x l : insert_by_key x l ≡ₚ x :: l.
Proof.
  induction l as [|y l IH]; simpl; [done|].
  destruct (x.1 <=? y.1); [done|]. rewrite IH. apply Permutation_swap.
Qed.

Lemma sort_by_key_perm l : sort_by_key l ≡ₚ l.
Proof.
  induction l as [|x l IH]; simpl; [done|].
  change (foldr insert_by_key [] l) with (sort_by_key l).
  by rewrite insert_by_key_perm, IH.
Qed.

Lemma insert_by_key_sorted x l :
  StronglySorted (λ a b, a.1 ≤ b.1) l →
  StronglySorted (λ a b, a.1 ≤ b.1) (insert_by_key x l).
Proof.
  induction 1 as [|y l Hl IH Hy]; simpl; [by repeat constructor|].
  destruct (x.1 <=? y.1) eqn:E.
  - apply Z.leb_le in E. constructor; [by constructor|].
    constructor; [done|]. eapply Forall_impl; [exact Hy|]. simpl. intros z Hz. lia.
  - apply Z.leb_gt in E. constructor; [done|].
    rewrite insert_by_key_perm. constructor; [lia|done].
Qed.

Lemma sort_by_key_sorted l : StronglySorted (λ a b, a.1 ≤ b.1) (sort_by_key l).
Proof.
  induction l as [|x l IH]; simpl; [constructor|]. by apply insert_by_key_sorted.
Qed.

Lemma insert_by_key_stable t x l :
  filter (λ a, a.1 = t) (insert_by_key x l) = filter (λ a, a.1 = t) (x :: l).
Proof.
  induction l as [|y l IH]; simpl; [done|].
  destruct (x.1 <=? y.1) eqn:E; [done|]. apply Z.leb_gt in E.
  rewrite (filter_cons _ y), IH, !(filter_cons _ x), (filter_cons _ y).
  destruct (decide (x.1 = t)) as [Hx|Hx]; [|done].
  destruct (decide (y.1 = t)) as [Hy|Hy]; [lia|done].
Qed.

Lemma sort_by_key_stable t l :
  filter (λ a, a.1 = t) (sort_by_key l) = filter (λ a, a.1 = t) l.
Proof.
  induction l as [|x l IH]; simpl; [done|].
  change (foldr insert_by_key [] l) with (sort_by_key l).
  by rewrite insert_by_key_stable, !filter_cons, IH.
Qed.

Lemma discover_files scan :
  (d ← LOG_DIRS; pat ← INPUT_PATTERNS; glob_dir d pat (scan d))
  = (λ e, ("/var/log" +:+ "/" +:+ e_name e, e_mtime e)) <$> found scan.
Proof. unfold LOG_DIRS, INPUT_PATTERNS, found, glob_dir. simpl. by rewrite !app_nil_r. Qed.

(** X21: [discover_inputs] returns the paths of the matching entries of
    [/var/log], one for each entry, by ascending modification time, entries
    of the same time in the order of the listing; it raises
    [FileNotFoundError] when [os.stat] fails on a matching entry, and only
    then. *)
Theorem discover_inputs_sorted scan :
  match discover_inputs_in scan with
  | Ok files =>
      ∃ unsorted keyed,
        Forall2 (λ k e, e_mtime e = Some k.1 ∧ k.2 = "/var/log" +:+ "/" +:+ e_name e)
          unsorted (found scan) ∧
        files = snd <$> keyed ∧
        keyed ≡ₚ unsorted ∧
        StronglySorted (λ a b, a.1 ≤ b.1) keyed ∧
        (∀ t, filter (λ a, a.1 = t) keyed = filter (λ a, a.1 = t) unsorted)
  | Raise e =>
      e = FileNotFoundError ∧ ∃ en, en ∈ found scan ∧ e_mtime en = None
  end.
Proof.
  unfold discover_inputs_in. cbv zeta. rewrite discover_files.
  pose proof (sort_keys_cases
                ((λ e, ("/var/log" +:+ "/" +:+ e_name e, e_mtime e)) <$> found scan)) as H.
  destruct (sort_keys _) as [keyed|e].
  - exists keyed, (sort_by_key keyed).
    split_and!; [|done|apply sort_by_key_perm|apply sort_by_key_sorted|
                 intros t; apply sort_by_key_stable].
    clear -H. revert keyed H. induction (found scan) as [|e l IH]; intros keyed H.
    + destruct keyed; [constructor|done].
    + destruct keyed as [|k keyed]; [done|]. rewrite !fmap_cons in H.
      injection H as H1 H2 H3. constructor; [by split|by apply IH].
  - destruct H as (-> & p & Hp). split; [done|].
    apply list_elem_of_fmap in Hp as (en & [= _ Hen] & Hin). by exists en.
Qed.

(** X22: when the names of the listing are distinct, a discovery that
    returns gives at most nine paths, all distinct: the paths of the entries
    named [dshield.log.1.gz] to [dshield.log.9.gz]. *)
Theorem at_most_nine_inputs scan files :
  NoDup (e_name <$> scan "/var/log") →
  discover_inputs_in scan = Ok files →
  (length files ≤ 9)%nat ∧ NoDup files ∧
  ∀ p, p ∈ files ↔ ∃ en, en ∈ scan "/var/log" ∧ e_name en ∈ input_names ∧
                         p = "/var/log" +:+ "/" +:+ e_name en.
Proof.
  intros Hnd Hrun. pose proof (discover_inputs_sorted scan) as H. rewrite Hrun in H.
  destruct H as (unsorted & keyed & Hf2 & -> & Hperm & _).
  assert (Hpaths : snd <$> unsorted = (λ e, "/var/log" +:+ "/" +:+ e_name e) <$> found scan).
  { clear -Hf2. induction Hf2 as [|k e ks es [_ Hk] _ IH]; [done|].
    rewrite !fmap_cons. by rewrite Hk, IH. }
  assert (Hnames : NoDup (e_name <$> found scan)).
  { unfold found. clear -Hnd. induction (scan "/var/log") as [|e l IH]; [constructor|].
    rewrite fmap_cons in Hnd. apply NoDup_cons in Hnd as [Hne Hnd].
    rewrite filter_cons. destruct (decide (input_match (e_name e) = true)); [|by apply IH].
    rewrite fmap_cons. apply NoDup_cons. split; [|by apply IH].
    intros (e' & He' & Hin)%list_elem_of_fmap. apply Hne, list_elem_of_fmap.
    exists e'. split; [done|]. by apply list_elem_of_filter in Hin as [_ ?]. }
  assert (Hin : ∀ n, n ∈ e_name <$> found scan → n ∈ input_names).
  { intros n (e & -> & He)%list_elem_of_fmap. apply list_elem_of_filter in He as [He _].
    by apply input_match_names. }
  assert (Hfiles : snd <$> keyed ≡ₚ (λ e, "/var/log" +:+ "/" +:+ e_name e) <$> found scan)
    by (by rewrite Hperm, Hpaths).
  split_and!.
  - rewrite Hfiles, length_fmap, <- (length_fmap e_name).
    change 9%nat with (length input_names).
    by apply submseteq_length, NoDup_submseteq.
  - rewrite Hfiles, (list_fmap_compose e_name (λ n, "/var/log" +:+ "/" +:+ n)).
    apply NoDup_fmap_2; [|done]. intros a b Hab. by simplify_eq.
  - intros p. rewrite Hfiles, list_elem_of_fmap. split.
    + intros (en & -> & Hen). exists en.
      apply list_elem_of_filter in Hen as [Hm Hen]. split_and!; [done| |done].
      by apply input_match_names.
    + intros (en & Hen & Hn & ->). exists en. split; [done|].
      apply list_elem_of_filter. split; [|done]. by apply input_match_names.
Qed.

Lemma at_most_nine_inputs_witness :
  (NoDup (e_name <$> sample_scan "/var/log") ∧
   discover_inputs_in sample_scan
     = Ok ["/var/log/dshield.log.2.gz"; "/var/log/dshield.log.1.gz"]) ∧
  (length ["/var/log/dshield.log.2.gz"; "/var/log/dshield.log.1.gz"] ≤ 9)%nat.
Proof.
  assert (Hnd : NoDup (e_name <$> sample_scan "/var/log")).
  { refine (bool_decide_unpack _ _). vm_compute. exact I. }
  assert (Hrun : discover_inputs_in sample_scan
                 = Ok ["/var/log/dshield.log.2.gz"; "/var/log/dshield.log.1.gz"])
    by (vm_compute; reflexivity).
  split; [by split|].
  exact (proj1 (at_most_nine_inputs sample_scan _ Hnd Hrun)).
Defined.
